(** * Divine Wrath server: the per-room game-session engine

    A shallow embedding of [src/index.js] (the socket handlers and the
    helpers [addScore], [handleEndOfRound], [startNextRound],
    [verifyClaim]), of the tables of [src/shared/constants.js] and of
    [roomCodeToSessionId] from the relayer module, followed by the room
    codes, the room registry and the proof encoding of the relayer
    module.

    Modelling conventions.
    - Payload values and the fields that store them ([position], [cell],
      [claimValue], [isTrue]) are JavaScript values: [null], [undefined],
      booleans and numbers of integer value.  Strings, fractions, NaN,
      infinities and objects in these slots are outside the model.
    - A number is a binary64 value.  The counters and scores of a room
      stay far below 2^53, where integer sums are exact; the quotient and
      the difference that [verifyClaim] takes of a position, which is
      whatever number a client sent, are rounded as the format rounds
      them.
    - A handler is a function from the room it looked up to an [Outcome]:
      the room after the handler together with the emitted events, or a
      crash (an uncaught [TypeError], with the room as mutated so far), or
      the room's deletion.
    - [Math.random] and the relayer's answer are arguments of the commands
      that use them.
    - The fields [avatar] and [createdAt] are written once and never read;
      they are left out. *)

From stdpp Require Import base list gmap strings pretty.
From Stdlib Require Import ZArith Lia Sorted.
From Stdlib Require Floats.SpecFloat.

Local Open Scope string_scope.
Local Open Scope Z_scope.

(** ** JavaScript values *)

Inductive JsVal : Type :=
| JNull
| JUndef
| JBool (b : bool)
| JNum (z : Z).

#[global] Instance JsVal_eq_dec : EqDecision JsVal.
Proof. solve_decision. Defined.

(** [a === b] on the modelled values. *)
Definition strict_eq (a b : JsVal) : bool := bool_decide (a = b).

(** Truthiness, as used by [if (x)] and [x && y]. *)
Definition truthy (v : JsVal) : bool :=
  match v with
  | JNull | JUndef => false
  | JBool b => b
  | JNum z => negb (z =? 0)
  end.

(** [ToNumber]; [None] stands for NaN. *)
Definition toNumber (v : JsVal) : option Z :=
  match v with
  | JNull => Some 0
  | JUndef => None
  | JBool b => Some (if b then 1 else 0)
  | JNum z => Some z
  end.

(** ** src/shared/constants.js *)

Module CLAIM_TYPES.
Definition ROW : string := "row".
Definition COLUMN : string := "column".
Definition ADJACENT : string := "adjacent".
End CLAIM_TYPES.

Inductive Phase : Type :=
| lobby | setup | claiming | deduction | round_transition | ended.

#[global] Instance Phase_eq_dec : EqDecision Phase.
Proof. solve_decision. Defined.

Inductive Role : Type := god | mortal.

#[global] Instance Role_eq_dec : EqDecision Role.
Proof. solve_decision. Defined.

Inductive Winner : Type := god_wins | mortals_win.

#[global] Instance Winner_eq_dec : EqDecision Winner.
Proof. solve_decision. Defined.

(** Grid adjacency map, keyed by cell. *)
Definition ADJACENCY_MAP : list (Z * list Z) :=
  [ (1, [2; 4]);
    (2, [1; 3; 5]);
    (3, [2; 6]);
    (4, [1; 5; 7]);
    (5, [2; 4; 6; 8]);
    (6, [3; 5; 9]);
    (7, [4; 8]);
    (8, [5; 7; 9]);
    (9, [6; 8]) ].

(** [table[k]] on a table keyed by integers; [None] is [undefined]. *)
Fixpoint table_get {A} (t : list (Z * A)) (k : Z) : option A :=
  match t with
  | [] => None
  | (k', v) :: t' => if bool_decide (k' = k) then Some v else table_get t' k
  end.

Definition ROUND_OPTIONS : list Z := [3; 4; 5].
Definition DEFAULT_ROUNDS : Z := 3.
Definition TURNS_PER_ROUND : Z := 3.

Module POINTS.
Definition MORTAL_SURVIVES_TURN : Z := 20.
Definition TRUE_SELF_CLAIM : Z := 20.
Definition GOD_FINDS_MORTAL : Z := 40.
Definition GOD_PENALTY_MISS : Z := -20.
Definition GOD_PENALTY_HIT_BONUS : Z := 15.
End POINTS.

Definition MAX_CONSECUTIVE_GOD_ROUNDS : Z := 2.

(** ** verifyClaim (src/index.js) *)

(** The integer nearest to [n / d], for [d > 0]; of two that are equally
    near, the even one. *)
Definition round_half_even (n d : Z) : Z :=
  let q := n / d in
  let r := n mod d in
  if 2 * r <? d then q
  else if d <? 2 * r then q + 1
  else if Z.even q then q else q + 1.

(** The binary64 value nearest to the quotient [n / d] of two integers,
    [d > 0], counted in units of [2^-1074], the step between the smallest
    values of the format.  A value of [2^k] units or more, with [k >= 52],
    has 53 significant bits and so is a multiple of [2^(k-52)] units;
    below [2^52] units every count of units is a value.  Ties go to the
    even significand.  The quotients taken in this file are below
    [2^1024] in size whenever [n] is itself a binary64 value, so the
    overflow to infinity is not modelled. *)
Definition binary64 (n d : Z) : Z :=
  let a := Z.abs n * 2 ^ 1074 in
  let shift := Z.max 0 (Z.log2 (a / d) - 52) in
  Z.sgn n * (round_half_even a (d * 2 ^ shift) * 2 ^ shift).

(** [Math.ceil(x)], for [x] counted in units of [2^-1074]. *)
Definition Math_ceil (x : Z) : Z := - ((- x) / 2 ^ 1074).

(** [Math.ceil(n / 3)] on a number of integer value [n]: the quotient is
    rounded to a binary64 value before the ceiling is taken. *)
Definition ceil_div3 (n : Z) : Z := Math_ceil (binary64 n 3).

(** [n - 1] on a number of integer value [n].  The rounded difference of
    two integers is an integer again, so the division is exact. *)
Definition minus_one (n : Z) : Z := binary64 (n - 1) 1 / 2 ^ 1074.

Arguments binary64 : simpl never.
Arguments Math_ceil : simpl never.
Arguments ceil_div3 : simpl never.
Arguments minus_one : simpl never.

(** [x === claimValue] where [x] is a computed number ([None] = NaN). *)
Definition num_strict_eq (x : option Z) (v : JsVal) : bool :=
  match x with
  | Some n => strict_eq (JNum n) v
  | None => false
  end.

(** [ADJACENCY_MAP[claimerPosition]] on the modelled values: the keys of
    the table are the numbers 1..9, and [undefined], a boolean or any
    other number names no property of it. *)
Definition adjacency_of (claimerPosition : JsVal) : option (list Z) :=
  match claimerPosition with
  | JNum c => table_get ADJACENCY_MAP c
  | _ => None
  end.

(** [cells.includes(targetPosition)] on an array of numbers. *)
Definition includes (cells : list Z) (v : JsVal) : bool :=
  match v with
  | JNum t => bool_decide (t ∈ cells)
  | _ => false
  end.

Definition verifyClaim (claimerPosition targetPosition : JsVal)
    (claimType : string) (claimValue : JsVal) : bool :=
  if strict_eq targetPosition JNull then false
  else
    let targetRow := ceil_div3 <$> toNumber targetPosition in
    let targetCol :=
      (λ n, Z.rem (minus_one n) 3 + 1) <$> toNumber targetPosition in
    if bool_decide (claimType = CLAIM_TYPES.ROW) then
      num_strict_eq targetRow claimValue
    else if bool_decide (claimType = CLAIM_TYPES.COLUMN) then
      num_strict_eq targetCol claimValue
    else if bool_decide (claimType = CLAIM_TYPES.ADJACENT) then
      if strict_eq claimerPosition JNull then false
      else
        match adjacency_of claimerPosition with
        | Some cells => includes cells targetPosition
        | None => false
        end
    else false.

(** ** Data model (src/shared/types.ts and the object literals of index.js) *)

Module Player.
Record t : Type := mk {
  id : string;
  name : string;
  role : option Role;
  position : JsVal;
  isHost : bool;
  isReady : bool }.
Definition set_role (x : option Role) (p : t) : t :=
  mk (id p) (name p) x (position p) (isHost p) (isReady p).
Definition set_position (x : JsVal) (p : t) : t :=
  mk (id p) (name p) (role p) x (isHost p) (isReady p).
Definition set_isHost (x : bool) (p : t) : t :=
  mk (id p) (name p) (role p) (position p) x (isReady p).
Definition set_isReady (x : bool) (p : t) : t :=
  mk (id p) (name p) (role p) (position p) (isHost p) x.
End Player.

(** The [zkProof] object of a [submit_claim] payload: whether its [proof]
    and [publicSignals] members are present, and its [isTrue] member. *)
Module ZkProof.
Record t : Type := mk {
  proof : option string;
  publicSignals : option string;
  isTrue : JsVal }.
End ZkProof.

Module Claim.
Record t : Type := mk {
  id : string;
  playerId : string;
  playerName : string;
  targetPlayerId : string;
  targetPlayerName : string;
  claimType : string;
  claimValue : JsVal;
  verified : bool;
  isTrue : JsVal;
  turn : Z;
  isSelfClaim : bool;
  zkProof : option ZkProof.t;
  verifiedOnChain : bool;
  blockchainError : option string;
  blockchainResult : option string }.
(** The four assignments [verify_claim] makes to a claim. *)
Definition set_verdict (v : JsVal) (onChain : bool) (err : option string)
    (c : t) : t :=
  mk (id c) (playerId c) (playerName c) (targetPlayerId c)
     (targetPlayerName c) (claimType c) (claimValue c) true v (turn c)
     (isSelfClaim c) (zkProof c) onChain err (blockchainResult c).
(** The two assignments [submit_claim_blockchain] makes to a claim. *)
Definition set_onChain (res : string) (c : t) : t :=
  mk (id c) (playerId c) (playerName c) (targetPlayerId c)
     (targetPlayerName c) (claimType c) (claimValue c) (verified c)
     (isTrue c) (turn c) (isSelfClaim c) (zkProof c) true
     (blockchainError c) (Some res).
End Claim.

Module Attack.
Record t : Type := mk {
  cell : JsVal;
  turn : Z;
  round : Z;
  hit : bool;
  victimName : option string }.
End Attack.

Module ScoreEntry.
Record t : Type := mk {
  round : Z;
  turn : Z;
  action : string;
  points : Z }.
End ScoreEntry.

Module PlayerScore.
Record t : Type := mk {
  playerId : string;
  playerName : string;
  total : Z;
  breakdown : list ScoreEntry.t }.
End PlayerScore.

Module GodHistory.
Record t : Type := mk {
  playerId : string;
  consecutiveRounds : Z;
  hasPenalty : bool;
  missedAttacks : Z }.
End GodHistory.

(** The room.  [scores] is the object [playerId -> PlayerScore];
    [scoreKeys] records the insertion order of its keys, which
    [Object.values] follows. *)
Module Room.
Record t : Type := mk {
  code : string;
  players : list Player.t;
  phase : Phase;
  turn : Z;
  currentRound : Z;
  totalRounds : Z;
  currentPlayerIndex : Z;
  claims : list Claim.t;
  attacks : list Attack.t;
  verificationsRemaining : Z;
  scores : gmap string PlayerScore.t;
  scoreKeys : list string;
  godHistory : option GodHistory.t;
  roundWinner : option Winner;
  blockchainSessionId : option Z;
  blockchainRegistered : option bool }.
Definition set_players x r :=
  mk (code r) x (phase r) (turn r) (currentRound r) (totalRounds r)
     (currentPlayerIndex r) (claims r) (attacks r) (verificationsRemaining r)
     (scores r) (scoreKeys r) (godHistory r) (roundWinner r)
     (blockchainSessionId r) (blockchainRegistered r).
Definition set_phase x r :=
  mk (code r) (players r) x (turn r) (currentRound r) (totalRounds r)
     (currentPlayerIndex r) (claims r) (attacks r) (verificationsRemaining r)
     (scores r) (scoreKeys r) (godHistory r) (roundWinner r)
     (blockchainSessionId r) (blockchainRegistered r).
Definition set_turn x r :=
  mk (code r) (players r) (phase r) x (currentRound r) (totalRounds r)
     (currentPlayerIndex r) (claims r) (attacks r) (verificationsRemaining r)
     (scores r) (scoreKeys r) (godHistory r) (roundWinner r)
     (blockchainSessionId r) (blockchainRegistered r).
Definition set_currentRound x r :=
  mk (code r) (players r) (phase r) (turn r) x (totalRounds r)
     (currentPlayerIndex r) (claims r) (attacks r) (verificationsRemaining r)
     (scores r) (scoreKeys r) (godHistory r) (roundWinner r)
     (blockchainSessionId r) (blockchainRegistered r).
Definition set_totalRounds x r :=
  mk (code r) (players r) (phase r) (turn r) (currentRound r) x
     (currentPlayerIndex r) (claims r) (attacks r) (verificationsRemaining r)
     (scores r) (scoreKeys r) (godHistory r) (roundWinner r)
     (blockchainSessionId r) (blockchainRegistered r).
Definition set_currentPlayerIndex x r :=
  mk (code r) (players r) (phase r) (turn r) (currentRound r) (totalRounds r)
     x (claims r) (attacks r) (verificationsRemaining r)
     (scores r) (scoreKeys r) (godHistory r) (roundWinner r)
     (blockchainSessionId r) (blockchainRegistered r).
Definition set_claims x r :=
  mk (code r) (players r) (phase r) (turn r) (currentRound r) (totalRounds r)
     (currentPlayerIndex r) x (attacks r) (verificationsRemaining r)
     (scores r) (scoreKeys r) (godHistory r) (roundWinner r)
     (blockchainSessionId r) (blockchainRegistered r).
Definition set_attacks x r :=
  mk (code r) (players r) (phase r) (turn r) (currentRound r) (totalRounds r)
     (currentPlayerIndex r) (claims r) x (verificationsRemaining r)
     (scores r) (scoreKeys r) (godHistory r) (roundWinner r)
     (blockchainSessionId r) (blockchainRegistered r).
Definition set_verificationsRemaining x r :=
  mk (code r) (players r) (phase r) (turn r) (currentRound r) (totalRounds r)
     (currentPlayerIndex r) (claims r) (attacks r) x
     (scores r) (scoreKeys r) (godHistory r) (roundWinner r)
     (blockchainSessionId r) (blockchainRegistered r).
Definition set_scores x ks r :=
  mk (code r) (players r) (phase r) (turn r) (currentRound r) (totalRounds r)
     (currentPlayerIndex r) (claims r) (attacks r) (verificationsRemaining r)
     x ks (godHistory r) (roundWinner r)
     (blockchainSessionId r) (blockchainRegistered r).
Definition set_godHistory x r :=
  mk (code r) (players r) (phase r) (turn r) (currentRound r) (totalRounds r)
     (currentPlayerIndex r) (claims r) (attacks r) (verificationsRemaining r)
     (scores r) (scoreKeys r) x (roundWinner r)
     (blockchainSessionId r) (blockchainRegistered r).
Definition set_roundWinner x r :=
  mk (code r) (players r) (phase r) (turn r) (currentRound r) (totalRounds r)
     (currentPlayerIndex r) (claims r) (attacks r) (verificationsRemaining r)
     (scores r) (scoreKeys r) (godHistory r) x
     (blockchainSessionId r) (blockchainRegistered r).
Definition set_blockchainSessionId x r :=
  mk (code r) (players r) (phase r) (turn r) (currentRound r) (totalRounds r)
     (currentPlayerIndex r) (claims r) (attacks r) (verificationsRemaining r)
     (scores r) (scoreKeys r) (godHistory r) (roundWinner r)
     x (blockchainRegistered r).
Definition set_blockchainRegistered x r :=
  mk (code r) (players r) (phase r) (turn r) (currentRound r) (totalRounds r)
     (currentPlayerIndex r) (claims r) (attacks r) (verificationsRemaining r)
     (scores r) (scoreKeys r) (godHistory r) (roundWinner r)
     (blockchainSessionId r) x.
End Room.

#[global] Instance Player_eq_dec : EqDecision Player.t.
Proof. solve_decision. Defined.

(** ** Events and handler outcomes *)

(** What a handler emits, in emission order.  [error] and
    [blockchain_result] go to the calling socket, [set_timeout] is the
    [setTimeout] of [handleEndOfRound], everything else is broadcast to the
    room.  The [room] snapshot every broadcast carries is left out. *)
Inductive Event : Type :=
| error (message : string)
| room_updated
| game_started
| phase_changed (p : Phase)
| claim_submitted (c : Claim.t)
| claim_verified (c : Claim.t) (verificationsRemaining : Z)
    (verifiedOnChain : option bool) (blockchainError : option string)
| claim_verified_onchain (c : Claim.t)
| blockchain_result (success : bool) (err : option string) (claimId : string)
| attack_result (cell : JsVal) (hit : bool) (victimName : option string)
| round_ended (winner : Winner) (needsGodChoice : bool)
    (canStay : option bool) (godPlayerId : option string)
| game_ended (winner : option string) (ranking : list PlayerScore.t)
| round_started (roundNumber : Z)
| player_left
| set_timeout (ms : Z).

Inductive Outcome : Type :=
| Done (r : Room.t) (evs : list Event)
| Crash (r : Room.t) (evs : list Event)
| Deleted.

(** Events emitted before a tail call. *)
Definition after_emitting (evs : list Event) (o : Outcome) : Outcome :=
  match o with
  | Done r evs' => Done r (evs ++ evs')
  | Crash r evs' => Crash r (evs ++ evs')
  | Deleted => Deleted
  end.

(** The relayer's answer to [submitClaimRelayed]: the promise resolves
    with a result or rejects with a message. *)
Inductive Relay : Type :=
| Resolved (result : string)
| Rejected (message : string).

Record Config : Type := {
  USE_BLOCKCHAIN : bool;
  RELAYER_CONFIGURED : bool }.

(** ** Helpers *)

(** [s || null] on a string: the empty string is falsy. *)
Definition or_null (s : string) : option string :=
  if bool_decide (s = "") then None else Some s.

(** [room.players.find(p => p.id === id)], with the index of the object
    found so that it can be mutated in place. *)
Definition find_player (sid : string) (ps : list Player.t)
    : option (nat * Player.t) :=
  list_find (λ p, Player.id p = sid) ps.

Definition find_god (ps : list Player.t) : option (nat * Player.t) :=
  list_find (λ p, Player.role p = Some god) ps.

(** [p.role === 'mortal' && p.position !== null] *)
Definition alive_mortal (p : Player.t) : Prop :=
  Player.role p = Some mortal ∧ Player.position p ≠ JNull.

#[global] Instance alive_mortal_dec p : Decision (alive_mortal p).
Proof. unfold alive_mortal. apply _. Defined.

Definition aliveMortals (ps : list Player.t) : list Player.t :=
  filter alive_mortal ps.

(** [findIndex], which answers -1 when nothing matches. *)
Definition findIndex {A} (P : A → Prop) `{∀ x, Decision (P x)}
    (l : list A) : Z :=
  match list_find P l with
  | Some (i, _) => Z.of_nat i
  | None => -1
  end.

(** [addScore] *)
Definition addScore (r : Room.t) (playerId action : string) (points : Z)
    (round turn : Z) : Room.t :=
  match Room.scores r !! playerId with
  | None => r
  | Some s =>
      let s' := PlayerScore.mk (PlayerScore.playerId s)
                  (PlayerScore.playerName s)
                  (PlayerScore.total s + points)
                  (PlayerScore.breakdown s
                     ++ [ScoreEntry.mk round turn action points])%list in
      Room.set_scores (<[playerId := s']> (Room.scores r)) (Room.scoreKeys r) r
  end.

(** The [forEach] of [start_game] that fills a fresh [scores] object. *)
Definition init_scores (ps : list Player.t)
    : gmap string PlayerScore.t * list string :=
  foldl (λ acc p,
           let '(m, ks) := acc in
           (<[Player.id p :=
                PlayerScore.mk (Player.id p) (Player.name p) 0 []]> m,
            if bool_decide (Player.id p ∈ ks) then ks
            else (ks ++ [Player.id p])%list))
        (∅, []) ps.

(** [Object.values(room.scores).sort((a, b) => b.total - a.total)]:
    a stable sort by descending total. *)
Fixpoint insert_desc (x : PlayerScore.t) (l : list PlayerScore.t)
    : list PlayerScore.t :=
  match l with
  | [] => [x]
  | y :: l' =>
      if bool_decide (PlayerScore.total x < PlayerScore.total y)
      then y :: insert_desc x l'
      else x :: l
  end.

Definition ranking_of (r : Room.t) : list PlayerScore.t :=
  foldr insert_desc [] (omap (λ k, Room.scores r !! k) (Room.scoreKeys r)).

(** [roomCodeToSessionId] of the relayer module: a 32-bit string hash. *)
Definition to_int32 (z : Z) : Z := (z + 2 ^ 31) mod 2 ^ 32 - 2 ^ 31.

Fixpoint hash_chars (hash : Z) (s : string) : Z :=
  match s with
  | EmptyString => hash
  | String c s' =>
      let char := Z.of_N (Ascii.N_of_ascii c) in
      hash_chars (to_int32 (to_int32 (hash * 32) - hash + char)) s'
  end.

Definition roomCodeToSessionId (roomCode : string) : Z :=
  Z.abs (hash_chars 0 roomCode).

(** ** Room creation *)

Definition new_player (id name : string) (host : bool) : Player.t :=
  Player.mk id name None JNull host false.

(** [createRoom]; the generated code is an argument. *)
Definition createRoom (code hostId hostName : string) : Room.t :=
  Room.mk code [new_player hostId hostName true] lobby 0 1 DEFAULT_ROUNDS 0
    [] [] 2 ∅ [] None None None None.

(** ** Round management *)

Definition reset_mortal (p : Player.t) : Player.t :=
  if bool_decide (Player.role p = Some mortal)
  then Player.set_position JNull p else p.

(** The elements of an array that satisfy a predicate, each with its index:
    the result of [filter] as a list of object references. *)
Fixpoint entries_from {A} (P : A → bool) (i : nat) (l : list A)
    : list (nat * A) :=
  match l with
  | [] => []
  | x :: l' =>
      if P x then (i, x) :: entries_from P (S i) l'
      else entries_from P (S i) l'
  end.

(** [if (keepGodId)]: [null] and the empty string are falsy. *)
Definition keeps_god (keepGodId : option string) : bool :=
  match keepGodId with
  | Some s => bool_decide (s ≠ "")
  | None => false
  end.

(** [startNextRound].  [pick] stands for the value of [Math.random]: the
    new god is [newGodCandidates[pick mod length]].  With no god in the
    room, or no candidate, the function throws where it dereferences
    [currentGod] or [newGod]. *)
Definition startNextRound (r : Room.t) (keepGodId : option string)
    (pick : nat) : Outcome :=
  let r := Room.set_currentRound (Room.currentRound r + 1) r in
  let r := Room.set_turn 1 r in
  let r := Room.set_roundWinner None r in
  let r := Room.set_verificationsRemaining 2 r in
  let r := Room.set_claims [] r in
  let r := Room.set_attacks [] r in
  if keeps_god keepGodId then
    let r := Room.set_players (reset_mortal <$> Room.players r) r in
    Done (Room.set_phase setup r) [round_started (Room.currentRound r)]
  else
    match find_god (Room.players r) with
    | None => Crash r []
    | Some (gi, currentGod) =>
        let ps := Room.players r in
        let newGodCandidates :=
          match entries_from (λ p, bool_decide (alive_mortal p)) 0 ps with
          | [] =>
              entries_from
                (λ p, bool_decide (Player.id p ≠ Player.id currentGod)) 0 ps
          | alive => alive
          end in
        let ps :=
          alter (λ p, Player.set_position JNull
                        (Player.set_role (Some mortal) p)) gi ps in
        match newGodCandidates !! (pick mod length newGodCandidates)%nat with
        | None => Crash (Room.set_players ps r) []
        | Some (ni, newGod) =>
            let ps :=
              alter (λ p, Player.set_position JNull
                            (Player.set_role (Some god) p)) ni ps in
            let ps := reset_mortal <$> ps in
            let r := Room.set_players ps r in
            let r :=
              Room.set_godHistory
                (Some (GodHistory.mk (Player.id newGod) 1 false 0)) r in
            Done (Room.set_phase setup r) [round_started (Room.currentRound r)]
        end
    end.

(** The test shared by [god_choice] and [handleEndOfRound]. *)
Definition canStay (gh : GodHistory.t) : bool :=
  negb (bool_decide
          (GodHistory.consecutiveRounds gh >= MAX_CONSECUTIVE_GOD_ROUNDS - 1)
        && bool_decide (GodHistory.missedAttacks gh > 0)).

(** [handleEndOfRound] *)
Definition handleEndOfRound (r : Room.t) (winner : Winner) : Outcome :=
  if bool_decide (Room.currentRound r >= Room.totalRounds r) then
    let r := Room.set_phase ended r in
    let ranking := ranking_of r in
    Done r [game_ended
              (head ranking ≫= λ s, or_null (PlayerScore.playerId s))
              ranking]
  else
    let r := Room.set_phase round_transition r in
    let r := Room.set_roundWinner (Some winner) r in
    match winner with
    | mortals_win =>
        Done r [round_ended mortals_win false None None; set_timeout 3000]
    | god_wins =>
        match Room.godHistory r, find_god (Room.players r) with
        | Some gh, Some (_, g) =>
            Done r [round_ended god_wins true (Some (canStay gh))
                      (Some (Player.id g))]
        | _, _ => Crash r []
        end
    end.

(** ** Socket handlers *)

(** [join_room], on the room found under the code. *)
Definition join_room (sid playerName : string) (r : Room.t) : Outcome :=
  if bool_decide (Z.of_nat (length (Room.players r)) >= 4) then
    Done r [error "Room is full"]
  else if bool_decide (Room.phase r ≠ lobby) then
    Done r [error "Game already started"]
  else
    Done (Room.set_players
            (Room.players r ++ [new_player sid playerName false])%list r)
         [room_updated].

(** [toggle_ready] *)
Definition toggle_ready (sid : string) (r : Room.t) : Outcome :=
  match find_player sid (Room.players r) with
  | Some (i, player) =>
      Done (Room.set_players
              (alter (Player.set_isReady (negb (Player.isReady player))) i
                 (Room.players r)) r)
           [room_updated]
  | None => Done r []
  end.

(** [player?.isHost], falsy when the player is absent. *)
Definition is_host (o : option (nat * Player.t)) : bool :=
  match o with
  | Some (_, p) => Player.isHost p
  | None => false
  end.

(** [set_round_config] *)
Definition set_round_config (sid : string) (totalRounds : JsVal)
    (r : Room.t) : Outcome :=
  if bool_decide (Room.phase r ≠ lobby) then Done r []
  else if negb (is_host (find_player sid (Room.players r))) then
    Done r [error "Only host can configure rounds"]
  else
    match totalRounds with
    | JNum n =>
        if bool_decide (n ∈ [3; 4; 5]) then
          Done (Room.set_totalRounds n r) [room_updated]
        else Done r [error "Invalid round count"]
    | _ => Done r [error "Invalid round count"]
    end.

(** [start_game].  [shuffled] stands for the sorted copy of [room.players]
    under the random comparator: it lists the indices of the players in
    shuffled order.  A list that names fewer than four players of the room
    is no such copy; that case is outside the behaviour of [sort] and is
    mapped to a crash on the unchanged room. *)
Definition start_game (sid : string) (shuffled : list nat) (r : Room.t)
    : Outcome :=
  if negb (is_host (find_player sid (Room.players r))) then
    Done r [error "Only host can start the game"]
  else if bool_decide (Z.of_nat (length (Room.players r)) < 4) then
    Done r [error "Need 4 players to start"]
  else
    match shuffled with
    | i0 :: i1 :: i2 :: i3 :: _ =>
        match Room.players r !! i0, Room.players r !! i1,
              Room.players r !! i2, Room.players r !! i3 with
        | Some g, Some _, Some _, Some _ =>
            let ps := alter (Player.set_role (Some god)) i0 (Room.players r) in
            let ps := alter (Player.set_role (Some mortal)) i1 ps in
            let ps := alter (Player.set_role (Some mortal)) i2 ps in
            let ps := alter (Player.set_role (Some mortal)) i3 ps in
            let r := Room.set_players ps r in
            let '(m, ks) := init_scores (Room.players r) in
            let r := Room.set_scores m ks r in
            let r :=
              Room.set_godHistory
                (Some (GodHistory.mk (Player.id g) 1 false 0)) r in
            let r := Room.set_phase setup r in
            let r := Room.set_turn 1 r in
            let r := Room.set_currentRound 1 r in
            let r :=
              Room.set_blockchainSessionId
                (Some (roomCodeToSessionId (Room.code r))) r in
            Done r [game_started]
        | _, _, _, _ => Crash r []
        end
    | _ => Crash r []
    end.

(** The [then] and [catch] callbacks of [startGameRelayed], which exist
    only when the relayer is in use. *)
Definition registration_settled (cfg : Config) (ok : bool) (r : Room.t)
    : Outcome :=
  if USE_BLOCKCHAIN cfg && RELAYER_CONFIGURED cfg then
    Done (Room.set_blockchainRegistered (Some ok) r) []
  else Done r [].

(** [select_position] *)
Definition select_position (sid : string) (position : JsVal) (r : Room.t)
    : Outcome :=
  if bool_decide (Room.phase r ≠ setup) then Done r [] else
  match find_player sid (Room.players r) with
  | None => Done r []
  | Some (i, player) =>
      if bool_decide (Player.role player ≠ Some mortal) then Done r [] else
      let taken :=
        bool_decide (Exists (λ p, Player.position p = position)
                       (Room.players r)) in
      if taken then Done r [error "Position already taken"] else
      let r :=
        Room.set_players
          (alter (Player.set_position position) i (Room.players r)) r in
      let mortals :=
        filter (λ p, Player.role p = Some mortal) (Room.players r) in
      let allReady :=
        bool_decide (Forall (λ m, Player.position m ≠ JNull) mortals) in
      if allReady then
        let r := Room.set_phase claiming r in
        let r :=
          Room.set_currentPlayerIndex
            (findIndex (λ p, Player.role p = Some mortal) (Room.players r))
            r in
        Done r [room_updated; phase_changed claiming]
      else Done r [room_updated]
  end.

(** [zkProof && zkProof.proof && zkProof.publicSignals] *)
Definition hasProof (zkProof : option ZkProof.t) : bool :=
  match zkProof with
  | Some z =>
      bool_decide (is_Some (ZkProof.proof z))
      && bool_decide (is_Some (ZkProof.publicSignals z))
  | None => false
  end.

(** The test of [claimExists] (src/shared/types.ts), inlined in
    [submit_claim]. *)
Definition claimExists (claims : list Claim.t) (targetPlayerId : string)
    (claimType : string) (claimValue : JsVal) : bool :=
  bool_decide
    (Exists (λ c, Claim.targetPlayerId c = targetPlayerId
                  ∧ Claim.claimType c = claimType
                  ∧ Claim.claimValue c = claimValue) claims).

(** [submit_claim] *)
Definition submit_claim (sid claimType : string) (claimValue : JsVal)
    (targetPlayerId : string) (zkProof : option ZkProof.t) (r : Room.t)
    : Outcome :=
  if bool_decide (Room.phase r ≠ claiming) then Done r [] else
  match find_player sid (Room.players r) with
  | None => Done r []
  | Some (_, player) =>
      if bool_decide (Player.role player ≠ Some mortal) then Done r [] else
      if strict_eq (Player.position player) JNull then
        Done r [error "Dead players cannot make claims"] else
      let alreadyClaimed :=
        bool_decide (Exists (λ c, Claim.playerId c = sid
                                  ∧ Claim.turn c = Room.turn r)
                       (Room.claims r)) in
      if alreadyClaimed then
        Done r [error "You already made a claim this turn"] else
      match find_player targetPlayerId (Room.players r) with
      | None => Done r [error "Invalid target player"]
      | Some (_, targetPlayer) =>
          if bool_decide (Player.role targetPlayer ≠ Some mortal) then
            Done r [error "Invalid target player"] else
          if bool_decide (claimType = CLAIM_TYPES.ADJACENT)
             && bool_decide (targetPlayerId = sid) then
            Done r [error "Cannot claim to be adjacent to yourself"] else
          if claimExists (Room.claims r) targetPlayerId claimType claimValue
          then Done r [error "This claim was already made"] else
          let claim :=
            Claim.mk
              (Room.code r +:+ "-" +:+ pretty (Room.turn r) +:+ "-" +:+ sid)
              sid (Player.name player) targetPlayerId
              (Player.name targetPlayer) claimType claimValue false JNull
              (Room.turn r) (bool_decide (targetPlayerId = sid))
              (if hasProof zkProof then zkProof else None)
              false None None in
          let r := Room.set_claims (Room.claims r ++ [claim])%list r in
          let alive := aliveMortals (Room.players r) in
          let claimsThisTurn :=
            filter (λ c, Claim.turn c = Room.turn r) (Room.claims r) in
          if bool_decide (Z.of_nat (length claimsThisTurn)
                          >= Z.of_nat (length alive)) then
            Done (Room.set_phase deduction r)
                 [phase_changed deduction; claim_submitted claim]
          else Done r [claim_submitted claim]
      end
  end.

(** [!sessionId]: absent or zero. *)
Definition no_session (r : Room.t) : bool :=
  match Room.blockchainSessionId r with
  | Some n => n =? 0
  | None => true
  end.

(** [submit_claim_blockchain].  [relay] is the settlement of
    [submitClaimRelayed] (a throw of [generatePlayerAddressSync] counts as
    a rejection: both end in the [catch] block). *)
Definition submit_claim_blockchain (cfg : Config) (claimId : string)
    (relay : Relay) (r : Room.t) : Outcome :=
  if negb (USE_BLOCKCHAIN cfg) || negb (RELAYER_CONFIGURED cfg) then
    Done r [blockchain_result false
              (Some "Blockchain not enabled or relayer not configured")
              claimId]
  else
    match list_find (λ c, Claim.id c = claimId) (Room.claims r) with
    | None => Done r [blockchain_result false (Some "Claim not found") claimId]
    | Some (i, claim) =>
        if no_session r then
          Done r [blockchain_result false
                    (Some "Game not registered on blockchain yet") claimId]
        else
          match relay with
          | Rejected msg => Done r [blockchain_result false (Some msg) claimId]
          | Resolved res =>
              let claim := Claim.set_onChain res claim in
              Done (Room.set_claims (<[i := claim]> (Room.claims r)) r)
                   [blockchain_result true None claimId;
                    claim_verified_onchain claim]
          end
    end.

(** [x?.position]: [undefined] when the player is gone. *)
Definition position_of (o : option (nat * Player.t)) : JsVal :=
  match o with
  | Some (_, p) => Player.position p
  | None => JUndef
  end.

(** The local check of [verify_claim]: both players are looked up by id. *)
Definition verify_locally (r : Room.t) (claim : Claim.t) : bool :=
  let claimer := find_player (Claim.playerId claim) (Room.players r) in
  let target := find_player (Claim.targetPlayerId claim) (Room.players r) in
  verifyClaim (position_of claimer) (position_of target)
    (Claim.claimType claim) (Claim.claimValue claim).

(** The tail common to the three branches of [verify_claim]: the claim
    object at index [i] has become [claim]; award the self-claim points and
    spend one verification. *)
Definition settle_verification (r : Room.t) (i : nat) (claim : Claim.t)
    : Room.t :=
  let r := Room.set_claims (<[i := claim]> (Room.claims r)) r in
  let r :=
    if truthy (Claim.isTrue claim) && Claim.isSelfClaim claim then
      addScore r (Claim.playerId claim) "true_self_claim"
        POINTS.TRUE_SELF_CLAIM (Room.currentRound r) (Room.turn r)
    else r in
  Room.set_verificationsRemaining (Room.verificationsRemaining r - 1) r.

(** [verify_claim], taken as one step.  In its delegated branch the
    handler awaits the relayer between its checks and its mutations;
    events of the room handled in the meantime are not modelled.  With
    [USE_BLOCKCHAIN] or [RELAYER_CONFIGURED] off no branch awaits and the
    step is the handler. *)
Definition verify_claim (cfg : Config) (sid claimId : string) (relay : Relay)
    (r : Room.t) : Outcome :=
  if bool_decide (Room.phase r ≠ deduction) then Done r [] else
  match find_player sid (Room.players r) with
  | None => Done r [error "Only God can verify claims"]
  | Some (_, player) =>
      if bool_decide (Player.role player ≠ Some god) then
        Done r [error "Only God can verify claims"] else
      if bool_decide (Room.verificationsRemaining r <= 0) then
        Done r [error "No verifications remaining this turn"] else
      match list_find (λ c, Claim.id c = claimId) (Room.claims r) with
      | None => Done r [error "Claim not found"]
      | Some (i, claim) =>
          if Claim.verified claim then
            Done r [error "Claim already verified"] else
          let fallback (msg : string) :=
            let claim :=
              Claim.set_verdict (JBool (verify_locally r claim)) false
                (Some msg) claim in
            let r := settle_verification r i claim in
            Done r [claim_verified claim (Room.verificationsRemaining r)
                      (Some false) (Some msg)] in
          match Claim.zkProof claim,
                USE_BLOCKCHAIN cfg && RELAYER_CONFIGURED cfg with
          | Some zk, true =>
              if no_session r then
                fallback "Game not registered on blockchain"
              else
                match relay with
                | Rejected msg => fallback msg
                | Resolved _ =>
                    let claim :=
                      Claim.set_verdict (ZkProof.isTrue zk) true
                        (Claim.blockchainError claim) claim in
                    let r := settle_verification r i claim in
                    Done r [claim_verified claim
                              (Room.verificationsRemaining r)
                              (Some true) None]
                end
          | _, _ =>
              let claim :=
                Claim.set_verdict (JBool (verify_locally r claim))
                  (Claim.verifiedOnChain claim)
                  (Claim.blockchainError claim) claim in
              let r := settle_verification r i claim in
              Done r [claim_verified claim (Room.verificationsRemaining r)
                        None None]
          end
      end
  end.

(** [attack_cell] is modelled in the four parts its comments mark off. *)

(** The attack record is pushed and the player found on the cell, if any,
    dies. *)
Definition strike (cell : JsVal) (hitPlayer : option (nat * Player.t))
    (r : Room.t) : Room.t :=
  let r :=
    Room.set_attacks
      (Room.attacks r
         ++ [Attack.mk cell (Room.turn r) (Room.currentRound r)
               (bool_decide (is_Some hitPlayer))
               (hitPlayer ≫= λ h, or_null (Player.name h.2))])%list r in
  match hitPlayer with
  | Some (j, _) =>
      Room.set_players
        (alter (Player.set_position JNull) j (Room.players r)) r
  | None => r
  end.

(** "CALCULATE GOD'S POINTS", with [gh] the god history read there. *)
Definition god_points (godId : string) (hit : bool) (gh : GodHistory.t)
    (r : Room.t) : Room.t :=
  if hit then
    let godPoints :=
      POINTS.GOD_FINDS_MORTAL
      + (if GodHistory.hasPenalty gh
         then POINTS.GOD_PENALTY_HIT_BONUS else 0) in
    addScore r godId "god_find" godPoints (Room.currentRound r) (Room.turn r)
  else
    let r :=
      Room.set_godHistory
        (Some (GodHistory.mk (GodHistory.playerId gh)
                 (GodHistory.consecutiveRounds gh)
                 (GodHistory.hasPenalty gh)
                 (GodHistory.missedAttacks gh + 1))) r in
    if GodHistory.hasPenalty gh then
      addScore r godId "god_penalty_miss" POINTS.GOD_PENALTY_MISS
        (Room.currentRound r) (Room.turn r)
    else r.

(** "SURVIVAL POINTS (mortals alive at end of turn)": the [forEach] over a
    list of players, and its use on the mortals alive after the strike. *)
Definition survive_loop (l : list Player.t) (r : Room.t) : Room.t :=
  foldl (λ r m,
           addScore r (Player.id m) "survive_turn"
             POINTS.MORTAL_SURVIVES_TURN (Room.currentRound r) (Room.turn r))
        r l.

Definition survival_points (r : Room.t) : Room.t :=
  survive_loop (aliveMortals (Room.players r)) r.

(** "CHECK END OF ROUND" *)
Definition check_end_of_round (r : Room.t) : Outcome :=
  if bool_decide (length (aliveMortals (Room.players r)) = 0%nat) then
    handleEndOfRound (Room.set_roundWinner (Some god_wins) r) god_wins
  else if bool_decide (Room.turn r >= TURNS_PER_ROUND) then
    handleEndOfRound (Room.set_roundWinner (Some mortals_win) r) mortals_win
  else
    let r := Room.set_turn (Room.turn r + 1) r in
    let r := Room.set_phase claiming r in
    let r :=
      Room.set_verificationsRemaining (Room.verificationsRemaining r + 2) r in
    Done r [phase_changed claiming].

(** [attack_cell].  The god looked up by role exists, since the acting
    player has that role; the branch without one is the [TypeError] of
    [god.id].  A room without god history throws where the history is
    read, after the strike. *)
Definition attack_cell (sid : string) (cell : JsVal) (r : Room.t) : Outcome :=
  if bool_decide (Room.phase r ≠ deduction) then Done r [] else
  match find_player sid (Room.players r) with
  | None => Done r []
  | Some (_, player) =>
      if bool_decide (Player.role player ≠ Some god) then Done r [] else
      let hitPlayer :=
        list_find (λ p, Player.position p = cell) (Room.players r) in
      match find_god (Room.players r) with
      | None => Crash r []
      | Some (_, g) =>
          let r := strike cell hitPlayer r in
          match Room.godHistory r with
          | None => Crash r []
          | Some gh =>
              let r :=
                god_points (Player.id g) (bool_decide (is_Some hitPlayer))
                  gh r in
              let r := survival_points r in
              after_emitting
                [attack_result cell (bool_decide (is_Some hitPlayer))
                   (Player.name ∘ snd <$> hitPlayer)]
                (check_end_of_round r)
          end
      end
  end.

(** [god_choice] *)
Definition god_choice (sid choice : string) (pick : nat) (r : Room.t)
    : Outcome :=
  if bool_decide (Room.phase r ≠ round_transition) then Done r [] else
  match find_player sid (Room.players r) with
  | None => Done r [error "Only God can make this choice"]
  | Some (_, player) =>
      if bool_decide (Player.role player ≠ Some god) then
        Done r [error "Only God can make this choice"]
      else if bool_decide (choice = "stay") then
        match Room.godHistory r with
        | None => Crash r []
        | Some gh =>
            if negb (canStay gh) then
              Done r [error
                "Cannot stay as God for 3 consecutive rounds after missing"]
            else
              let r :=
                Room.set_godHistory
                  (Some (GodHistory.mk (GodHistory.playerId gh)
                           (GodHistory.consecutiveRounds gh + 1) true 0)) r in
              startNextRound r (Some (Player.id player)) pick
        end
      else if bool_decide (choice = "cede") then
        startNextRound r None pick
      else Done r []
  end.

(** The callback given to [setTimeout] by [handleEndOfRound]. *)
Definition auto_start (pick : nat) (r : Room.t) : Outcome :=
  if bool_decide (Room.phase r = round_transition) then
    startNextRound r None pick
  else Done r [].

(** [disconnect], on one room of the registry. *)
Definition disconnect (sid : string) (r : Room.t) : Outcome :=
  match find_player sid (Room.players r) with
  | None => Done r []
  | Some (playerIndex, _) =>
      let ps := delete playerIndex (Room.players r) in
      match ps with
      | [] => Deleted
      | p0 :: ps' =>
          let ps :=
            if bool_decide (Exists (λ p, Player.isHost p = true) ps) then ps
            else Player.set_isHost true p0 :: ps' in
          Done (Room.set_players ps r) [player_left]
      end
  end.

(** ** Commands *)

(** Everything that can act on an existing room: the socket events, with
    their payloads, and the two kinds of callback the handlers leave
    behind. *)
Inductive Command : Type :=
| Join_room (playerName : string)
| Toggle_ready
| Set_round_config (totalRounds : JsVal)
| Start_game (shuffled : list nat)
| Select_position (position : JsVal)
| Submit_claim (claimType : string) (claimValue : JsVal)
    (targetPlayerId : string) (zkProof : option ZkProof.t)
| Submit_claim_blockchain (claimId : string) (relay : Relay)
| Verify_claim (claimId : string) (relay : Relay)
| Attack_cell (cell : JsVal)
| God_choice (choice : string) (pick : nat)
| Disconnect
| Auto_start (pick : nat)
| Registration_settled (ok : bool).

(** A command of socket [sid] applied to its room. *)
Definition handle (cfg : Config) (sid : string) (cmd : Command) (r : Room.t)
    : Outcome :=
  match cmd with
  | Join_room playerName => join_room sid playerName r
  | Toggle_ready => toggle_ready sid r
  | Set_round_config totalRounds => set_round_config sid totalRounds r
  | Start_game shuffled => start_game sid shuffled r
  | Select_position position => select_position sid position r
  | Submit_claim claimType claimValue targetPlayerId zkProof =>
      submit_claim sid claimType claimValue targetPlayerId zkProof r
  | Submit_claim_blockchain claimId relay =>
      submit_claim_blockchain cfg claimId relay r
  | Verify_claim claimId relay => verify_claim cfg sid claimId relay r
  | Attack_cell cell => attack_cell sid cell r
  | God_choice choice pick => god_choice sid choice pick r
  | Disconnect => disconnect sid r
  | Auto_start pick => auto_start pick r
  | Registration_settled ok => registration_settled cfg ok r
  end.

(** A run of commands from several sockets; it stops at a crash or when
    the room is deleted. *)
Fixpoint run (cfg : Config) (cmds : list (string * Command)) (r : Room.t)
    : Outcome :=
  match cmds with
  | [] => Done r []
  | (sid, cmd) :: cmds' =>
      match handle cfg sid cmd r with
      | Done r' evs => after_emitting evs (run cfg cmds' r')
      | o => o
      end
  end.

(** ** Definitions used to state the properties *)

(** Row and column of a cell of the 3x3 grid, numbered 1..9 row by row,
    and orthogonal neighbourhood on it. *)
Definition grid_row (p : Z) : Z := (p - 1) / 3.
Definition grid_col (p : Z) : Z := (p - 1) mod 3.

Definition orthogonal (c t : Z) : Prop :=
  Z.abs (grid_row c - grid_row t) + Z.abs (grid_col c - grid_col t) = 1.

Definition cells : list Z := [1; 2; 3; 4; 5; 6; 7; 8; 9].

(** The integers up to [Number.MAX_SAFE_INTEGER] in size, [2^53 - 1]:
    each of them and each of their neighbours is a binary64 value. *)
Definition MAX_SAFE_INTEGER : Z := 9007199254740991.

Definition safe_integer (n : Z) : Prop :=
  - MAX_SAFE_INTEGER ≤ n ≤ MAX_SAFE_INTEGER.

(** The integer is a binary64 value, a number a client can send: rounding
    it gives the integer back. *)
Definition is_double (n : Z) : Prop := binary64 n 1 = n * 2 ^ 1074.

(** Two positions beyond the safe integers, both binary64 values:
    [3 * 2^52 + 4] and [2^53 + 2]. *)
Definition far_cell : Z := 13510798882111492.
Definition odd_cell : Z := 9007199254740994.

(** The quotient and the difference as the Standard Library's model of
    the IEEE 754 formats computes them, in the same units. *)
Definition reference_units (f : SpecFloat.spec_float) : option Z :=
  match f with
  | SpecFloat.S754_zero _ => Some 0
  | SpecFloat.S754_finite s m e =>
      Some ((if s then -1 else 1) * Z.pos m * 2 ^ (e + 1074))
  | _ => None
  end.

Definition reference_number (n : Z) : SpecFloat.spec_float :=
  SpecFloat.binary_normalize 53 1024 n 0 false.

Definition reference_quotient (n d : Z) : option Z :=
  reference_units
    (SpecFloat.SFdiv 53 1024 (reference_number n) (reference_number d)).

Definition reference_difference (n d : Z) : option Z :=
  reference_units
    (SpecFloat.SFsub 53 1024 (reference_number n) (reference_number d)).

Definition agrees_with_reference (n : Z) : bool :=
  bool_decide (reference_quotient n 3 = Some (binary64 n 3))
  && bool_decide (reference_difference n 1 = Some (binary64 (n - 1) 1)).

(** Binary64 integers around the grid, around [2^53], around [3 * 2^52]
    and further out, of both signs. *)
Definition reference_samples : list Z :=
  (((λ k, k - 20) <$> seqZ 0 41)
  ++ ((λ k, 2 ^ 53 - 20 + k) <$> seqZ 0 21)
  ++ ((λ k, 2 ^ 53 + 2 * k) <$> seqZ 0 40)
  ++ ((λ k, - (2 ^ 53 + 2 * k)) <$> seqZ 0 40)
  ++ ((λ k, 3 * 2 ^ 52 - 40 + 2 * k) <$> seqZ 0 40)
  ++ ((λ k, 2 ^ 54 + 4 * k) <$> seqZ 0 40)
  ++ [2 ^ 60; 2 ^ 60 + 2 ^ 10; 3 * 2 ^ 70; 5 * 2 ^ 300; - (7 * 2 ^ 500);
      2 ^ 1023])%list.


(** ** Example rooms *)

Definition local_only : Config :=
  {| USE_BLOCKCHAIN := false; RELAYER_CONFIGURED := false |}.

(** The room reached from [createRoom] by a list of commands. *)
Definition played (cmds : list (string * Command)) : Room.t :=
  let r0 := createRoom "ABC123" "h" "Hal" in
  match run local_only cmds r0 with
  | Done r _ | Crash r _ => r
  | Deleted => r0
  end.

(** Three players join the host [h], who starts the game and is drawn as
    the god. *)
Definition opening : list (string * Command) :=
  [ ("a", Join_room "Ann"); ("b", Join_room "Bob"); ("c", Join_room "Cy");
    ("h", Start_game [0; 1; 2; 3]%nat) ].

(** The mortals place themselves on cells 1, 2 and 3. *)
Definition placement : list (string * Command) :=
  [ ("a", Select_position (JNum 1)); ("b", Select_position (JNum 2));
    ("c", Select_position (JNum 3)) ].

(** The claims of a first turn. *)
Definition first_claims : list (string * Command) :=
  [ ("a", Submit_claim "row" (JNum 1) "a" None);
    ("b", Submit_claim "column" (JNum 2) "b" None);
    ("c", Submit_claim "adjacent" (JBool true) "b" None) ].

(** The rest of a round in which the god finds a mortal at every turn. *)
Definition clean_sweep : list (string * Command) :=
  [ ("h", Attack_cell (JNum 1));
    ("b", Submit_claim "row" (JNum 1) "b" None);
    ("c", Submit_claim "row" (JNum 1) "c" None);
    ("h", Attack_cell (JNum 2));
    ("c", Submit_claim "column" (JNum 3) "c" None);
    ("h", Attack_cell (JNum 3)) ].

Definition full_round : list (string * Command) :=
  (placement ++ first_claims ++ clean_sweep)%list.

Definition setup_room : Room.t := played opening.

Definition claiming_room : Room.t := played (opening ++ placement)%list.

Definition deduction_room : Room.t :=
  played (opening ++ placement ++ first_claims)%list.

(** Deduction phase of a first round in which [a] stands on [far_cell]
    and [b] has claimed that [a] is in row [2^52 + 1]. *)
Definition far_room : Room.t :=
  played (opening
            ++ [ ("a", Select_position (JNum far_cell));
                 ("b", Select_position (JNum 2));
                 ("c", Select_position (JNum 3));
                 ("a", Submit_claim "row" (JNum 1) "a" None);
                 ("b", Submit_claim "row" (JNum 4503599627370497) "a" None);
                 ("c", Submit_claim "column" (JNum 3) "c" None) ])%list.

(** After a first round won by the god without a miss. *)
Definition transition_room : Room.t := played (opening ++ full_round)%list.

(** After three rounds, the god staying twice. *)
Definition ended_room : Room.t :=
  played (opening ++ full_round ++ [("h", God_choice "stay" 0%nat)]
            ++ full_round ++ [("h", God_choice "stay" 0%nat)]
            ++ full_round)%list.

(** The total of a player's score, 0 for a player without score entry. *)
Definition total_of (r : Room.t) (playerId : string) : Z :=
  default 0 (PlayerScore.total <$> Room.scores r !! playerId).

(** Whether some player stands on the cell: the attack's [hit] flag. *)
Definition occupied (cell : JsVal) (ps : list Player.t) : bool :=
  bool_decide (Exists (λ q, Player.position q = cell) ps).

(** The god's points for an attack. *)
Definition god_gain (hit penalty : bool) : Z :=
  if hit then 40 + (if penalty then 15 else 0)
  else if penalty then -20 else 0.

(** The god history that [start_game] installs for the host. *)
Definition first_reign : GodHistory.t := GodHistory.mk "h" 1 false 0.

(** The host of the example rooms, who is their god. *)
Definition hal : Player.t := Player.mk "h" "Hal" (Some god) JNull true false.


(** A round of three turns in which the god misses every time. *)
Definition missed_round : list (string * Command) :=
  (placement ++ first_claims
   ++ [ ("h", Attack_cell (JNum 9));
        ("a", Submit_claim "column" (JNum 1) "a" None);
        ("b", Submit_claim "row" (JNum 1) "b" None);
        ("c", Submit_claim "row" (JNum 1) "c" None);
        ("h", Attack_cell (JNum 9));
        ("a", Submit_claim "row" (JNum 2) "a" None);
        ("b", Submit_claim "row" (JNum 2) "b" None);
        ("c", Submit_claim "row" (JNum 2) "c" None);
        ("h", Attack_cell (JNum 9)) ])%list.

(** After a first round that the mortals survived. *)
Definition stalemate_room : Room.t := played (opening ++ missed_round)%list.

(** The target test of [submit_claim]: the id names a player whose role is
    mortal.  The position plays no part in it. *)
Definition targets_mortal (targetPlayerId : string) (ps : list Player.t)
    : bool :=
  match find_player targetPlayerId ps with
  | Some (_, t) => bool_decide (Player.role t = Some mortal)
  | None => false
  end.

(** The claim has the given target, type and value. *)
Definition same_claim (targetPlayerId claimType : string)
    (claimValue : JsVal) (c : Claim.t) : Prop :=
  Claim.targetPlayerId c = targetPlayerId
  ∧ Claim.claimType c = claimType
  ∧ Claim.claimValue c = claimValue.

(** The checks of [submit_claim] that come before the target is looked
    at: the phase, the claimant's role and liveness, one claim per turn. *)
Definition may_claim (sid : string) (r : Room.t) : Prop :=
  Room.phase r = claiming
  ∧ (∃ i p, find_player sid (Room.players r) = Some (i, p)
            ∧ Player.role p = Some mortal
            ∧ Player.position p ≠ JNull)
  ∧ ¬ Exists (λ c, Claim.playerId c = sid ∧ Claim.turn c = Room.turn r)
        (Room.claims r).

(** Second turn of the first round after a miss: everybody is alive and
    the claims of the first turn are still in the room. *)
Definition second_turn_room : Room.t :=
  played (opening ++ placement ++ first_claims
            ++ [("h", Attack_cell (JNum 9))])%list.

(** Second turn of the first round after the god found [b] on cell 2. *)
Definition bereft_room : Room.t :=
  played (opening ++ placement ++ first_claims
            ++ [("h", Attack_cell (JNum 2))])%list.



(** Only mortals stand on the grid. *)
Definition only_mortals_placed (ps : list Player.t) : Prop :=
  ∀ q, q ∈ ps → Player.position q ≠ JNull → Player.role q = Some mortal.

(** Setup of the first round once [a] has chosen cell 1. *)
Definition half_placed_room : Room.t :=
  played (opening ++ [("a", Select_position (JNum 1))])%list.

(** Only mortals stand on the grid, and in the lobby nobody does. *)
Definition placement_sound (r : Room.t) : Prop :=
  only_mortals_placed (Room.players r)
  ∧ (Room.phase r = lobby →
     Forall (λ q, Player.position q = JNull) (Room.players r)).

(** The rooms reached from a new room by commands, start_game being
    issued in the lobby only. *)
Inductive by_the_book (cfg : Config) : Room.t → Prop :=
| book_created code hostId hostName :
    by_the_book cfg (createRoom code hostId hostName)
| book_step r sid cmd r' evs :
    by_the_book cfg r →
    (∀ shuffled, cmd = Start_game shuffled → Room.phase r = lobby) →
    handle cfg sid cmd r = Done r' evs →
    by_the_book cfg r'.

(** The stalemate room once the three mortals have left. *)
Definition deserted_room : Room.t :=
  played (opening ++ missed_round
            ++ [("a", Disconnect); ("b", Disconnect); ("c", Disconnect)])%list.

(** Every player of the room has a score entry. *)
Definition scores_cover_players (r : Room.t) : Prop :=
  ∀ q, q ∈ Room.players r → is_Some (Room.scores r !! Player.id q).

(** ** Room codes and session ids (src/index.js) *)

(** The alphabet of [generateRoomCode]. *)
Definition CODE_CHARS : string := "ABCDEFGHJKLMNPQRSTUVWXYZ23456789".

(** [s.charAt(k)]: the empty string past the end. *)
Definition charAt (s : string) (k : nat) : string :=
  match String.get k s with
  | Some c => String c ""
  | None => ""
  end.

(** The loop of [generateRoomCode] from turn [i], [n] turns to go.
    [random i] stands for [Math.random() * chars.length] rounded down at
    turn [i]; any natural number is taken below [chars.length]. *)
Fixpoint code_loop (random : nat → nat) (i n : nat) (code : string)
    : string :=
  match n with
  | O => code
  | S n' =>
      code_loop random (S i) n'
        (code +:+ charAt CODE_CHARS
                    (random i mod String.length CODE_CHARS)%nat)
  end.

Definition generateRoomCode (random : nat → nat) : string :=
  code_loop random 0 6 "".

(** [ToUint32], the effect of [>>> 0]. *)
Definition to_uint32 (z : Z) : Z := z mod 2 ^ 32.

(** The loop of [hashRoomCodeToSessionId]:
    [hash = ((hash << 5) - hash + roomCode.charCodeAt(i)) >>> 0]. *)
Fixpoint hash_chars_unsigned (hash : Z) (s : string) : Z :=
  match s with
  | EmptyString => hash
  | String c s' =>
      let char := Z.of_N (Ascii.N_of_ascii c) in
      hash_chars_unsigned
        (to_uint32 (to_int32 (to_int32 hash * 32) - hash + char)) s'
  end.

Definition hashRoomCodeToSessionId (roomCode : string) : Z :=
  hash_chars_unsigned 0 roomCode.

(** [toUpperCase] on the strings of the model, which hold ASCII. *)
Definition upper_ascii (c : Ascii.ascii) : Ascii.ascii :=
  let n := Ascii.nat_of_ascii c in
  if (97 <=? n)%nat && (n <=? 122)%nat then Ascii.ascii_of_nat (n - 32)
  else c.

Fixpoint toUpperCase (s : string) : string :=
  match s with
  | EmptyString => EmptyString
  | String c s' => String (upper_ascii c) (toUpperCase s')
  end.

(** ** The relayer module: proof encoding (src/shared/constants.js) *)

(** The loop of [decimalToBytes32], [k] turns to go: the turn with index
    [k - 1] stores the low byte of [num] there and shifts [num]. *)
Fixpoint fill_bytes (k : nat) (bytes : list Z) (num : Z) : list Z :=
  match k with
  | O => bytes
  | S i => fill_bytes i (<[i := Z.land num 255]> bytes) (Z.shiftr num 8)
  end.

(** [decimalToBytes32]; the argument is the value of [BigInt(decimal)]. *)
Definition decimalToBytes32 (num : Z) : list Z :=
  fill_bytes 32 (replicate 32 0) num.

(** [bytes.set(src, offset)] on a typed array that [src] fits in. *)
Fixpoint set_at (src : list Z) (offset : nat) (bytes : list Z) : list Z :=
  match src with
  | [] => bytes
  | b :: src' => set_at src' (S offset) (<[offset := b]> bytes)
  end.

(** The points of a snarkjs proof, with the coordinates the encoders read:
    [point[0]] and [point[1]] of a G1 point, and of a G2 point the pairs
    [point[0]] and [point[1]], each a real part followed by an imaginary
    part. *)
Definition G1 : Type := Z * Z.
Definition G2 : Type := (Z * Z) * (Z * Z).

Definition g1PointToBytes (point : G1) : list Z :=
  let x := decimalToBytes32 point.1 in
  let y := decimalToBytes32 point.2 in
  set_at y 32 (set_at x 0 (replicate 64 0)).

Definition g2PointToBytes (point : G2) : list Z :=
  let xReal := decimalToBytes32 point.1.1 in
  let xImag := decimalToBytes32 point.1.2 in
  let yReal := decimalToBytes32 point.2.1 in
  let yImag := decimalToBytes32 point.2.2 in
  set_at yReal 96
    (set_at yImag 64 (set_at xReal 32 (set_at xImag 0 (replicate 128 0)))).

Module SnarkProof.
Record t : Type := mk {
  pi_a : G1;
  pi_b : G2;
  pi_c : G1 }.
End SnarkProof.

Module ContractProof.
Record t : Type := mk {
  a : list Z;
  b : list Z;
  c : list Z }.
End ContractProof.

Definition convertSnarkjsProofToContract (proof : SnarkProof.t)
    : ContractProof.t :=
  ContractProof.mk (g1PointToBytes (SnarkProof.pi_a proof))
    (g2PointToBytes (SnarkProof.pi_b proof))
    (g1PointToBytes (SnarkProof.pi_c proof)).

(** The conversion of a claim value for the circuit, in
    [submit_claim_blockchain] and [verify_claim]: [claimValue - 1] for
    the row and column types, the value itself otherwise.  [None] stands
    for NaN. *)
Definition claimValueForCircuit (claimType : string) (claimValue : JsVal)
    : option JsVal :=
  if bool_decide (claimType = "row") || bool_decide (claimType = "column")
  then (λ n, JNum (minus_one n)) <$> toNumber claimValue
  else Some claimValue.

(** ** Definitions used to state the further properties *)

(** The base-31 polynomial of the character codes. *)
Fixpoint poly31 (hash : Z) (s : string) : Z :=
  match s with
  | EmptyString => hash
  | String c s' => poly31 (31 * hash + Z.of_N (Ascii.N_of_ascii c)) s'
  end.

(** The number a list of bytes spells, most significant byte first. *)
Definition be_value (bytes : list Z) : Z :=
  foldl (λ acc b, acc * 256 + b) 0 bytes.

(** The bytes of a number, least significant first. *)
Fixpoint low_bytes (n : nat) (num : Z) : list Z :=
  match n with
  | O => []
  | S n' => Z.land num 255 :: low_bytes n' (Z.shiftr num 8)
  end.

(** Readers of the encoded points. *)
Definition g1_decode (bytes : list Z) : G1 :=
  (be_value (take 32 bytes), be_value (take 32 (drop 32 bytes))).

Definition g2_decode (bytes : list Z) : G2 :=
  ((be_value (take 32 (drop 32 bytes)), be_value (take 32 bytes)),
   (be_value (take 32 (drop 96 bytes)),
    be_value (take 32 (drop 64 bytes)))).

Definition proof_decode (p : ContractProof.t) : SnarkProof.t :=
  SnarkProof.mk (g1_decode (ContractProof.a p))
    (g2_decode (ContractProof.b p)) (g1_decode (ContractProof.c p)).

(** A coordinate that fits in 32 bytes. *)
Definition fits (z : Z) : Prop := 0 ≤ z < 2 ^ 256.

Definition g1_fits (p : G1) : Prop := fits p.1 ∧ fits p.2.
Definition g2_fits (p : G2) : Prop :=
  (fits p.1.1 ∧ fits p.1.2) ∧ fits p.2.1 ∧ fits p.2.2.

(** A character of the alphabet of room codes; such a character is its
    own upper case and has a code between 50 and 90. *)
Definition code_char (c : Ascii.ascii) : Prop :=
  c ∈ String.list_ascii_of_string CODE_CHARS.

(** A proof with small coordinates and one close to the bound. *)
Definition sample_proof : SnarkProof.t :=
  SnarkProof.mk (1, 2) ((3, 4), (5, 6)) (7, 2 ^ 255).

(** The rooms reached from a new room by commands. *)
Inductive reachable (cfg : Config) : Room.t → Prop :=
| reach_created code hostId hostName :
    reachable cfg (createRoom code hostId hostName)
| reach_step r sid cmd r' evs :
    reachable cfg r →
    handle cfg sid cmd r = Done r' evs →
    reachable cfg r'.

(** Whether a script runs through from the example room. *)
Definition runs_through (cmds : list (string * Command)) : bool :=
  match run local_only cmds (createRoom "ABC123" "h" "Hal") with
  | Done _ _ => true
  | _ => false
  end.

(** Whether a script runs through with [Start_game] issued in the lobby
    only. *)
Fixpoint runs_by_the_book (cfg : Config) (cmds : list (string * Command))
    (r : Room.t) : bool :=
  match cmds with
  | [] => true
  | (sid, cmd) :: cmds' =>
      match cmd with
      | Start_game _ => bool_decide (Room.phase r = lobby)
      | _ => true
      end
      && match handle cfg sid cmd r with
         | Done r' _ => runs_by_the_book cfg cmds' r'
         | _ => false
         end
  end.

(** The players flagged as host. *)
Definition hosts (ps : list Player.t) : list Player.t :=
  filter (λ p, Player.isHost p = true) ps.

(** The cells players stand on. *)
Definition held_cells (ps : list Player.t) : list JsVal :=
  filter (λ v, v ≠ JNull) (Player.position <$> ps).

(** The sum of the points of a breakdown. *)
Definition sum_points (l : list ScoreEntry.t) : Z :=
  foldr (λ e acc, ScoreEntry.points e + acc) 0 l.

(** Every score entry is filed under its player's id and its total is the
    sum of its breakdown. *)
Definition scores_balanced (r : Room.t) : Prop :=
  ∀ k s, Room.scores r !! k = Some s →
    PlayerScore.playerId s = k
    ∧ PlayerScore.total s = sum_points (PlayerScore.breakdown s).

(** What identifies a claim to the duplicate test, and to the test of one
    claim per turn. *)
Definition claim_triple (c : Claim.t) : string * string * JsVal :=
  (Claim.targetPlayerId c, Claim.claimType c, Claim.claimValue c).

Definition claim_slot (c : Claim.t) : string * Z :=
  (Claim.playerId c, Claim.turn c).

(** The counters of a room are in range. *)
Definition counters_in_range (r : Room.t) : Prop :=
  Room.totalRounds r ∈ ROUND_OPTIONS
  ∧ 1 ≤ Room.currentRound r ≤ Room.totalRounds r
  ∧ 0 ≤ Room.turn r ≤ TURNS_PER_ROUND
  ∧ (Room.phase r = lobby → Room.currentRound r = 1 ∧ Room.turn r = 0)
  ∧ (Room.phase r ≠ lobby → 1 ≤ Room.turn r)
  ∧ (Room.phase r = round_transition →
     Room.currentRound r < Room.totalRounds r).

(** The moves of the phase machine, each with the command that makes
    it. *)
Inductive phase_move : Command → Phase → Phase → Prop :=
| move_none cmd p : phase_move cmd p p
| move_start shuffled p : phase_move (Start_game shuffled) p setup
| move_placed position : phase_move (Select_position position) setup claiming
| move_claimed claimType claimValue targetPlayerId zkProof :
    phase_move (Submit_claim claimType claimValue targetPlayerId zkProof)
      claiming deduction
| move_next_turn cell : phase_move (Attack_cell cell) deduction claiming
| move_round_over cell :
    phase_move (Attack_cell cell) deduction round_transition
| move_game_over cell : phase_move (Attack_cell cell) deduction ended
| move_god_choice choice pick :
    phase_move (God_choice choice pick) round_transition setup
| move_auto_start pick : phase_move (Auto_start pick) round_transition setup.

(** What join_room and disconnect alone decide about the players: who is
    in the room, under which name, and who is host. *)
Definition roster (r : Room.t) : list (string * string * bool) :=
  (λ p, (Player.id p, Player.name p, Player.isHost p)) <$> Room.players r.

(** A list of positions after some of them were cleared. *)
Definition dimmed (l l' : list JsVal) : Prop :=
  Forall2 (λ a b, b = a ∨ b = JNull) l l'.

(** [Object.values(room.scores)]: the score entries in insertion order. *)
Definition score_entries (r : Room.t) : list PlayerScore.t :=
  omap (λ k, Room.scores r !! k) (Room.scoreKeys r).

(** The first score is not below the second. *)
Definition outranks (a b : PlayerScore.t) : Prop :=
  PlayerScore.total b ≤ PlayerScore.total a.

(** The points a verification adds to the total of player [k]: the bonus
    of a self-claim judged true, for the claimant, if the claimant has a
    score entry. *)
Definition verification_award (r : Room.t) (c : Claim.t) (k : string) : Z :=
  if truthy (Claim.isTrue c) && Claim.isSelfClaim c
     && bool_decide (Claim.playerId c = k)
     && bool_decide (is_Some (Room.scores r !! k))
  then POINTS.TRUE_SELF_CLAIM else 0.

(** After the first turn of the second round, the god [h] having stayed. *)
Definition second_round_room : Room.t :=
  played (opening ++ full_round ++ [("h", God_choice "stay" 0%nat)])%list.

(** ** The room registry (src/index.js) *)

(** [rooms] is a [Map] from room code to room object.  The rooms are
    objects on the heap: [objects] holds every room created so far, a
    [Map] entry refers to one by its index, and the callbacks a handler
    leaves behind (the timer of [handleEndOfRound], the settlement of
    [startGameRelayed]) keep their room even when the entry is gone.
    [rooms] lists the entries in insertion order, the order in which
    [rooms.entries()] iterates. *)
Module Server.
Record t : Type := mk {
  objects : list Room.t;
  rooms : list (string * nat) }.
End Server.

(** [Map.get], [Map.set] and [Map.delete]; [set] keeps the place of a key
    that is present. *)
Fixpoint map_get (k : string) (m : list (string * nat)) : option nat :=
  match m with
  | [] => None
  | (k', v) :: m' => if bool_decide (k' = k) then Some v else map_get k m'
  end.

Fixpoint map_set (k : string) (v : nat) (m : list (string * nat))
    : list (string * nat) :=
  match m with
  | [] => [(k, v)]
  | (k', v') :: m' =>
      if bool_decide (k' = k) then (k, v) :: m' else (k', v') :: map_set k v m'
  end.

Fixpoint map_delete (k : string) (m : list (string * nat))
    : list (string * nat) :=
  match m with
  | [] => []
  | (k', v') :: m' =>
      if bool_decide (k' = k) then m' else (k', v') :: map_delete k m'
  end.

(** The socket events that carry a room code, with the rest of their
    payload. *)
Inductive RoomEvent : Type :=
| On_join_room (playerName : string)
| On_toggle_ready
| On_set_round_config (totalRounds : JsVal)
| On_start_game (shuffled : list nat)
| On_select_position (position : JsVal)
| On_submit_claim (claimType : string) (claimValue : JsVal)
    (targetPlayerId : string) (zkProof : option ZkProof.t)
| On_submit_claim_blockchain (claimId : string) (relay : Relay)
| On_verify_claim (claimId : string) (relay : Relay)
| On_attack_cell (cell : JsVal)
| On_god_choice (choice : string) (pick : nat).

Definition command_of (ev : RoomEvent) : Command :=
  match ev with
  | On_join_room playerName => Join_room playerName
  | On_toggle_ready => Toggle_ready
  | On_set_round_config totalRounds => Set_round_config totalRounds
  | On_start_game shuffled => Start_game shuffled
  | On_select_position position => Select_position position
  | On_submit_claim claimType claimValue targetPlayerId zkProof =>
      Submit_claim claimType claimValue targetPlayerId zkProof
  | On_submit_claim_blockchain claimId relay =>
      Submit_claim_blockchain claimId relay
  | On_verify_claim claimId relay => Verify_claim claimId relay
  | On_attack_cell cell => Attack_cell cell
  | On_god_choice choice pick => God_choice choice pick
  end.

(** The key a handler looks its room up under: [join_room] takes the
    upper case of the code it is given, the other handlers the code as it
    is. *)
Definition lookup_key (roomCode : string) (ev : RoomEvent) : string :=
  match ev with
  | On_join_room _ => toUpperCase roomCode
  | _ => roomCode
  end.

(** What a handler emits when no room is found. *)
Definition room_missing (cfg : Config) (ev : RoomEvent) : list Event :=
  match ev with
  | On_join_room _ => [error "Room not found"]
  | On_submit_claim_blockchain claimId _ =>
      if negb (USE_BLOCKCHAIN cfg) || negb (RELAYER_CONFIGURED cfg) then
        [blockchain_result false
           (Some "Blockchain not enabled or relayer not configured") claimId]
      else [blockchain_result false (Some "Room not found") claimId]
  | _ => []
  end.

(** What reaches the server: the socket events, and the callbacks, which
    act on the room object they were created for. *)
Inductive Message : Type :=
| Create_room (playerName : string) (random : nat → nat)
| To_room (roomCode : string) (ev : RoomEvent)
| Socket_disconnect
| Timer_fired (room : nat) (pick : nat)
| Registration_done (room : nat) (ok : bool).

(** What the server emits: [room_created] to the caller, or an event of
    a room handler. *)
Inductive Notice : Type :=
| room_created (roomCode : string)
| in_room (e : Event).

(** The server after a message, or after the exception a handler threw. *)
Inductive Delivery : Type :=
| Delivered (s : Server.t) (ns : list Notice)
| Thrown (s : Server.t) (ns : list Notice).

(** The room object [id] as a handler left it. *)
Definition store (id : nat) (r : Room.t) (s : Server.t) : Server.t :=
  Server.mk (<[id:=r]> (Server.objects s)) (Server.rooms s).

(** A handler that ran on the room object [id]. *)
Definition settled (id : nat) (o : Outcome) (s : Server.t) : Delivery :=
  match o with
  | Done r' evs => Delivered (store id r' s) (in_room <$> evs)
  | Crash r' evs => Thrown (store id r' s) (in_room <$> evs)
  | Deleted => Delivered s []
  end.

(** The loop of [disconnect] over the entries of [rooms]: the socket is
    taken out of every room that has it, and a room left empty is taken
    out of the registry. *)
Fixpoint disconnect_all (sid : string) (entries : list (string * nat))
    (s : Server.t) : Server.t * list Notice :=
  match entries with
  | [] => (s, [])
  | (code, id) :: entries' =>
      match Server.objects s !! id with
      | None => disconnect_all sid entries' s
      | Some r =>
          match disconnect sid r with
          | Done r' evs | Crash r' evs =>
              let '(s', ns) := disconnect_all sid entries' (store id r' s) in
              (s', ((in_room <$> evs) ++ ns)%list)
          | Deleted =>
              disconnect_all sid entries'
                (Server.mk
                   (<[id:=Room.set_players [] r]> (Server.objects s))
                   (map_delete code (Server.rooms s)))
          end
      end
  end.

(** The server's reaction to a message of socket [sid]. *)
Definition deliver (cfg : Config) (sid : string) (msg : Message)
    (s : Server.t) : Delivery :=
  match msg with
  | Create_room playerName random =>
      let room := createRoom (generateRoomCode random) sid playerName in
      Delivered
        (Server.mk (Server.objects s ++ [room])%list
           (map_set (Room.code room) (length (Server.objects s))
              (Server.rooms s)))
        [room_created (Room.code room)]
  | To_room roomCode ev =>
      match map_get (lookup_key roomCode ev) (Server.rooms s)
            ≫= λ id, (id,.) <$> Server.objects s !! id with
      | None => Delivered s (in_room <$> room_missing cfg ev)
      | Some (id, r) => settled id (handle cfg sid (command_of ev) r) s
      end
  | Socket_disconnect =>
      let '(s', ns) := disconnect_all sid (Server.rooms s) s in
      Delivered s' ns
  | Timer_fired id pick =>
      match Server.objects s !! id with
      | None => Delivered s []
      | Some r => settled id (auto_start pick r) s
      end
  | Registration_done id ok =>
      match Server.objects s !! id with
      | None => Delivered s []
      | Some r => settled id (registration_settled cfg ok r) s
      end
  end.

(** The states of the server, from the start with no room. *)
Inductive serving (cfg : Config) : Server.t → Prop :=
| serving_start : serving cfg (Server.mk [] [])
| serving_step s sid msg s' ns :
    serving cfg s →
    deliver cfg sid msg s = Delivered s' ns →
    serving cfg s'.

(** The room a code is registered for. *)
Definition room_of (s : Server.t) (code : string) : option Room.t :=
  map_get code (Server.rooms s) ≫= λ id, Server.objects s !! id.

(** Every entry of the registry has its own room object, filed under the
    code of that room, which is in upper case, and the room is one
    reached by commands. *)
Definition registry_sound (cfg : Config) (s : Server.t) : Prop :=
  NoDup (fst <$> Server.rooms s)
  ∧ NoDup (snd <$> Server.rooms s)
  ∧ ∀ code id, (code, id) ∈ Server.rooms s →
      toUpperCase code = code
      ∧ ∃ r, Server.objects s !! id = Some r
             ∧ Room.code r = code
             ∧ reachable cfg r.

(** A run of messages; it stops at an exception. *)
Fixpoint serve (cfg : Config) (msgs : list (string * Message))
    (s : Server.t) : Delivery :=
  match msgs with
  | [] => Delivered s []
  | (sid, msg) :: msgs' =>
      match deliver cfg sid msg s with
      | Delivered s' ns =>
          match serve cfg msgs' s' with
          | Delivered s'' ns' => Delivered s'' (ns ++ ns')%list
          | Thrown s'' ns' => Thrown s'' (ns ++ ns')%list
          end
      | t => t
      end
  end.

(** The server after a run of messages from the start. *)
Definition served (msgs : list (string * Message)) : Server.t :=
  match serve local_only msgs (Server.mk [] []) with
  | Delivered s _ | Thrown s _ => s
  end.

Definition serves_through (msgs : list (string * Message)) : bool :=
  match serve local_only msgs (Server.mk [] []) with
  | Delivered _ _ => true
  | Thrown _ _ => false
  end.

(** A server with one room, AAAAAA, whose host was joined by a player
    who spelled the code in lower case. *)
Definition lobby_server : Server.t :=
  served [ ("h", Create_room "Hal" (λ _, 0%nat));
           ("a", To_room "aaaaaa" (On_join_room "Ann")) ].

(** What [disconnect] leaves of a room, if anything. *)
Definition without (sid : string) (r : Room.t) : option Room.t :=
  match disconnect sid r with
  | Done r' _ => Some r'
  | _ => None
  end.

(** The lobby server with a second room, left by its only player. *)
Definition emptied_server : Server.t :=
  served [ ("h", Create_room "Hal" (λ _, 0%nat));
           ("a", To_room "aaaaaa" (On_join_room "Ann"));
           ("x", Create_room "Xi" (λ _, 1%nat));
           ("x", Socket_disconnect) ].

(** A room with a god has a god history. *)
Definition god_has_history (r : Room.t) : Prop :=
  is_Some (find_god (Room.players r)) → is_Some (Room.godHistory r).

(** Nobody can take the god role over: the room has no god to replace, or
    it has no living mortal and no player whose id differs from the
    god's. *)
Definition no_successor (ps : list Player.t) : Prop :=
  match find_god ps with
  | None => True
  | Some (_, g) =>
      Forall (λ p, ¬ alive_mortal p ∧ Player.id p = Player.id g) ps
  end.

(** Whether the list names four players of the room, as a shuffled copy
    of the players of a full room does. *)
Definition names_four (shuffled : list nat) (ps : list Player.t) : Prop :=
  ∃ i0 i1 i2 i3 rest,
    shuffled = i0 :: i1 :: i2 :: i3 :: rest
    ∧ is_Some (ps !! i0) ∧ is_Some (ps !! i1)
    ∧ is_Some (ps !! i2) ∧ is_Some (ps !! i3).

(** The stalemate room once the god has left. *)
Definition godless_room : Room.t :=
  played (opening ++ missed_round ++ [("h", Disconnect)])%list.

(** * Properties *)

(** Decide the equalities between closed terms in the goal. *)
Ltac decide_closed :=
  repeat match goal with
  | |- context [bool_decide (?a = ?b)] =>
      first [ rewrite (bool_decide_eq_true_2 (a = b)) by reflexivity
            | rewrite (bool_decide_eq_false_2 (a = b)) by discriminate ]
  | |- context [bool_decide (?a ≠ ?b)] =>
      first [ rewrite (bool_decide_eq_true_2 (a ≠ b)) by discriminate
            | rewrite (bool_decide_eq_false_2 (a ≠ b))
                by (intros ?; congruence) ]
  end.

(** Exhibit the outcome of a handler that has been reduced to [Done]. *)
Ltac exhibit :=
  eexists _, _; split; [reflexivity|]; cbn; split_and?; try done.

(** ** Local claim verification *)

(** *** The rounding of the two operations *)

Lemma round_half_even_exact n d :
  0 < d → (d | n) → round_half_even n d * d = n.
Proof.
  intros Hd [k ->]. unfold round_half_even.
  rewrite Z.mod_mul, Z.div_mul by lia.
  by rewrite (proj2 (Z.ltb_lt _ _)) by lia.
Qed.

Lemma round_half_even_near n d :
  0 < d → 2 * Z.abs (round_half_even n d * d - n) ≤ d.
Proof.
  intros Hd. unfold round_half_even.
  pose proof (Z.div_mod n d ltac:(lia)) as Hn.
  pose proof (Z.mod_pos_bound n d Hd) as Hr.
  set (q := n / d) in *. set (r := n mod d) in *.
  destruct (Z.ltb_spec (2 * r) d); [nia|].
  destruct (Z.ltb_spec d (2 * r)); [nia|].
  destruct (Z.even q); nia.
Qed.

(** A quotient below [2^(k+1)] units is rounded on a grid of step
    [2^(k-52)] units or finer. *)
Lemma shift_bound x k :
  0 ≤ x < 2 ^ (k + 1) → 52 ≤ k → 0 ≤ Z.max 0 (Z.log2 x - 52) ≤ k - 52.
Proof.
  intros [H0 Hx] Hk. split; [lia|].
  destruct (decide (x = 0)) as [->|Hne]; [cbn; lia|].
  assert (Z.log2 x < k + 1) by (apply Z.log2_lt_pow2; lia). lia.
Qed.

Lemma pow2_divide a b : 0 ≤ a ≤ b → (2 ^ a | 2 ^ b).
Proof.
  intros H. exists (2 ^ (b - a)). rewrite <-Z.pow_add_r by lia.
  f_equal. lia.
Qed.

Lemma Math_ceil_spec x :
  (Math_ceil x - 1) * 2 ^ 1074 < x ≤ Math_ceil x * 2 ^ 1074.
Proof.
  unfold Math_ceil.
  assert (0 < 2 ^ 1074) as HP by (by apply Z.pow_pos_nonneg).
  pose proof (Z.div_mod (- x) (2 ^ 1074) ltac:(lia)).
  pose proof (Z.mod_pos_bound (- x) (2 ^ 1074) HP).
  set (P := 2 ^ 1074) in *. clearbody P. nia.
Qed.

(** Every integer up to [2^53] in size is a binary64 value. *)
Lemma binary64_integer z :
  Z.abs z ≤ 2 ^ 53 → binary64 z 1 = z * 2 ^ 1074.
Proof.
  intros Hz. unfold binary64. rewrite Z.div_1_r, Z.mul_1_l.
  set (s := Z.max 0 (Z.log2 (Z.abs z * 2 ^ 1074) - 52)).
  assert (0 < 2 ^ 1074) as HP by (by apply Z.pow_pos_nonneg).
  assert (0 ≤ s ∧ (2 ^ s | Z.abs z * 2 ^ 1074)) as [Hs Hdiv].
  { destruct (decide (Z.abs z = 2 ^ 53)) as [E|E].
    - assert (Z.abs z * 2 ^ 1074 = 2 ^ 1127) as Ea
        by (rewrite E, <-Z.pow_add_r by lia; done).
      unfold s. rewrite Ea, Z.log2_pow2 by lia.
      split; [lia|]. apply pow2_divide. lia.
    - assert (0 ≤ s ≤ 1126 - 52) as Hs.
      { apply shift_bound; [|lia]. split; [lia|].
        replace (1126 + 1) with (53 + 1074) by lia.
        rewrite Z.pow_add_r by lia. apply Z.mul_lt_mono_pos_r; lia. }
      split; [lia|]. apply Z.divide_mul_r, pow2_divide. lia. }
  rewrite round_half_even_exact; [lia| |done].
  by apply Z.pow_pos_nonneg.
Qed.

(** Up to [2^53] in size the difference [n - 1] is exact. *)
Lemma minus_one_exact n : Z.abs (n - 1) ≤ 2 ^ 53 → minus_one n = n - 1.
Proof.
  intros H. unfold minus_one. rewrite binary64_integer by done.
  apply Z.div_mul. by apply Z.pow_nonzero.
Qed.

(** Below [3 * 2^52] in size the rounding of [n / 3] does not reach the
    next integer: the ceiling is that of the exact quotient, the least
    [k] with [n <= 3k]. *)
Lemma ceil_div3_exact n :
  Z.abs n < 3 * 2 ^ 52 → 3 * (ceil_div3 n - 1) < n ≤ 3 * ceil_div3 n.
Proof.
  intros Hn. unfold ceil_div3.
  pose proof (Math_ceil_spec (binary64 n 3)) as Hc.
  set (c := Math_ceil (binary64 n 3)) in *. clearbody c.
  unfold binary64 in Hc.
  set (a := Z.abs n * 2 ^ 1074) in *.
  set (s := Z.max 0 (Z.log2 (a / 3) - 52)) in *.
  assert (0 < 2 ^ 1072) as HR by (by apply Z.pow_pos_nonneg).
  assert (2 ^ 1074 = 4 * 2 ^ 1072) as HP
    by (by rewrite (Z.pow_add_r 2 2 1072 ltac:(lia) ltac:(lia)
                    : 2 ^ 1074 = _)).
  assert (0 ≤ s ≤ 1073) as Hs.
  { change 1073 with (1125 - 52). apply shift_bound; [|lia].
    split; [apply Z.div_pos; lia|].
    apply Z.div_lt_upper_bound; [lia|].
    replace (1125 + 1) with (52 + 1074) by lia.
    rewrite Z.pow_add_r, Z.mul_assoc by lia. unfold a.
    apply Z.mul_lt_mono_pos_r; lia. }
  assert (0 < 2 ^ s) as Hps by (apply Z.pow_pos_nonneg; lia).
  pose proof (round_half_even_near a (3 * 2 ^ s) ltac:(lia)) as Hnear.
  assert (2 ^ s ≤ 2 * 2 ^ 1072) as Hgrid.
  { change (2 * 2 ^ 1072) with (2 ^ 1 * 2 ^ 1072).
    rewrite <-Z.pow_add_r by lia. apply Z.pow_le_mono_r; lia. }
  assert ((3 | n) → round_half_even a (3 * 2 ^ s) * (3 * 2 ^ s) = a)
    as Hexact.
  { intros [k Hk]. apply round_half_even_exact; [lia|].
    unfold a. destruct (pow2_divide s 1074) as [t Ht]; [lia|].
    rewrite Ht. exists (Z.abs k * t). subst n. rewrite Z.abs_mul.
    change (Z.abs 3) with 3. lia. }
  set (m := round_half_even a (3 * 2 ^ s)) in *. clearbody m.
  set (U := m * 2 ^ s) in *.
  assert (Hm : m * (3 * 2 ^ s) = 3 * U) by (unfold U; lia).
  rewrite Hm in Hnear, Hexact.
  clearbody U. clear Hm.
  rewrite HP in Hc. unfold a in *. rewrite HP in *. clear a.
  set (R := 2 ^ 1072) in *. clearbody R.
  set (G := 2 ^ s) in *. clearbody G. clear s Hs.
  destruct (decide (n mod 3 = 0)) as [H3|H3].
  - apply Z.mod_divide in H3; [|lia]. specialize (Hexact H3).
    destruct H3 as [k ->]. clear Hnear. nia.
  - assert (n ≠ 3 * (c - 1))
      by (intros ->; apply H3; rewrite Z.mul_comm; apply Z.mod_mul; lia).
    clear Hexact H3. nia.
Qed.

Lemma safe_integer_bounds n :
  safe_integer n → Z.abs n < 3 * 2 ^ 52 ∧ Z.abs (n - 1) ≤ 2 ^ 53.
Proof.
  unfold safe_integer, MAX_SAFE_INTEGER.
  change (2 ^ 53) with 9007199254740992.
  change (2 ^ 52) with 4503599627370496. lia.
Qed.

Lemma ceil_div3_spec n :
  safe_integer n → 3 * (ceil_div3 n - 1) < n ≤ 3 * ceil_div3 n.
Proof. intros [H _]%safe_integer_bounds. by apply ceil_div3_exact. Qed.

Lemma minus_one_safe n : safe_integer n → minus_one n = n - 1.
Proof. intros [_ H]%safe_integer_bounds. by apply minus_one_exact. Qed.

(** The model of the rounding gives what the Standard Library's model of
    binary64 gives, on samples around the grid, around [2^53], around
    [3 * 2^52] and far out. *)
Lemma binary64_agrees_with_reference :
  forallb agrees_with_reference reference_samples = true.
Proof. by vm_compute. Qed.

Lemma rem_is_mod n : 1 ≤ n → Z.rem (n - 1) 3 = (n - 1) mod 3.
Proof. intros. apply Z.rem_mod_nonneg; lia. Qed.

Lemma verifyClaim_row cp tp v :
  verifyClaim cp (JNum tp) CLAIM_TYPES.ROW v = true ↔ v = JNum (ceil_div3 tp).
Proof.
  unfold verifyClaim; cbn; unfold strict_eq.
  decide_closed. rewrite bool_decide_eq_true. split; congruence.
Qed.

Lemma verifyClaim_column cp tp v :
  verifyClaim cp (JNum tp) CLAIM_TYPES.COLUMN v = true
  ↔ v = JNum (Z.rem (minus_one tp) 3 + 1).
Proof.
  unfold verifyClaim; cbn; unfold strict_eq.
  decide_closed. rewrite bool_decide_eq_true. split; congruence.
Qed.

Lemma verifyClaim_adjacent cp tp v :
  verifyClaim cp tp CLAIM_TYPES.ADJACENT v = true
  ↔ cp ≠ JNull
    ∧ ∃ c t l, cp = JNum c ∧ tp = JNum t
               ∧ table_get ADJACENCY_MAP c = Some l ∧ t ∈ l.
Proof.
  unfold verifyClaim, strict_eq, CLAIM_TYPES.ADJACENT, CLAIM_TYPES.ROW,
    CLAIM_TYPES.COLUMN.
  split.
  - destruct tp as [| |b|t], cp as [| |b'|c]; decide_closed; try done.
    all: unfold adjacency_of, includes;
      destruct (table_get ADJACENCY_MAP c) as [l|] eqn:E; try done.
    intros Hin%bool_decide_eq_true. split; [done|]. by exists c, t, l.
  - intros [_ (c & t & l & -> & -> & E & Hin)].
    decide_closed. unfold adjacency_of, includes. rewrite E.
    by apply bool_decide_eq_true.
Qed.

Lemma ADJACENCY_MAP_keys c :
  is_Some (table_get ADJACENCY_MAP c) ↔ c ∈ cells.
Proof.
  unfold cells. rewrite !elem_of_cons, elem_of_nil. split.
  - intros [l E]. cbn in E.
    repeat (case_bool_decide; [subst; tauto|]). done.
  - intros H. destruct_or!; subst; try done; by eexists.
Qed.

Lemma ADJACENCY_MAP_orthogonal c t :
  c ∈ cells → t ∈ cells →
  (∃ l, table_get ADJACENCY_MAP c = Some l ∧ t ∈ l) ↔ orthogonal c t.
Proof.
  unfold cells. rewrite !elem_of_cons, !elem_of_nil.
  intros Hc Ht.
  assert (∀ l : list Z, t ∈ l ↔ bool_decide (t ∈ l) = true) as Hdec
    by (intros l; by rewrite bool_decide_eq_true).
  destruct_or!; subst; try done.
  all: split;
    [ intros (l & E & Hin); cbn in E; injection E as <-;
      apply Hdec in Hin;
      first [ by vm_compute | by (exfalso; vm_compute in Hin) ]
    | intros Ho;
      first [ by (exfalso; vm_compute in Ho)
            | eexists; split; [reflexivity|]; apply Hdec; by vm_compute ] ].
Qed.

Lemma adjacent_to c l t v :
  table_get ADJACENCY_MAP c = Some l →
  verifyClaim (JNum c) (JNum t) CLAIM_TYPES.ADJACENT v = true ↔ t ∈ l.
Proof.
  intros E. rewrite verifyClaim_adjacent. split.
  - intros [_ (c' & t' & l' & [= <-] & [= <-] & E' & Hin)]. congruence.
  - intros Hin. split; [done|]. by exists c, t, l.
Qed.

(** C3.  Local claim verification computes truth as follows.  For a
    target whose position [tp] is a safe integer (at most [2^53 - 1] in
    size, as every cell 1..9 is): a Row claim is true iff the claimed
    value is [ceil(tp/3)], the least [k] with [tp <= 3k]; a Column claim
    is true iff the claimed value is [((tp-1) % 3) + 1], where
    JavaScript's [%] is [mod] from cell 1 on.  For any position the
    verdict follows the rounded numbers: the quotient [tp / 3] and the
    difference [tp - 1] are binary64 values, and beyond the safe integers
    they are not the exact ones.  An Adjacent claim is true iff the
    claimant is alive (position not none) and the target's cell is in the
    adjacency set of the claimant's cell, which on the grid is the set of
    orthogonal neighbours: exactly {2,4,6,8} for a claimant at 5 and
    exactly {2,4} for a claimant at 1.  Every claim about a target whose
    position is none is false. *)
Theorem C3_verifyClaim_truth :
  (∀ cp tp v, safe_integer tp →
     verifyClaim cp (JNum tp) CLAIM_TYPES.ROW v = true
     ↔ ∃ k, v = JNum k ∧ 3 * (k - 1) < tp ≤ 3 * k)
  ∧ (∀ cp tp v, safe_integer tp →
       verifyClaim cp (JNum tp) CLAIM_TYPES.COLUMN v = true
       ↔ v = JNum (Z.rem (tp - 1) 3 + 1))
  ∧ (∀ cp tp v, safe_integer tp → 1 ≤ tp →
       verifyClaim cp (JNum tp) CLAIM_TYPES.COLUMN v = true
       ↔ v = JNum ((tp - 1) mod 3 + 1))
  ∧ (∀ cp tp v,
       (verifyClaim cp (JNum tp) CLAIM_TYPES.ROW v = true
        ↔ v = JNum (ceil_div3 tp))
       ∧ (verifyClaim cp (JNum tp) CLAIM_TYPES.COLUMN v = true
          ↔ v = JNum (Z.rem (minus_one tp) 3 + 1)))
  ∧ (∀ cp tp v,
       verifyClaim cp tp CLAIM_TYPES.ADJACENT v = true
       ↔ cp ≠ JNull
         ∧ ∃ c t l, cp = JNum c ∧ tp = JNum t
                    ∧ table_get ADJACENCY_MAP c = Some l ∧ t ∈ l)
  ∧ (∀ c t, c ∈ cells → t ∈ cells →
       (∃ l, table_get ADJACENCY_MAP c = Some l ∧ t ∈ l) ↔ orthogonal c t)
  ∧ (∀ t v,
       verifyClaim (JNum 5) (JNum t) CLAIM_TYPES.ADJACENT v = true
       ↔ t ∈ [2; 4; 6; 8])
  ∧ (∀ t v,
       verifyClaim (JNum 1) (JNum t) CLAIM_TYPES.ADJACENT v = true
       ↔ t ∈ [2; 4])
  ∧ (∀ cp claimType v, verifyClaim cp JNull claimType v = false).
Proof.
  split_and!.
  - intros cp tp v Hs. rewrite verifyClaim_row.
    pose proof (ceil_div3_spec tp Hs) as Hc. split.
    + intros ->. by eexists.
    + intros (k & -> & Hk). f_equal. lia.
  - intros cp tp v Hs. by rewrite verifyClaim_column, minus_one_safe.
  - intros cp tp v Hs Htp.
    by rewrite verifyClaim_column, minus_one_safe, rem_is_mod.
  - intros cp tp v. split; [apply verifyClaim_row|apply verifyClaim_column].
  - apply verifyClaim_adjacent.
  - apply ADJACENCY_MAP_orthogonal.
  - intros t v. by apply adjacent_to.
  - intros t v. by apply adjacent_to.
  - reflexivity.
Qed.

(** The column rule at cell 8, which lies in column 2. *)
Lemma C3_witness :
  safe_integer 8 ∧ 1 ≤ 8
  ∧ (verifyClaim JNull (JNum 8) CLAIM_TYPES.COLUMN (JNum 2) = true
     ↔ JNum 2 = JNum ((8 - 1) mod 3 + 1)).
Proof.
  assert (safe_integer 8) as Hs by (by vm_compute).
  assert (1 ≤ 8) as H8 by lia.
  split_and!; [done..|].
  exact (proj1 (proj2 (proj2 C3_verifyClaim_truth)) JNull 8 (JNum 2) Hs H8).
Defined.

(** C3 (as stated) fails beyond the safe integers.  The position
    [far_cell = 3 * 2^52 + 4] is a number a client can send, and
    select_position stores it.  Its third is rounded down to
    [2^52 + 1]: the Row claim with that value is found true although
    [ceil(far_cell / 3)] is [2^52 + 2], and the Row claim with the value
    [2^52 + 2] is found false.  Likewise for [odd_cell = 2^53 + 2] the
    difference [odd_cell - 1] is rounded to [2^53]: the Column claim 3
    is found true although [((odd_cell - 1) mod 3) + 1] is 1.  In the
    example room the mortal [a] stands on [far_cell] and the god's
    verify_claim settles [b]'s Row claim [2^52 + 1] about [a] as true. *)
Lemma C3_counterexample :
  is_double far_cell
  ∧ verifyClaim JNull (JNum far_cell) CLAIM_TYPES.ROW
      (JNum 4503599627370497) = true
  ∧ ¬ (3 * (4503599627370497 - 1) < far_cell ≤ 3 * 4503599627370497)
  ∧ 3 * (4503599627370498 - 1) < far_cell ≤ 3 * 4503599627370498
  ∧ verifyClaim JNull (JNum far_cell) CLAIM_TYPES.ROW
      (JNum 4503599627370498) = false
  ∧ is_double odd_cell
  ∧ verifyClaim JNull (JNum odd_cell) CLAIM_TYPES.COLUMN (JNum 3) = true
  ∧ (odd_cell - 1) mod 3 + 1 = 1
  ∧ verifyClaim JNull (JNum odd_cell) CLAIM_TYPES.COLUMN (JNum 1) = false
  ∧ Room.phase far_room = deduction
  ∧ (λ p, (Player.id p, Player.position p)) <$> Room.players far_room
    = [ ("h", JNull); ("a", JNum far_cell); ("b", JNum 2); ("c", JNum 3) ]
  ∧ ∃ r' evs c,
      handle local_only "h" (Verify_claim "ABC123-1-b" (Resolved ""))
        far_room
      = Done r' evs
      ∧ Room.claims r' !! 1%nat = Some c
      ∧ Claim.targetPlayerId c = "a"
      ∧ Claim.claimType c = CLAIM_TYPES.ROW
      ∧ Claim.claimValue c = JNum 4503599627370497
      ∧ Claim.isTrue c = JBool true.
Proof.
  unfold is_double, far_cell, odd_cell.
  split_and!; try (by vm_compute); try lia.
  eexists _, _, _. split; [by vm_compute|].
  split; [by vm_compute|]. split_and!; by vm_compute.
Qed.

(** ** After the game has ended *)






(** ** Leaving the lobby *)

Lemma startNextRound_phase r keepGodId pick r' evs :
  startNextRound r keepGodId pick = Done r' evs → Room.phase r' = setup.
Proof.
  unfold startNextRound. destruct (keeps_god keepGodId).
  - by intros [= <- <-].
  - repeat case_match; intros; by simplify_eq.
Qed.

(** From the lobby, only start_game changes the phase, and it leads to
    setup. *)
Lemma lobby_left_only_by_start_game cfg sid cmd r r' evs :
  Room.phase r = lobby →
  handle cfg sid cmd r = Done r' evs →
  Room.phase r' ≠ lobby →
  (∃ shuffled, cmd = Start_game shuffled) ∧ Room.phase r' = setup.
Proof.
  intros Hph Hh Hne. destruct cmd; cbn [handle] in Hh.
  - unfold join_room in Hh. repeat case_match; simplify_eq; congruence.
  - unfold toggle_ready in Hh. repeat case_match; simplify_eq; congruence.
  - unfold set_round_config in Hh.
    repeat case_match; simplify_eq; congruence.
  - split; [by eexists|]. unfold start_game in Hh.
    repeat case_match; simplify_eq; done.
  - unfold select_position in Hh. rewrite Hph in Hh.
    revert Hh. decide_closed. congruence.
  - unfold submit_claim in Hh. rewrite Hph in Hh.
    revert Hh. decide_closed. congruence.
  - unfold submit_claim_blockchain in Hh.
    repeat case_match; simplify_eq; congruence.
  - unfold verify_claim in Hh. rewrite Hph in Hh.
    revert Hh. decide_closed. congruence.
  - unfold attack_cell in Hh. rewrite Hph in Hh.
    revert Hh. decide_closed. congruence.
  - unfold god_choice in Hh. rewrite Hph in Hh.
    revert Hh. decide_closed. congruence.
  - unfold disconnect in Hh. repeat case_match; simplify_eq; congruence.
  - unfold auto_start in Hh. rewrite Hph in Hh.
    revert Hh. decide_closed. congruence.
  - unfold registration_settled in Hh.
    repeat case_match; simplify_eq; congruence.
Qed.

(** start_game takes effect only for the host of a room of at least four
    players (join_room lets no fifth player in); otherwise it answers
    with an error and leaves the room as it was. *)
Lemma start_game_guards sid shuffled r :
  (is_host (find_player sid (Room.players r)) = false →
   start_game sid shuffled r = Done r [error "Only host can start the game"])
  ∧ (is_host (find_player sid (Room.players r)) = true →
     (length (Room.players r) < 4)%nat →
     start_game sid shuffled r = Done r [error "Need 4 players to start"])
  ∧ (∀ r' evs, start_game sid shuffled r = Done r' evs →
       Room.phase r' = setup ∧ Room.phase r ≠ setup →
       is_host (find_player sid (Room.players r)) = true
       ∧ (4 ≤ length (Room.players r))%nat).
Proof.
  unfold start_game. split_and!.
  - by intros ->.
  - intros -> Hlen. cbn. by rewrite bool_decide_eq_true_2 by lia.
  - intros r' evs Hs [Hp Hn].
    destruct (is_host _); cbn in Hs; [|simplify_eq; congruence].
    case_bool_decide; [simplify_eq; congruence|]. split; [done|lia].
Qed.

Lemma join_room_at_most_four sid playerName r r' evs :
  (length (Room.players r) ≤ 4)%nat →
  join_room sid playerName r = Done r' evs →
  (length (Room.players r') ≤ 4)%nat.
Proof.
  unfold join_room. intros Hlen.
  repeat case_bool_decide; intros [= <- <-]; cbn; [done..|].
  rewrite length_app. cbn. lia.
Qed.

(** C2.  start_game does not test the phase: issued by the host in the
    deduction phase of a running game it is not rejected but accepted.  It
    emits [game_started] and no error, moves the room back to [setup],
    deals the roles anew (here the former mortal [a] becomes the god while
    keeping cell 1) and keeps the claims of the interrupted turn. *)
Theorem C2_start_game_outside_lobby :
  Room.phase deduction_room = deduction
  ∧ is_host (find_player "h" (Room.players deduction_room)) = true
  ∧ length (Room.players deduction_room) = 4%nat
  ∧ ∃ r', handle local_only "h" (Start_game [1; 0; 2; 3]%nat) deduction_room
          = Done r' [game_started]
          ∧ Room.phase r' = setup
          ∧ r' ≠ deduction_room
          ∧ (λ p, (Player.id p, Player.role p, Player.position p))
              <$> Room.players r'
            = [ ("h", Some mortal, JNull); ("a", Some god, JNum 1);
                ("b", Some mortal, JNum 2); ("c", Some mortal, JNum 3) ]
          ∧ length (Room.claims r') = 3%nat.
Proof.
  split_and!; try by vm_compute.
  eexists. split; [by vm_compute|]. split; [by vm_compute|].
  split; [|by vm_compute].
  intros H. apply (f_equal Room.phase) in H. vm_compute in H. discriminate H.
Qed.

(** ** Scores *)

Lemma set_scores_same r :
  Room.set_scores (Room.scores r) (Room.scoreKeys r) r = r.
Proof. by destruct r. Qed.

Lemma addScore_shape r pid a pts rd t :
  ∃ m, addScore r pid a pts rd t = Room.set_scores m (Room.scoreKeys r) r.
Proof.
  unfold addScore. destruct (Room.scores r !! pid).
  - by eexists.
  - exists (Room.scores r). by rewrite set_scores_same.
Qed.

Lemma addScore_total r pid a pts rd t k :
  is_Some (Room.scores r !! pid) →
  total_of (addScore r pid a pts rd t) k
  = total_of r k + (if bool_decide (pid = k) then pts else 0).
Proof.
  intros [s Hs]. unfold addScore, total_of. rewrite Hs. cbn.
  case_bool_decide as Hk.
  - subst k. by rewrite lookup_insert_eq, Hs.
  - rewrite lookup_insert_ne by done. lia.
Qed.

Lemma addScore_is_Some r pid a pts rd t k :
  is_Some (Room.scores r !! k) →
  is_Some (Room.scores (addScore r pid a pts rd t) !! k).
Proof.
  intros Hk. unfold addScore.
  destruct (Room.scores r !! pid) eqn:E; [|done]. cbn.
  destruct (decide (pid = k)) as [->|].
  - rewrite lookup_insert_eq. by eexists.
  - by rewrite lookup_insert_ne.
Qed.

Lemma survive_loop_cons x l r :
  survive_loop (x :: l) r
  = survive_loop l
      (addScore r (Player.id x) "survive_turn" POINTS.MORTAL_SURVIVES_TURN
         (Room.currentRound r) (Room.turn r)).
Proof. reflexivity. Qed.

Lemma survive_loop_shape l r :
  ∃ m, survive_loop l r = Room.set_scores m (Room.scoreKeys r) r.
Proof.
  revert r. induction l as [|x l IH]; intros r.
  - exists (Room.scores r). cbn. by rewrite set_scores_same.
  - destruct (addScore_shape r (Player.id x) "survive_turn"
                POINTS.MORTAL_SURVIVES_TURN (Room.currentRound r)
                (Room.turn r)) as [m Hm].
    rewrite survive_loop_cons, Hm.
    destruct (IH (Room.set_scores m (Room.scoreKeys r) r)) as [m' Hm'].
    rewrite Hm'. by exists m'.
Qed.

Lemma survive_loop_total l r k :
  NoDup (Player.id <$> l) →
  (∀ m, m ∈ l → is_Some (Room.scores r !! Player.id m)) →
  total_of (survive_loop l r) k
  = total_of r k
    + (if bool_decide (k ∈ Player.id <$> l)
       then POINTS.MORTAL_SURVIVES_TURN else 0).
Proof.
  revert r. induction l as [|x l IH]; intros r Hnd Hdom.
  - cbn. rewrite bool_decide_eq_false_2; [lia|]. apply not_elem_of_nil.
  - cbn in Hnd. apply NoDup_cons in Hnd as [Hx Hnd].
    rewrite survive_loop_cons, IH; [|done|].
    + rewrite addScore_total by (apply Hdom; left).
      destruct (decide (Player.id x = k)) as [<-|Hne].
      * rewrite (bool_decide_eq_true_2 (Player.id x = Player.id x)) by done.
        rewrite (bool_decide_eq_false_2 _ Hx).
        rewrite bool_decide_eq_true_2 by (cbn; left). lia.
      * rewrite (bool_decide_eq_false_2 _ Hne).
        rewrite (bool_decide_ext (k ∈ Player.id <$> x :: l)
                   (k ∈ Player.id <$> l)); [lia|].
        cbn. rewrite elem_of_cons.
        split; [intros [?|?]; [congruence|done] | by right].
    + intros m Hm. apply addScore_is_Some, Hdom. by right.
Qed.

(** ** Lists of players *)

Lemma fmap_alter_same {A B} (f : A → B) (g : A → A) i (l : list A) :
  (∀ x, f (g x) = f x) → f <$> alter g i l = f <$> l.
Proof.
  intros Hfg. revert i.
  induction l as [|x l IH]; intros [|i]; cbn; [done..| |].
  - by rewrite Hfg.
  - by rewrite IH.
Qed.

Lemma list_find_is_Some {A} (P : A → Prop) `{∀ x, Decision (P x)}
    (l : list A) :
  is_Some (list_find P l) ↔ Exists P l.
Proof.
  induction l as [|x l IH]; cbn.
  - rewrite Exists_nil. split; [by intros [? ?]|done].
  - rewrite Exists_cons. destruct (decide (P x)) as [HP|HP].
    + split; [by left|by eexists].
    + rewrite fmap_is_Some, IH. tauto.
Qed.

Lemma find_god_roles ps ps' :
  Player.role <$> ps = Player.role <$> ps' →
  is_Some (find_god ps) → is_Some (find_god ps').
Proof.
  unfold find_god. rewrite !list_find_is_Some.
  intros Hr He.
  apply (proj1 (Exists_fmap Player.role (λ x, x = Some god) ps')).
  rewrite <-Hr.
  by apply (proj2 (Exists_fmap Player.role (λ x, x = Some god) ps)).
Qed.

Lemma NoDup_fmap_inj_on {A B} (f : A → B) (l : list A) x y :
  NoDup (f <$> l) → x ∈ l → y ∈ l → f x = f y → x = y.
Proof.
  induction l as [|z l IH]; cbn; [by intros _ ?%elem_of_nil|].
  intros [Hz Hnd]%NoDup_cons [->|Hx]%elem_of_cons [->|Hy]%elem_of_cons Hf.
  - done.
  - exfalso. apply Hz. rewrite Hf. by apply list_elem_of_fmap_2.
  - exfalso. apply Hz. rewrite <-Hf. by apply list_elem_of_fmap_2.
  - by apply IH.
Qed.

(** ** Attack resolution *)

Lemma strike_players cell hp r :
  Room.players (strike cell hp r)
  = match hp with
    | Some (j, _) => alter (Player.set_position JNull) j (Room.players r)
    | None => Room.players r
    end.
Proof. unfold strike. by destruct hp as [[j x]|]. Qed.

Lemma strike_ids cell hp r :
  Player.id <$> Room.players (strike cell hp r)
  = Player.id <$> Room.players r.
Proof.
  rewrite strike_players. destruct hp as [[j x]|]; [|done].
  by apply fmap_alter_same.
Qed.

Lemma strike_roles cell hp r :
  Player.role <$> Room.players (strike cell hp r)
  = Player.role <$> Room.players r.
Proof.
  rewrite strike_players. destruct hp as [[j x]|]; [|done].
  by apply fmap_alter_same.
Qed.

Lemma strike_attacks cell hp r :
  Room.attacks (strike cell hp r)
  = (Room.attacks r
       ++ [Attack.mk cell (Room.turn r) (Room.currentRound r)
             (bool_decide (is_Some hp))
             (hp ≫= λ h, or_null (Player.name h.2))])%list.
Proof. unfold strike. by destruct hp as [[j x]|]. Qed.

Lemma strike_rest cell hp r :
  Room.scores (strike cell hp r) = Room.scores r
  ∧ Room.godHistory (strike cell hp r) = Room.godHistory r
  ∧ Room.turn (strike cell hp r) = Room.turn r
  ∧ Room.phase (strike cell hp r) = Room.phase r
  ∧ Room.currentRound (strike cell hp r) = Room.currentRound r
  ∧ Room.verificationsRemaining (strike cell hp r)
    = Room.verificationsRemaining r.
Proof. unfold strike. by destruct hp as [[j x]|]. Qed.

Lemma god_points_shape godId hit gh r :
  ∃ m, god_points godId hit gh r
       = Room.set_scores m (Room.scoreKeys r)
           (Room.set_godHistory
              (if hit then Room.godHistory r
               else Some (GodHistory.mk (GodHistory.playerId gh)
                            (GodHistory.consecutiveRounds gh)
                            (GodHistory.hasPenalty gh)
                            (GodHistory.missedAttacks gh + 1))) r).
Proof.
  unfold god_points. destruct hit.
  - destruct (addScore_shape r godId "god_find"
                (POINTS.GOD_FINDS_MORTAL
                 + (if GodHistory.hasPenalty gh
                    then POINTS.GOD_PENALTY_HIT_BONUS else 0))
                (Room.currentRound r) (Room.turn r)) as [m ->].
    exists m. by destruct r.
  - destruct (GodHistory.hasPenalty gh).
    + match goal with |- context [addScore ?r' _ ?a ?p ?rd ?t] =>
        destruct (addScore_shape r' godId a p rd t) as [m ->] end.
      by exists m.
    + exists (Room.scores r). by destruct r.
Qed.

Lemma god_points_total godId hit gh r k :
  is_Some (Room.scores r !! godId) →
  total_of (god_points godId hit gh r) k
  = total_of r k
    + (if bool_decide (godId = k) then
         if hit then 40 + (if GodHistory.hasPenalty gh then 15 else 0)
         else if GodHistory.hasPenalty gh then -20 else 0
       else 0).
Proof.
  intros Hg. unfold god_points. destruct hit.
  - by rewrite addScore_total.
  - destruct (GodHistory.hasPenalty gh).
    + by rewrite addScore_total.
    + unfold total_of; cbn. case_bool_decide; lia.
Qed.

Lemma god_points_is_Some godId hit gh r k :
  is_Some (Room.scores r !! k) →
  is_Some (Room.scores (god_points godId hit gh r) !! k).
Proof.
  intros Hk. unfold god_points. destruct hit.
  - by apply addScore_is_Some.
  - destruct (GodHistory.hasPenalty gh); [by apply addScore_is_Some|done].
Qed.

Lemma handleEndOfRound_done r w gh :
  Room.godHistory r = Some gh → is_Some (find_god (Room.players r)) →
  ∃ r' evs, handleEndOfRound r w = Done r' evs
    ∧ Room.players r' = Room.players r
    ∧ Room.scores r' = Room.scores r
    ∧ Room.godHistory r' = Some gh
    ∧ Room.attacks r' = Room.attacks r
    ∧ Room.phase r' ≠ claiming.
Proof.
  intros Hgh [[gi g] Hg]. unfold handleEndOfRound, find_god in *.
  case_bool_decide; [by exhibit|].
  destruct w; cbn; rewrite ?Hgh, ?Hg; by exhibit.
Qed.

Lemma check_end_of_round_done r gh :
  Room.godHistory r = Some gh → is_Some (find_god (Room.players r)) →
  ∃ r' evs, check_end_of_round r = Done r' evs
    ∧ Room.players r' = Room.players r
    ∧ Room.scores r' = Room.scores r
    ∧ Room.godHistory r' = Some gh
    ∧ Room.attacks r' = Room.attacks r.
Proof.
  intros Hgh Hg. unfold check_end_of_round.
  repeat case_bool_decide.
  - destruct (handleEndOfRound_done
                (Room.set_roundWinner (Some god_wins) r) god_wins gh)
      as (r' & evs & -> & ? & ? & ? & ? & ?); [done..|]. by exhibit.
  - destruct (handleEndOfRound_done
                (Room.set_roundWinner (Some mortals_win) r) mortals_win gh)
      as (r' & evs & -> & ? & ? & ? & ? & ?); [done..|]. by exhibit.
  - by exhibit.
Qed.


(** A processed attack is the four parts in sequence. *)
Lemma attack_cell_processed sid cell r i p gi g gh :
  Room.phase r = deduction →
  find_player sid (Room.players r) = Some (i, p) →
  Player.role p = Some god →
  find_god (Room.players r) = Some (gi, g) →
  Room.godHistory r = Some gh →
  attack_cell sid cell r
  = let hp := list_find (λ q, Player.position q = cell) (Room.players r) in
    after_emitting
      [attack_result cell (bool_decide (is_Some hp))
         (Player.name ∘ snd <$> hp)]
      (check_end_of_round
         (survival_points
            (god_points (Player.id g) (bool_decide (is_Some hp)) gh
               (strike cell hp r)))).
Proof.
  intros Hph Hp Hr Hg Hgh. unfold attack_cell.
  rewrite Hph, Hp, Hr, Hg. decide_closed.
  by rewrite (proj1 (proj2 (strike_rest _ _ _))), Hgh.
Qed.

Lemma aliveMortals_ids_NoDup ps :
  NoDup (Player.id <$> ps) → NoDup (Player.id <$> aliveMortals ps).
Proof.
  intros Hnd. eapply sublist_NoDup; [done|].
  apply fmap_sublist, sublist_filter.
Qed.

Lemma survival_points_shape r :
  ∃ m, survival_points r = Room.set_scores m (Room.scoreKeys r) r.
Proof. apply survive_loop_shape. Qed.

(** What a processed attack leaves behind: the players after the strike,
    the attack record, the god history and every total. *)
Lemma attack_cell_effect sid cell r i p gi g gh :
  Room.phase r = deduction →
  find_player sid (Room.players r) = Some (i, p) →
  Player.role p = Some god →
  find_god (Room.players r) = Some (gi, g) →
  Room.godHistory r = Some gh →
  let hp := list_find (λ q, Player.position q = cell) (Room.players r) in
  let hit := bool_decide (is_Some hp) in
  ∃ r' evs,
    attack_cell sid cell r = Done r' evs
    ∧ Room.players r' = Room.players (strike cell hp r)
    ∧ Room.attacks r' = Room.attacks (strike cell hp r)
    ∧ Room.godHistory r'
      = Some (if hit then gh
              else GodHistory.mk (GodHistory.playerId gh)
                     (GodHistory.consecutiveRounds gh)
                     (GodHistory.hasPenalty gh)
                     (GodHistory.missedAttacks gh + 1))
    ∧ Room.scores r'
      = Room.scores (survival_points
                       (god_points (Player.id g) hit gh (strike cell hp r))).
Proof.
  intros Hph Hp Hr Hg Hgh hp hit. subst hp hit.
  rewrite (attack_cell_processed sid cell r i p gi g gh) by done.
  cbv zeta.
  set (hp := list_find (λ q, Player.position q = cell) (Room.players r)).
  set (hit := bool_decide (is_Some hp)).
  set (rk := strike cell hp r).
  destruct (god_points_shape (Player.id g) hit gh rk) as [m1 Hm1].
  destruct (survival_points_shape (god_points (Player.id g) hit gh rk))
    as [m2 Hm2].
  assert (Hgh' : Room.godHistory rk = Some gh)
    by (unfold rk; by rewrite (proj1 (proj2 (strike_rest _ _ _)))).
  set (gh' := if hit then gh
              else GodHistory.mk (GodHistory.playerId gh)
                     (GodHistory.consecutiveRounds gh)
                     (GodHistory.hasPenalty gh)
                     (GodHistory.missedAttacks gh + 1)).
  destruct (check_end_of_round_done
              (survival_points (god_points (Player.id g) hit gh rk)) gh')
    as (r' & evs & Hc & Hps & Hsc & Hgh'' & Hat).
  - rewrite Hm2, Hm1. cbn. unfold gh'. destruct hit; [by rewrite Hgh'|done].
  - rewrite Hm2, Hm1. cbn. eapply find_god_roles; [|by rewrite Hg].
    symmetry. apply strike_roles.
  - rewrite Hc. cbn. eexists _, _. split; [done|].
    rewrite Hps, Hat, Hgh'', Hsc, Hm2, Hm1. by cbn.
Qed.

Lemma total_of_scores r1 r2 k :
  Room.scores r1 = Room.scores r2 → total_of r1 k = total_of r2 k.
Proof. unfold total_of. by intros ->. Qed.

Lemma occupied_find cell ps :
  bool_decide (is_Some (list_find (λ q, Player.position q = cell) ps))
  = occupied cell ps.
Proof. apply bool_decide_ext, list_find_is_Some. Qed.

Lemma attack_cell_totals sid cell r i p gi g gh :
  Room.phase r = deduction →
  find_player sid (Room.players r) = Some (i, p) →
  Player.role p = Some god →
  find_god (Room.players r) = Some (gi, g) →
  Room.godHistory r = Some gh →
  NoDup (Player.id <$> Room.players r) →
  scores_cover_players r →
  ∃ r' evs a gh',
    attack_cell sid cell r = Done r' evs
    ∧ Player.id <$> Room.players r' = Player.id <$> Room.players r
    ∧ last (Room.attacks r') = Some a
    ∧ Attack.hit a = occupied cell (Room.players r)
    ∧ Room.godHistory r' = Some gh'
    ∧ GodHistory.missedAttacks gh'
      = GodHistory.missedAttacks gh
        + (if occupied cell (Room.players r) then 0 else 1)
    ∧ ∀ k, total_of r' k
           = total_of r k
             + (if bool_decide (Player.id g = k)
                then god_gain (occupied cell (Room.players r))
                       (GodHistory.hasPenalty gh)
                else 0)
             + (if bool_decide
                     (k ∈ Player.id <$> aliveMortals (Room.players r'))
                then 20 else 0).
Proof.
  intros Hph Hp Hr Hg Hgh Hnd Hdom.
  destruct (attack_cell_effect sid cell r i p gi g gh)
    as (r' & evs & -> & Hps & Hat & Hgh' & Hsc); [done..|].
  rewrite occupied_find in Hgh', Hsc.
  set (hp := list_find (λ q, Player.position q = cell) (Room.players r))
    in *.
  set (hit := occupied cell (Room.players r)) in *.
  set (rk := strike cell hp r) in *.
  assert (Hids : Player.id <$> Room.players rk = Player.id <$> Room.players r)
    by apply strike_ids.
  assert (Hg_in : g ∈ Room.players r).
  { apply list_find_Some in Hg as (Hl & _). by eapply list_elem_of_lookup_2. }
  assert (Hdom' : ∀ k, k ∈ Player.id <$> Room.players r →
                       is_Some (Room.scores rk !! k)).
  { intros k (q & -> & Hq)%list_elem_of_fmap.
    unfold rk. rewrite (proj1 (strike_rest _ _ _)). by apply Hdom. }
  eexists r', evs, _, _. split; [done|].
  split; [by rewrite Hps|].
  split; [rewrite Hat; unfold rk; rewrite strike_attacks; apply last_snoc|].
  split; [cbn; apply occupied_find|].
  split; [done|].
  split; [by destruct hit; cbn; lia|].
  intros k. rewrite (total_of_scores _ _ k Hsc). unfold survival_points.
  destruct (god_points_shape (Player.id g) hit gh rk) as [m1 Hm1].
  assert (Hpg : Room.players (god_points (Player.id g) hit gh rk)
                = Room.players rk) by by rewrite Hm1.
  rewrite Hpg, survive_loop_total.
  - rewrite god_points_total.
    + rewrite (total_of_scores rk r) by apply strike_rest.
      rewrite Hps. unfold god_gain. done.
    + apply Hdom'. by apply list_elem_of_fmap_2.
  - apply aliveMortals_ids_NoDup. by rewrite Hids.
  - intros q [_ Hq]%list_elem_of_filter.
    apply god_points_is_Some, Hdom'. rewrite <-Hids.
    by apply list_elem_of_fmap_2.
Qed.

(** C4.  A processed attack scores exactly as follows.  The attack is a
    hit when some player stands on the cell.  On a hit the god gains 40,
    and 15 more iff the god history has the penalty flag; on a miss
    [missedAttacks] grows by one (it is unchanged on a hit) and the god
    loses 20 iff under penalty, an un-penalized miss leaving the god's
    total as it was; and, hit or miss, every mortal alive after the attack
    gains 20, while nobody else's total moves. *)
Theorem C4_attack_scoring sid cell r i p gi g gh :
  Room.phase r = deduction →
  find_player sid (Room.players r) = Some (i, p) →
  Player.role p = Some god →
  find_god (Room.players r) = Some (gi, g) →
  Room.godHistory r = Some gh →
  NoDup (Player.id <$> Room.players r) →
  scores_cover_players r →
  let hit := occupied cell (Room.players r) in
  let penalty := GodHistory.hasPenalty gh in
  ∃ r' evs a gh',
    attack_cell sid cell r = Done r' evs
    ∧ last (Room.attacks r') = Some a ∧ Attack.hit a = hit
    ∧ Room.godHistory r' = Some gh'
    ∧ GodHistory.missedAttacks gh'
      = GodHistory.missedAttacks gh + (if hit then 0 else 1)
    ∧ total_of r' (Player.id g)
      = total_of r (Player.id g)
        + (if hit then 40 + (if penalty then 15 else 0)
           else if penalty then -20 else 0)
    ∧ (∀ m, m ∈ Room.players r' → alive_mortal m →
         total_of r' (Player.id m) = total_of r (Player.id m) + 20)
    ∧ (∀ q, q ∈ Room.players r' → ¬ alive_mortal q →
         Player.id q ≠ Player.id g →
         total_of r' (Player.id q) = total_of r (Player.id q)).
Proof.
  intros Hph Hp Hr Hg Hgh Hnd Hdom hit penalty.
  destruct (attack_cell_totals sid cell r i p gi g gh)
    as (r' & evs & a & gh' & Ha & Hids & Hlast & Hhit & Hgh' & Hmiss & Htot);
    [done..|].
  assert (Hnd' : NoDup (Player.id <$> Room.players r')) by by rewrite Hids.
  assert (Halive : ∀ q, q ∈ Room.players r' →
            (Player.id q ∈ Player.id <$> aliveMortals (Room.players r'))
            ↔ alive_mortal q).
  { intros q Hq. rewrite list_elem_of_fmap. split.
    - intros (m & Hid & [Hm Hin]%list_elem_of_filter).
      by rewrite (NoDup_fmap_inj_on Player.id _ q m Hnd' Hq Hin Hid).
    - intros Hal. exists q. split; [done|]. by apply list_elem_of_filter. }
  assert (Hg_in : ∃ g', g' ∈ Room.players r' ∧ Player.id g' = Player.id g
                        ∧ Player.role g' = Some god).
  { destruct (attack_cell_effect sid cell r i p gi g gh)
      as (r'' & evs' & Ha' & Hps & _); [done..|].
    rewrite Ha in Ha'. injection Ha' as <- <-.
    apply list_find_Some in Hg as (Hl & Hrg & _).
    pose proof (f_equal (λ l, l !! gi) (strike_ids cell
      (list_find (λ q, Player.position q = cell) (Room.players r)) r)) as E1.
    pose proof (f_equal (λ l, l !! gi) (strike_roles cell
      (list_find (λ q, Player.position q = cell) (Room.players r)) r)) as E2.
    cbn in E1, E2. rewrite <-Hps in E1, E2.
    rewrite !list_lookup_fmap, Hl in E1. rewrite !list_lookup_fmap, Hl in E2.
    destruct (Room.players r' !! gi) as [g'|] eqn:El; [|done].
    cbn in E1, E2. exists g'. split; [by eapply list_elem_of_lookup_2|].
    split; congruence. }
  destruct Hg_in as (g' & Hg'in & Hg'id & Hg'role).
  exists r', evs, a, gh'. split_and!; try done.
  - rewrite Htot. rewrite bool_decide_eq_true_2 by done.
    rewrite bool_decide_eq_false_2; [unfold god_gain; fold hit penalty; lia|].
    rewrite <-Hg'id, Halive by done. intros [Hm _]. congruence.
  - intros m Hm Hal. rewrite Htot.
    rewrite (bool_decide_eq_true_2 _ (proj2 (Halive m Hm) Hal)).
    rewrite bool_decide_eq_false_2; [lia|].
    intros Hid. rewrite <-Hg'id in Hid.
    rewrite (NoDup_fmap_inj_on Player.id _ g' m Hnd' Hg'in Hm Hid) in Hg'role.
    destruct Hal as [Hal _]. congruence.
  - intros q Hq Hnal Hne. rewrite Htot.
    rewrite bool_decide_eq_false_2 by done.
    rewrite bool_decide_eq_false_2; [lia|]. by rewrite Halive.
Qed.

(** In the example room the god attacks cell 2, where a mortal stands:
    the god gains 40, the two survivors 20 each, the victim nothing. *)
Lemma C4_witness :
  ∃ r' evs,
    attack_cell "h" (JNum 2) deduction_room = Done r' evs
    ∧ total_of r' "h" = total_of deduction_room "h" + 40.
Proof.
  destruct (C4_attack_scoring "h" (JNum 2) deduction_room 0%nat hal 0%nat hal
              first_reign)
    as (r' & evs & a & gh' & Ha & _ & _ & _ & _ & Htot & _).
  - by vm_compute.
  - by vm_compute.
  - reflexivity.
  - by vm_compute.
  - by vm_compute.
  - compute_done.
  - unfold scores_cover_players. apply Forall_forall. compute_done.
  - exists r', evs. split; [exact Ha|exact Htot].
Defined.

(** ** Round transition *)

Lemma entries_from_nonempty {A} (P : A → bool) i (l : list A) x :
  x ∈ l → P x = true → entries_from P i l ≠ [].
Proof.
  intros Hx HP. revert i.
  induction l as [|y l IH]; intros i; [by apply elem_of_nil in Hx|].
  cbn. destruct (P y) eqn:E; [done|].
  apply elem_of_cons in Hx as [->|Hx]; [congruence|by apply IH].
Qed.

Lemma lookup_mod_is_Some {A} (l : list A) (pick : nat) :
  l ≠ [] → is_Some (l !! (pick mod length l)%nat).
Proof.
  intros Hl. apply lookup_lt_is_Some_2, Nat.mod_upper_bound.
  destruct l; [done|]. cbn. lia.
Qed.

Lemma startNextRound_keep r s pick :
  s ≠ "" →
  startNextRound r (Some s) pick
  = Done (Room.set_phase setup
            (Room.set_players (reset_mortal <$> Room.players r)
               (Room.set_attacks []
                  (Room.set_claims []
                     (Room.set_verificationsRemaining 2
                        (Room.set_roundWinner None
                           (Room.set_turn 1
                              (Room.set_currentRound
                                 (Room.currentRound r + 1) r))))))))
         [round_started (Room.currentRound r + 1)].
Proof.
  intros Hs. unfold startNextRound, keeps_god.
  by rewrite bool_decide_eq_true_2 by done.
Qed.

Lemma startNextRound_cede r pick gi g :
  find_god (Room.players r) = Some (gi, g) →
  (∃ q, q ∈ Room.players r ∧ Player.id q ≠ Player.id g) →
  ∃ r' ni newGod,
    startNextRound r None pick
    = Done r' [round_started (Room.currentRound r + 1)]
    ∧ Room.phase r' = setup
    ∧ Room.godHistory r' = Some (GodHistory.mk (Player.id newGod) 1 false 0)
    ∧ (ni, newGod)
      ∈ (match entries_from (λ p, bool_decide (alive_mortal p)) 0
                 (Room.players r) with
         | [] => entries_from
                   (λ p, bool_decide (Player.id p ≠ Player.id g)) 0
                   (Room.players r)
         | alive => alive
         end).
Proof.
  intros Hg (q & Hq & Hne). unfold startNextRound. cbn.
  unfold find_god in Hg. rewrite Hg.
  set (cands := match entries_from _ 0 (Room.players r) with
                | [] => _ | alive => alive end).
  assert (Hc : cands ≠ []).
  { unfold cands.
    destruct (entries_from (λ p, bool_decide (alive_mortal p)) 0
                (Room.players r)) eqn:E; [|done].
    eapply entries_from_nonempty; [done|]. by apply bool_decide_eq_true. }
  destruct (lookup_mod_is_Some cands pick Hc) as [[ni newGod] Hl].
  rewrite Hl. eexists _, ni, newGod. split; [reflexivity|]. cbn.
  split_and!; [done..|]. by eapply list_elem_of_lookup_2.
Qed.

Lemma reset_mortal_role p : Player.role (reset_mortal p) = Player.role p.
Proof. unfold reset_mortal. by case_bool_decide. Qed.

Lemma reset_mortal_id p : Player.id (reset_mortal p) = Player.id p.
Proof. unfold reset_mortal. by case_bool_decide. Qed.

(** C5.  In round_transition, for the god's god_choice: 'stay' is
    rejected, with the error to the caller and the room unchanged, exactly
    when [consecutiveRounds >= MAX_CONSECUTIVE_GOD_ROUNDS - 1] and
    [missedAttacks > 0]; otherwise 'stay' is accepted, sets [hasPenalty],
    increments [consecutiveRounds], resets [missedAttacks] to 0, leaves
    every player's role as it was and starts the next round; and 'cede'
    is accepted, whatever the god history says, whenever the room holds
    a player other than the god to hand the role to. *)
Theorem C5_god_choice_stay_or_cede sid pick r i p gi g gh :
  Room.phase r = round_transition →
  find_player sid (Room.players r) = Some (i, p) →
  Player.role p = Some god →
  sid ≠ "" →
  find_god (Room.players r) = Some (gi, g) →
  Room.godHistory r = Some gh →
  let barred :=
    GodHistory.consecutiveRounds gh >= MAX_CONSECUTIVE_GOD_ROUNDS - 1
    ∧ GodHistory.missedAttacks gh > 0 in
  (barred →
   god_choice sid "stay" pick r
   = Done r [error
       "Cannot stay as God for 3 consecutive rounds after missing"])
  ∧ (¬ barred →
     ∃ r', god_choice sid "stay" pick r
           = Done r' [round_started (Room.currentRound r + 1)]
       ∧ Room.godHistory r'
         = Some (GodHistory.mk (GodHistory.playerId gh)
                   (GodHistory.consecutiveRounds gh + 1) true 0)
       ∧ Player.role <$> Room.players r' = Player.role <$> Room.players r
       ∧ Player.id <$> Room.players r' = Player.id <$> Room.players r
       ∧ Room.phase r' = setup)
  ∧ ((∃ q, q ∈ Room.players r ∧ Player.id q ≠ Player.id g) →
     ∃ r' newGodId,
       god_choice sid "cede" pick r
       = Done r' [round_started (Room.currentRound r + 1)]
       ∧ Room.godHistory r' = Some (GodHistory.mk newGodId 1 false 0)
       ∧ Room.phase r' = setup).
Proof.
  intros Hph Hp Hr Hsid Hg Hgh barred.
  assert (Hcan : canStay gh = false ↔ barred).
  { unfold canStay, barred. rewrite negb_false_iff, andb_true_iff.
    by rewrite !bool_decide_eq_true. }
  unfold god_choice. rewrite Hph, Hp, Hr, Hgh. decide_closed.
  split_and!.
  - intros Hb. apply Hcan in Hb. by rewrite Hb.
  - intros Hb. destruct (canStay gh) eqn:E; [|by destruct Hb; apply Hcan].
    cbn. assert (Player.id p = sid) as ->
      by (by apply list_find_Some in Hp as (_ & ? & _)).
    rewrite startNextRound_keep by done. eexists. split; [done|]. cbn.
    split_and!; try done.
    + rewrite <-list_fmap_compose. apply list_fmap_ext.
      intros ? ? _. cbn. apply reset_mortal_role.
    + rewrite <-list_fmap_compose. apply list_fmap_ext.
      intros ? ? _. cbn. apply reset_mortal_id.
  - intros Hq.
    destruct (startNextRound_cede r pick gi g Hg Hq)
      as (r' & ni & newGod & -> & ? & ? & _).
    by exists r', (Player.id newGod).
Qed.

(** After a round of three misses the god may not stay. *)
Lemma C5_witness :
  god_choice "h" "stay" 0 stalemate_room
  = Done stalemate_room
      [error "Cannot stay as God for 3 consecutive rounds after missing"].
Proof.
  refine (proj1 (C5_god_choice_stay_or_cede "h" 0%nat stalemate_room 0%nat hal
                   0%nat hal (GodHistory.mk "h" 1 false 3) _ _ _ _ _ _) _).
  - by vm_compute.
  - by vm_compute.
  - reflexivity.
  - discriminate.
  - by vm_compute.
  - by vm_compute.
  - by vm_compute.
Defined.

(** C5 (as stated) fails: 'cede' is not always accepted in the barred
    state.  In the example the mortals survive a round of three misses
    and then leave.  The god, alone in the room, has reigned one round
    and missed three times, so 'stay' is rejected; and 'cede' is not
    accepted either: with nobody to take the role the handler throws
    where it dereferences the new god, after it has advanced the round
    and demoted the old one, and emits nothing. *)
Lemma C5_counterexample :
  (∃ evs,
     run local_only
       (opening ++ missed_round
          ++ [("a", Disconnect); ("b", Disconnect); ("c", Disconnect)])%list
       (createRoom "ABC123" "h" "Hal")
     = Done deserted_room evs)
  ∧ Room.phase deserted_room = round_transition
  ∧ Room.players deserted_room = [hal]
  ∧ Room.godHistory deserted_room = Some (GodHistory.mk "h" 1 false 3)
  ∧ 1 >= MAX_CONSECUTIVE_GOD_ROUNDS - 1
  ∧ 3 > 0
  ∧ god_choice "h" "stay" 0 deserted_room
    = Done deserted_room
        [error "Cannot stay as God for 3 consecutive rounds after missing"]
  ∧ ∃ r', god_choice "h" "cede" 0 deserted_room = Crash r' []
          ∧ Room.currentRound r' = Room.currentRound deserted_room + 1
          ∧ Player.role <$> Room.players r' = [Some mortal].
Proof.
  split; [eexists; by vm_compute|].
  split_and!; try (by vm_compute).
  eexists. split; [by vm_compute|]. split; by vm_compute.
Qed.

(** ** The verification budget *)

Lemma settle_verification_budget r i c :
  Room.verificationsRemaining (settle_verification r i c)
  = Room.verificationsRemaining r - 1.
Proof.
  unfold settle_verification. cbn.
  destruct (truthy (Claim.isTrue c) && Claim.isSelfClaim c); [|done].
  match goal with |- context [addScore ?r' ?pid ?a ?p ?rd ?t] =>
    destruct (addScore_shape r' pid a p rd t) as [m ->] end.
  done.
Qed.

Lemma settle_verification_claims r i c :
  Room.claims (settle_verification r i c) = <[i := c]> (Room.claims r).
Proof.
  unfold settle_verification. cbn.
  destruct (truthy (Claim.isTrue c) && Claim.isSelfClaim c); [|done].
  match goal with |- context [addScore ?r' ?pid ?a ?p ?rd ?t] =>
    destruct (addScore_shape r' pid a p rd t) as [m ->] end.
  done.
Qed.



Lemma after_emitting_Done evs o r' evs' :
  after_emitting evs o = Done r' evs' →
  ∃ evs0, o = Done r' evs0 ∧ evs' = (evs ++ evs0)%list.
Proof. destruct o; cbn; intros [=]; subst; by eexists. Qed.

Lemma handleEndOfRound_cases r w r' evs :
  handleEndOfRound r w = Done r' evs →
  Room.turn r' = Room.turn r
  ∧ Room.verificationsRemaining r' = Room.verificationsRemaining r
  ∧ Room.currentRound r' = Room.currentRound r
  ∧ Room.players r' = Room.players r
  ∧ (if bool_decide (Room.currentRound r >= Room.totalRounds r)
     then Room.phase r' = ended else Room.phase r' = round_transition).
Proof.
  unfold handleEndOfRound. case_bool_decide.
  - by intros [= <- <-].
  - repeat case_match; intros [= <- <-]; done.
Qed.

Lemma check_end_of_round_cases r r' evs :
  check_end_of_round r = Done r' evs →
  Room.currentRound r' = Room.currentRound r
  ∧ Room.players r' = Room.players r
  ∧ ((aliveMortals (Room.players r) ≠ [] ∧ Room.turn r < TURNS_PER_ROUND
      ∧ Room.phase r' = claiming
      ∧ Room.turn r' = Room.turn r + 1
      ∧ Room.verificationsRemaining r' = Room.verificationsRemaining r + 2)
     ∨ ((aliveMortals (Room.players r) = []
         ∨ Room.turn r >= TURNS_PER_ROUND)
        ∧ Room.turn r' = Room.turn r
        ∧ Room.verificationsRemaining r' = Room.verificationsRemaining r
        ∧ (if bool_decide (Room.currentRound r >= Room.totalRounds r)
           then Room.phase r' = ended
           else Room.phase r' = round_transition))).
Proof.
  unfold check_end_of_round. case_bool_decide as Ha.
  - intros (? & ? & ? & ? & ?)%handleEndOfRound_cases.
    split_and!; [done..|]. right. split_and!; try done.
    left. by apply nil_length_inv.
  - case_bool_decide as Ht.
    + intros (? & ? & ? & ? & ?)%handleEndOfRound_cases.
      split_and!; [done..|]. right. split_and!; try done. by right.
    + intros [= <- <-]. cbn. split_and!; [done..|]. left.
      split_and!; try done; [|lia]. intros E. apply Ha. by rewrite E.
Qed.

Lemma scored_rest godId hit gh rk :
  let rs := survival_points (god_points godId hit gh rk) in
  Room.turn rs = Room.turn rk
  ∧ Room.verificationsRemaining rs = Room.verificationsRemaining rk
  ∧ Room.currentRound rs = Room.currentRound rk
  ∧ Room.totalRounds rs = Room.totalRounds rk
  ∧ Room.players rs = Room.players rk.
Proof.
  intros rs. unfold rs.
  destruct (god_points_shape godId hit gh rk) as [m1 Hm1].
  destruct (survival_points_shape (god_points godId hit gh rk)) as [m2 ->].
  by rewrite Hm1.
Qed.

(** What an attack does to the turn, the phase and the budget: nothing at
    all when the command is ignored; otherwise either the round goes on
    (next turn, claiming, two more verifications) or it is over (same
    turn, same budget, phase round_transition, or ended after the last
    round). *)
Lemma attack_cell_cases sid cell r r' evs :
  attack_cell sid cell r = Done r' evs →
  (r' = r ∧ evs = [])
  ∨ (Room.phase r = deduction
     ∧ Room.currentRound r' = Room.currentRound r
     ∧ ((Room.turn r < TURNS_PER_ROUND
         ∧ Room.phase r' = claiming
         ∧ Room.turn r' = Room.turn r + 1
         ∧ Room.verificationsRemaining r'
           = Room.verificationsRemaining r + 2)
        ∨ (Room.turn r' = Room.turn r
           ∧ Room.verificationsRemaining r' = Room.verificationsRemaining r
           ∧ (if bool_decide (Room.currentRound r >= Room.totalRounds r)
              then Room.phase r' = ended
              else Room.phase r' = round_transition)))).
Proof.
  unfold attack_cell. case_bool_decide as Hph; [intros [= <- <-]; by left|].
  destruct (find_player sid (Room.players r)) as [[i p]|];
    [|intros [= <- <-]; by left].
  case_bool_decide; [intros [= <- <-]; by left|].
  destruct (find_god (Room.players r)) as [[gi g]|]; [|done].
  set (hp := list_find (λ q, Player.position q = cell) (Room.players r)).
  destruct (Room.godHistory (strike cell hp r)) as [gh|]; [|done].
  intros (evs0 & Hc & ->)%after_emitting_Done.
  apply check_end_of_round_cases in Hc as (Hcr & _ & Hc).
  destruct (scored_rest (Player.id g) (bool_decide (is_Some hp)) gh
              (strike cell hp r)) as (Ht & Hv & Hr & Htr & _).
  destruct (strike_rest cell hp r) as (_ & _ & Ht' & _ & Hr' & Hv').
  rewrite Ht, Hv, Hr, Htr, Ht', Hv', Hr' in *.
  assert (Room.totalRounds (strike cell hp r) = Room.totalRounds r) as Htr'
    by (unfold strike; by destruct hp as [[??]|]).
  rewrite Htr' in Hc.
  right. split; [by destruct (decide (Room.phase r = deduction))|].
  split; [done|].
  destruct Hc as [(_ & ? & ? & ? & ?)|(_ & ? & ? & ?)]; [left|right]; done.
Qed.

Lemma startNextRound_fields r keepGodId pick r' evs :
  startNextRound r keepGodId pick = Done r' evs →
  Room.verificationsRemaining r' = 2
  ∧ Room.currentRound r' = Room.currentRound r + 1
  ∧ Room.turn r' = 1
  ∧ Room.phase r' = setup
  ∧ Room.claims r' = [] ∧ Room.attacks r' = [].
Proof.
  unfold startNextRound. destruct (keeps_god keepGodId).
  - by intros [= <- <-].
  - repeat case_match; intros; by simplify_eq.
Qed.






(** ** Submitting claims *)

(** Past the claimant checks, [submit_claim] is its tail: the target
    check, the self-adjacency check, the duplicate check, the push. *)
Lemma submit_claim_past_claimant sid claimType claimValue tid zk r :
  may_claim sid r →
  ∃ i p,
    find_player sid (Room.players r) = Some (i, p)
    ∧ submit_claim sid claimType claimValue tid zk r
      = match find_player tid (Room.players r) with
        | None => Done r [error "Invalid target player"]
        | Some (_, targetPlayer) =>
            if bool_decide (Player.role targetPlayer ≠ Some mortal) then
              Done r [error "Invalid target player"] else
            if bool_decide (claimType = CLAIM_TYPES.ADJACENT)
               && bool_decide (tid = sid) then
              Done r [error "Cannot claim to be adjacent to yourself"] else
            if claimExists (Room.claims r) tid claimType claimValue
            then Done r [error "This claim was already made"] else
            let claim :=
              Claim.mk
                (Room.code r +:+ "-" +:+ pretty (Room.turn r) +:+ "-" +:+ sid)
                sid (Player.name p) tid (Player.name targetPlayer)
                claimType claimValue false JNull (Room.turn r)
                (bool_decide (tid = sid))
                (if hasProof zk then zk else None) false None None in
            let r' := Room.set_claims (Room.claims r ++ [claim])%list r in
            if bool_decide
                 (Z.of_nat (length (filter (λ c, Claim.turn c = Room.turn r)
                                      (Room.claims r')))
                  >= Z.of_nat (length (aliveMortals (Room.players r')))) then
              Done (Room.set_phase deduction r')
                   [phase_changed deduction; claim_submitted claim]
            else Done r' [claim_submitted claim]
        end.
Proof.
  intros (Hph & (i & p & Hp & Hr & Hpos) & Hone).
  exists i, p. split; [done|]. unfold submit_claim.
  rewrite Hph, Hp, Hr. decide_closed.
  unfold strict_eq. rewrite (bool_decide_eq_false_2 _ Hpos).
  by rewrite (bool_decide_eq_false_2 _ Hone).
Qed.

Lemma claimExists_true claims tid claimType claimValue :
  claimExists claims tid claimType claimValue = true
  ↔ ∃ c, c ∈ claims ∧ same_claim tid claimType claimValue c.
Proof.
  unfold claimExists. rewrite bool_decide_eq_true, Exists_exists. done.
Qed.

(** Whatever else holds, a claim that repeats a stored triple, or that
    targets somebody who is not a mortal, leaves the room as it was. *)
Lemma submit_claim_rejects sid claimType claimValue tid zk r :
  claimExists (Room.claims r) tid claimType claimValue = true
  ∨ targets_mortal tid (Room.players r) = false →
  ∃ evs, submit_claim sid claimType claimValue tid zk r = Done r evs.
Proof.
  intros Hrej. unfold submit_claim, targets_mortal in *.
  case_bool_decide; [by eexists|].
  destruct (find_player sid (Room.players r)) as [[i p]|]; [|by eexists].
  case_bool_decide; [by eexists|].
  destruct (strict_eq (Player.position p) JNull); [by eexists|].
  destruct (bool_decide (Exists _ (Room.claims r))); [by eexists|].
  destruct (find_player tid (Room.players r)) as [[k t]|]; [|by eexists].
  destruct (decide (Player.role t = Some mortal)) as [Hm|Hm]; cycle 1.
  { rewrite bool_decide_eq_true_2 by done. by eexists. }
  rewrite (bool_decide_eq_false_2 (Player.role t ≠ Some mortal)) by tauto.
  destruct (_ && _); [by eexists|].
  destruct (claimExists _ _ _ _); [by eexists|].
  exfalso. destruct Hrej as [?|Hrej]; [done|].
  by apply bool_decide_eq_false in Hrej.
Qed.

Lemma targets_mortal_true tid ps :
  targets_mortal tid ps = true
  ↔ ∃ k t, find_player tid ps = Some (k, t) ∧ Player.role t = Some mortal.
Proof.
  unfold targets_mortal. destruct (find_player tid ps) as [[k t]|].
  - rewrite bool_decide_eq_true. split; [by exists k, t|].
    by intros (? & ? & [= <- <-] & ?).
  - split; [done|]. by intros (? & ? & ? & _).
Qed.

(** A claim that passes every check is stored, with the current turn. *)
Lemma submit_claim_accepted sid claimType claimValue tid zk r :
  may_claim sid r →
  targets_mortal tid (Room.players r) = true →
  ¬ (claimType = CLAIM_TYPES.ADJACENT ∧ tid = sid) →
  claimExists (Room.claims r) tid claimType claimValue = false →
  ∃ r' evs c,
    submit_claim sid claimType claimValue tid zk r = Done r' evs
    ∧ Room.claims r' = (Room.claims r ++ [c])%list
    ∧ same_claim tid claimType claimValue c
    ∧ Claim.playerId c = sid
    ∧ Claim.turn c = Room.turn r
    ∧ claim_submitted c ∈ evs.
Proof.
  intros Hmay (k & t & Ht & Hrole)%targets_mortal_true Hself Hdup.
  destruct (submit_claim_past_claimant sid claimType claimValue tid zk r Hmay)
    as (i & p & _ & ->).
  rewrite Ht, Hdup.
  rewrite (bool_decide_eq_false_2 (Player.role t ≠ Some mortal))
    by (intros ?; done).
  assert (bool_decide (claimType = CLAIM_TYPES.ADJACENT)
          && bool_decide (tid = sid) = false) as ->.
  { apply andb_false_iff. rewrite !bool_decide_eq_false.
    destruct (decide (claimType = CLAIM_TYPES.ADJACENT)); [right|left]; tauto. }
  cbv zeta. case_bool_decide.
  - eexists _, _, _. split; [reflexivity|]. cbn. split_and!; try done.
    apply elem_of_cons; right. apply list_elem_of_singleton. done.
  - eexists _, _, _. split; [reflexivity|]. cbn. split_and!; try done.
    by apply list_elem_of_singleton.
Qed.

Lemma submit_claim_duplicate sid claimType claimValue tid zk r :
  may_claim sid r →
  targets_mortal tid (Room.players r) = true →
  ¬ (claimType = CLAIM_TYPES.ADJACENT ∧ tid = sid) →
  claimExists (Room.claims r) tid claimType claimValue = true →
  submit_claim sid claimType claimValue tid zk r
  = Done r [error "This claim was already made"].
Proof.
  intros Hmay (k & t & Ht & Hrole)%targets_mortal_true Hself Hdup.
  destruct (submit_claim_past_claimant sid claimType claimValue tid zk r Hmay)
    as (i & p & _ & ->).
  rewrite Ht, Hdup.
  rewrite (bool_decide_eq_false_2 (Player.role t ≠ Some mortal))
    by (intros ?; done).
  assert (bool_decide (claimType = CLAIM_TYPES.ADJACENT)
          && bool_decide (tid = sid) = false) as ->; [|done].
  apply andb_false_iff. rewrite !bool_decide_eq_false.
  destruct (decide (claimType = CLAIM_TYPES.ADJACENT)); [right|left]; tauto.
Qed.

(** C7 (as amended).  submit_claim rejects a claim, with an error and no
    mutation, when an identical (target, type, value) triple is already
    among the room's claims, whoever made it and in whichever turn: the
    claims of earlier turns of the round are still in the room and count
    like those of the current turn.  A claim whose triple is not in the
    room passes this check and is stored. *)
Theorem C7_duplicate_triple_rejected_in_any_turn :
  (∀ sid claimType claimValue tid zk r,
     (∃ c, c ∈ Room.claims r ∧ same_claim tid claimType claimValue c) →
     ∃ evs, submit_claim sid claimType claimValue tid zk r = Done r evs)
  ∧ (∀ sid claimType claimValue tid zk r,
       may_claim sid r →
       targets_mortal tid (Room.players r) = true →
       ¬ (claimType = CLAIM_TYPES.ADJACENT ∧ tid = sid) →
       (∃ c, c ∈ Room.claims r ∧ same_claim tid claimType claimValue c) →
       submit_claim sid claimType claimValue tid zk r
       = Done r [error "This claim was already made"])
  ∧ (∀ sid claimType claimValue tid zk r,
       may_claim sid r →
       targets_mortal tid (Room.players r) = true →
       ¬ (claimType = CLAIM_TYPES.ADJACENT ∧ tid = sid) →
       ¬ (∃ c, c ∈ Room.claims r ∧ same_claim tid claimType claimValue c) →
       ∃ r' evs c,
         submit_claim sid claimType claimValue tid zk r = Done r' evs
         ∧ Room.claims r' = (Room.claims r ++ [c])%list
         ∧ same_claim tid claimType claimValue c
         ∧ Claim.playerId c = sid
         ∧ Claim.turn c = Room.turn r
         ∧ claim_submitted c ∈ evs).
Proof.
  split_and!.
  - intros sid ct cv tid zk r Hc. apply submit_claim_rejects. left.
    by apply claimExists_true.
  - intros sid ct cv tid zk r Hmay Ht Hself Hc.
    apply submit_claim_duplicate; [done..|]. by apply claimExists_true.
  - intros sid ct cv tid zk r Hmay Ht Hself Hc.
    apply submit_claim_accepted; [done..|].
    destruct (claimExists _ _ _ _) eqn:E; [|done].
    by apply claimExists_true in E.
Qed.

(** In the second turn, [a] repeats the claim that [b] made about
    themselves in the first turn. *)
Lemma C7_witness :
  submit_claim "a" "column" (JNum 2) "b" None second_turn_room
  = Done second_turn_room [error "This claim was already made"].
Proof.
  apply (proj1 (proj2 C7_duplicate_triple_rejected_in_any_turn)).
  - split; [by vm_compute|]. split.
    + eexists _, _. split; [by vm_compute|]. split; [reflexivity|discriminate].
    + apply (bool_decide_unpack _). by vm_compute.
  - by vm_compute.
  - intros [? _]; discriminate.
  - exists (Claim.mk "ABC123-1-b" "b" "Bob" "b" "Bob" "column" (JNum 2)
              false JNull 1 true None false None None).
    split; [|split_and!; reflexivity].
    apply list_elem_of_lookup. exists 1%nat. by vm_compute.
Defined.

(** C7 (as stated) fails: in the second turn of the example round no
    claim of that turn exists yet, the only claim with target [b], type
    column and value 2 was made in the first turn, and [a]'s claim of the
    same triple is rejected on the ground of being a duplicate. *)
Lemma C7_counterexample :
  Room.phase second_turn_room = claiming
  ∧ Room.turn second_turn_room = 2
  ∧ Forall (λ c, Claim.turn c = 1) (Room.claims second_turn_room)
  ∧ submit_claim "a" "column" (JNum 2) "b" None second_turn_room
    = Done second_turn_room [error "This claim was already made"].
Proof.
  split_and!; try by vm_compute.
  apply (bool_decide_unpack _). by vm_compute.
Qed.

Lemma submit_claim_invalid_target sid claimType claimValue tid zk r :
  may_claim sid r →
  targets_mortal tid (Room.players r) = false →
  submit_claim sid claimType claimValue tid zk r
  = Done r [error "Invalid target player"].
Proof.
  intros Hmay Ht.
  destruct (submit_claim_past_claimant sid claimType claimValue tid zk r Hmay)
    as (i & p & _ & ->).
  unfold targets_mortal in Ht.
  destruct (find_player tid (Room.players r)) as [[k t]|]; [|done].
  apply bool_decide_eq_false in Ht. by rewrite bool_decide_eq_true_2.
Qed.

(** C8 (as amended).  submit_claim rejects a claim, with the error
    "Invalid target player" and no mutation, whenever the target is not a
    mortal: the id names no player of the room, or a player whose role is
    not mortal.  The target's position is not examined: a claim about a
    mortal who is dead (position none) passes this check like a claim
    about a living one, and is stored if it passes the remaining two. *)
Theorem C8_target_must_be_a_mortal_dead_or_alive :
  (∀ sid claimType claimValue tid zk r,
     targets_mortal tid (Room.players r) = false →
     ∃ evs, submit_claim sid claimType claimValue tid zk r = Done r evs)
  ∧ (∀ sid claimType claimValue tid zk r,
       may_claim sid r →
       targets_mortal tid (Room.players r) = false →
       submit_claim sid claimType claimValue tid zk r
       = Done r [error "Invalid target player"])
  ∧ (∀ sid claimType claimValue tid zk r k t,
       may_claim sid r →
       find_player tid (Room.players r) = Some (k, t) →
       Player.role t = Some mortal →
       Player.position t = JNull →
       ¬ (claimType = CLAIM_TYPES.ADJACENT ∧ tid = sid) →
       claimExists (Room.claims r) tid claimType claimValue = false →
       ∃ r' evs c,
         submit_claim sid claimType claimValue tid zk r = Done r' evs
         ∧ Room.claims r' = (Room.claims r ++ [c])%list
         ∧ Claim.targetPlayerId c = tid
         ∧ Claim.playerId c = sid
         ∧ claim_submitted c ∈ evs).
Proof.
  split_and!.
  - intros sid ct cv tid zk r Ht. apply submit_claim_rejects. by right.
  - apply submit_claim_invalid_target.
  - intros sid ct cv tid zk r k t Hmay Ht Hrole _ Hself Hdup.
    destruct (submit_claim_accepted sid ct cv tid zk r)
      as (r' & evs & c & Hs & Hc & (Htid & _) & Hsid & _ & Hev);
      [done| |done..|].
    { apply targets_mortal_true. by exists k, t. }
    by exists r', evs, c.
Qed.

(** The god is no valid target. *)
Lemma C8_witness :
  submit_claim "a" "row" (JNum 1) "h" None second_turn_room
  = Done second_turn_room [error "Invalid target player"].
Proof.
  apply (proj1 (proj2 C8_target_must_be_a_mortal_dead_or_alive)).
  - split; [by vm_compute|]. split.
    + eexists _, _. split; [by vm_compute|]. split; [reflexivity|discriminate].
    + apply (bool_decide_unpack _). by vm_compute.
  - by vm_compute.
Defined.

(** C8 (as stated) fails: after the god found [b], whose position is now
    none, [a]'s claim about [b] is accepted and stored. *)
Lemma C8_counterexample :
  Room.phase bereft_room = claiming
  ∧ (λ p, (Player.id p, Player.role p, Player.position p))
      <$> Room.players bereft_room
    = [ ("h", Some god, JNull); ("a", Some mortal, JNum 1);
        ("b", Some mortal, JNull); ("c", Some mortal, JNum 3) ]
  ∧ ∃ r' c,
      submit_claim "a" "row" (JNum 3) "b" None bereft_room
      = Done r' [claim_submitted c]
      ∧ Claim.targetPlayerId c = "b"
      ∧ Room.claims r' = (Room.claims bereft_room ++ [c])%list.
Proof.
  split; [by vm_compute|]. split; [by vm_compute|].
  eexists _, _. split; [by vm_compute|]. split; by vm_compute.
Qed.

(** ** Living mortals *)




(** ** Who stands on the grid *)

Lemma only_mortals_placed_Forall ps :
  only_mortals_placed ps
  ↔ Forall (λ q, Player.position q ≠ JNull → Player.role q = Some mortal) ps.
Proof. unfold only_mortals_placed. by rewrite Forall_forall. Qed.

Lemma placement_sound_same r r' :
  Room.players r' = Room.players r →
  (Room.phase r' = lobby → Room.phase r = lobby) →
  placement_sound r → placement_sound r'.
Proof. unfold placement_sound. intros -> Hph [? ?]. split; auto. Qed.

Lemma placement_sound_alter (f : Player.t → Player.t) i r r' :
  Room.players r' = alter f i (Room.players r) →
  (Room.phase r' = lobby → Room.phase r = lobby) →
  (∀ q, Player.role (f q) = Player.role q) →
  (∀ q, Player.position (f q) = Player.position q) →
  placement_sound r → placement_sound r'.
Proof.
  unfold placement_sound. intros -> Hph Hrole Hpos [Hm Hl]. split.
  - apply only_mortals_placed_Forall, Forall_alter.
    + by apply only_mortals_placed_Forall.
    + intros q _. by rewrite Hrole, Hpos.
  - intros Hp. apply Forall_alter; [auto|].
    intros q _. by rewrite Hpos.
Qed.

Lemma placement_sound_cleared r' :
  Room.phase r' ≠ lobby →
  Forall (λ q, Player.position q ≠ JNull → Player.role q = Some mortal)
    (Room.players r') →
  placement_sound r'.
Proof.
  intros Hph Hm. split; [by apply only_mortals_placed_Forall|done].
Qed.

Lemma reset_mortal_sound q :
  (Player.position q ≠ JNull → Player.role q = Some mortal) →
  Player.position (reset_mortal q) ≠ JNull →
  Player.role (reset_mortal q) = Some mortal.
Proof. unfold reset_mortal. by case_bool_decide. Qed.

Lemma startNextRound_sound r keepGodId pick r' evs :
  placement_sound r →
  startNextRound r keepGodId pick = Done r' evs →
  placement_sound r'.
Proof.
  intros [Hm%only_mortals_placed_Forall _] Hs.
  apply placement_sound_cleared.
  { apply startNextRound_phase in Hs. by rewrite Hs. }
  revert Hs. unfold startNextRound. destruct (keeps_god keepGodId).
  - intros [= <- <-]. cbn. apply Forall_fmap.
    eapply Forall_impl; [done|]. intros q Hq. cbn.
    by apply reset_mortal_sound.
  - cbn. repeat case_match; try done.
    all: intros [= <- <-]; cbn; apply Forall_fmap.
    all: eapply Forall_impl;
      [|intros q Hq; cbn; apply reset_mortal_sound, Hq].
    all: apply Forall_alter; [apply Forall_alter; [done|]|]; by intros.
Qed.

Lemma attack_cell_sound sid cell r r' evs :
  placement_sound r →
  attack_cell sid cell r = Done r' evs →
  placement_sound r'.
Proof.
  intros Hinv Ha.
  pose proof (attack_cell_cases _ _ _ _ _ Ha) as HH.
  destruct HH as [HH|HH]. { destruct HH as [-> _]. done. }
  destruct HH as [Hd [_ Hc]].
  apply placement_sound_cleared.
  { destruct Hc as [(_ & -> & _)|(_ & _ & Hc)]; [done|].
    case_bool_decide; by rewrite Hc. }
  revert Ha. unfold attack_cell. rewrite Hd. decide_closed.
  destruct (find_player sid (Room.players r)) as [[i p]|];
    [|by intros [= <- <-]; apply only_mortals_placed_Forall, Hinv].
  destruct (decide (Player.role p = Some god)) as [Hr|Hr]; cycle 1.
  { rewrite bool_decide_eq_true_2 by done.
    by intros [= <- <-]; apply only_mortals_placed_Forall, Hinv. }
  rewrite (bool_decide_eq_false_2 (Player.role p ≠ Some god)) by tauto.
  destruct (find_god (Room.players r)) as [[gi g]|]; [|done].
  set (hp := list_find (λ q, Player.position q = cell) (Room.players r)).
  destruct (Room.godHistory (strike cell hp r)) as [gh|]; [|done].
  intros (evs0 & Hc' & _)%after_emitting_Done.
  apply check_end_of_round_cases in Hc' as (_ & -> & _).
  rewrite (proj2 (proj2 (proj2 (proj2 (scored_rest _ _ _ _))))).
  rewrite strike_players.
  destruct Hinv as [Hm%only_mortals_placed_Forall _].
  destruct hp as [[j x]|]; [|done].
  apply Forall_alter; [done|]. by intros.
Qed.

Lemma settle_verification_players r i c :
  Room.players (settle_verification r i c) = Room.players r
  ∧ Room.phase (settle_verification r i c) = Room.phase r.
Proof.
  unfold settle_verification. cbn.
  destruct (truthy (Claim.isTrue c) && Claim.isSelfClaim c); [|done].
  match goal with |- context [addScore ?r' ?pid ?a ?p ?rd ?t] =>
    destruct (addScore_shape r' pid a p rd t) as [m ->] end.
  done.
Qed.

Lemma verify_claim_players cfg sid claimId relay r r' evs :
  verify_claim cfg sid claimId relay r = Done r' evs →
  Room.players r' = Room.players r ∧ Room.phase r' = Room.phase r.
Proof.
  unfold verify_claim.
  repeat case_match; intros [= <- <-]; try done;
    apply settle_verification_players.
Qed.

Lemma createRoom_sound code hostId hostName :
  placement_sound (createRoom code hostId hostName).
Proof.
  split.
  - intros q ->%list_elem_of_singleton. done.
  - intros _. by repeat constructor.
Qed.

(** As long as start_game is issued in the lobby only, every command
    keeps the grid to the mortals. *)
Lemma placement_sound_step cfg sid cmd r r' evs :
  placement_sound r →
  (∀ shuffled, cmd = Start_game shuffled → Room.phase r = lobby) →
  handle cfg sid cmd r = Done r' evs →
  placement_sound r'.
Proof.
  intros Hinv Hstart. destruct cmd; cbn [handle]; intros Hh.
  - unfold join_room in Hh. repeat case_bool_decide; simplify_eq; try done.
    destruct Hinv as [Hm Hl]. split; cbn.
    + intros q [Hq|Hq%list_elem_of_singleton]%elem_of_app;
        [by apply Hm|by subst].
    + intros _. apply Forall_app. split; [|by repeat constructor].
      apply Hl. by destruct (decide (Room.phase r = lobby)).
  - unfold toggle_ready in Hh.
    destruct (find_player sid (Room.players r)) as [[i p]|];
      simplify_eq; [|done].
    by eapply placement_sound_alter.
  - unfold set_round_config in Hh. repeat case_match; by simplify_eq.
  - specialize (Hstart _ eq_refl).
    pose proof (proj2 Hinv Hstart) as Hl.
    unfold start_game in Hh.
    repeat case_match; simplify_eq; try done.
    apply placement_sound_cleared; [done|]; cbn.
    eapply (Forall_impl (λ q, Player.position q = JNull));
      [|by intros q Hq Hne].
    repeat (apply Forall_alter; [|by intros]). done.
  - unfold select_position in Hh.
    case_bool_decide as Hph; [by simplify_eq|].
    destruct (find_player sid (Room.players r)) as [[i p]|] eqn:Hp;
      [|by simplify_eq].
    destruct (decide (Player.role p = Some mortal)) as [Hr|Hr]; cycle 1.
    { rewrite bool_decide_eq_true_2 in Hh by done. by simplify_eq. }
    rewrite (bool_decide_eq_false_2 (Player.role p ≠ Some mortal)) in Hh
      by tauto.
    destruct (bool_decide (Exists _ (Room.players r))); [by simplify_eq|].
    apply list_find_Some in Hp as (Hi & _).
    destruct Hinv as [Hm%only_mortals_placed_Forall _].
    assert (Room.phase r = setup) as Hs
      by (destruct (decide (Room.phase r = setup)); [done|tauto]).
    cbn in Hh. case_bool_decide; simplify_eq.
    all: apply placement_sound_cleared; cbn; [by rewrite ?Hs|].
    all: apply Forall_alter; [done|].
    all: intros q Hq _ _; by simplify_eq.
  - unfold submit_claim in Hh.
    repeat case_match; simplify_eq; try done.
    all: by apply (placement_sound_same r).
  - unfold submit_claim_blockchain in Hh.
    repeat case_match; simplify_eq; try done.
  - destruct (verify_claim_players _ _ _ _ _ _ _ Hh) as [Hps Hph].
    revert Hinv. apply placement_sound_same; [done|by rewrite Hph].
  - by eapply attack_cell_sound.
  - unfold god_choice in Hh.
    repeat case_match; simplify_eq; try done.
    all: eapply startNextRound_sound; [|done]; try done.
    all: by apply (placement_sound_same r).
  - unfold disconnect in Hh.
    destruct (find_player sid (Room.players r)) as [[i p]|];
      [|by simplify_eq].
    destruct (delete i (Room.players r)) as [|p0 ps] eqn:E; [done|].
    destruct Hinv as [Hm%only_mortals_placed_Forall Hl].
    pose proof (Forall_delete _ _ i Hm) as Hm'. rewrite E in Hm'.
    assert (Hl' : Room.phase r = lobby →
                  Forall (λ q, Player.position q = JNull) (p0 :: ps)).
    { intros Hph. rewrite <-E. by apply Forall_delete, Hl. }
    case_bool_decide; simplify_eq;
      (split; [apply only_mortals_placed_Forall|]); cbn; try done.
    + apply Forall_cons in Hm' as [? ?]. by constructor.
    + intros Hph. specialize (Hl' Hph).
      apply Forall_cons in Hl' as [? ?]. by constructor.
  - unfold auto_start in Hh. case_bool_decide; [|by simplify_eq].
    by eapply startNextRound_sound.
  - unfold registration_settled in Hh. repeat case_match; by simplify_eq.
Qed.


(** ** Score entries *)

Lemma init_scores_covers ps q :
  q ∈ ps → is_Some ((init_scores ps).1 !! Player.id q).
Proof.
  unfold init_scores.
  assert (∀ acc k,
            is_Some (acc.1 !! k) ∨ k ∈ Player.id <$> ps →
            is_Some ((foldl (λ (acc : gmap string PlayerScore.t * list string) p,
                        let '(m, ks) := acc in
                        (<[Player.id p :=
                             PlayerScore.mk (Player.id p) (Player.name p) 0 []]>
                           m,
                         if bool_decide (Player.id p ∈ ks) then ks
                         else (ks ++ [Player.id p])%list)) acc ps).1 !! k))
    as Hgen.
  { induction ps as [|x ps IH]; intros [m ks] k Hk; cbn.
    - destruct Hk as [?|Hk]; [done|]. by apply elem_of_nil in Hk.
    - apply IH. cbn. destruct (decide (Player.id x = k)) as [->|Hne].
      + left. rewrite lookup_insert_eq. by eexists.
      + rewrite lookup_insert_ne by done.
        destruct Hk as [?|Hk]; [by left|].
        cbn in Hk. apply elem_of_cons in Hk as [?|?]; [congruence|by right]. }
  intros Hq. apply Hgen. right. by apply list_elem_of_fmap_2.
Qed.

Lemma covers_transfer r r' :
  (∀ k, k ∈ Player.id <$> Room.players r' →
        k ∈ Player.id <$> Room.players r) →
  (∀ k, is_Some (Room.scores r !! k) → is_Some (Room.scores r' !! k)) →
  scores_cover_players r → scores_cover_players r'.
Proof.
  intros Hids Hsc Hcov q Hq. apply Hsc.
  destruct (proj1 (list_elem_of_fmap _ _ _)
              (Hids _ (list_elem_of_fmap_2 Player.id _ _ Hq)))
    as (q0 & -> & Hq0).
  by apply Hcov.
Qed.

Lemma survive_loop_is_Some l r k :
  is_Some (Room.scores r !! k) →
  is_Some (Room.scores (survive_loop l r) !! k).
Proof.
  revert r. induction l as [|x l IH]; intros r Hk; [done|].
  rewrite survive_loop_cons. by apply IH, addScore_is_Some.
Qed.

Lemma settle_verification_is_Some r i c k :
  is_Some (Room.scores r !! k) →
  is_Some (Room.scores (settle_verification r i c) !! k).
Proof.
  intros Hk. unfold settle_verification. cbn.
  destruct (truthy (Claim.isTrue c) && Claim.isSelfClaim c); [|done].
  by apply addScore_is_Some.
Qed.

Lemma handleEndOfRound_scores r w r' evs :
  handleEndOfRound r w = Done r' evs → Room.scores r' = Room.scores r.
Proof.
  unfold handleEndOfRound. repeat case_match; intros [= <- <-]; done.
Qed.

Lemma check_end_of_round_scores r r' evs :
  check_end_of_round r = Done r' evs → Room.scores r' = Room.scores r.
Proof.
  unfold check_end_of_round. repeat case_bool_decide.
  - by intros ->%handleEndOfRound_scores.
  - by intros ->%handleEndOfRound_scores.
  - by intros [= <- <-].
Qed.

Lemma attack_cell_frame sid cell r r' evs :
  attack_cell sid cell r = Done r' evs →
  Player.id <$> Room.players r' = Player.id <$> Room.players r
  ∧ ∀ k, is_Some (Room.scores r !! k) → is_Some (Room.scores r' !! k).
Proof.
  unfold attack_cell. case_bool_decide; [by intros [= <- <-]|].
  destruct (find_player sid (Room.players r)) as [[i p]|];
    [|by intros [= <- <-]].
  destruct (decide (Player.role p = Some god)) as [Hr|Hr]; cycle 1.
  { rewrite bool_decide_eq_true_2 by done. by intros [= <- <-]. }
  rewrite (bool_decide_eq_false_2 (Player.role p ≠ Some god)) by tauto.
  destruct (find_god (Room.players r)) as [[gi g]|]; [|done].
  set (hp := list_find (λ q, Player.position q = cell) (Room.players r)).
  destruct (Room.godHistory (strike cell hp r)) as [gh|]; [|done].
  intros (evs0 & Hc & _)%after_emitting_Done.
  pose proof (check_end_of_round_scores _ _ _ Hc) as Hsc.
  apply check_end_of_round_cases in Hc as (_ & Hps & _).
  rewrite Hps, Hsc.
  rewrite (proj2 (proj2 (proj2 (proj2 (scored_rest _ _ _ _))))).
  split; [apply strike_ids|].
  intros k Hk. unfold survival_points.
  apply survive_loop_is_Some, god_points_is_Some.
  by rewrite (proj1 (strike_rest _ _ _)).
Qed.

Lemma startNextRound_frame r keepGodId pick r' evs :
  startNextRound r keepGodId pick = Done r' evs →
  Player.id <$> Room.players r' = Player.id <$> Room.players r
  ∧ Room.scores r' = Room.scores r.
Proof.
  unfold startNextRound. destruct (keeps_god keepGodId).
  - intros [= <- <-]. cbn. split; [|done].
    rewrite <-list_fmap_compose. apply list_fmap_ext.
    intros ? ? _. apply reset_mortal_id.
  - cbn. repeat case_match; try done.
    all: intros [= <- <-]; cbn; split; [|done].
    all: rewrite <-list_fmap_compose.
    all: rewrite (list_fmap_ext (Player.id ∘ reset_mortal) Player.id
                    _ (λ _ x _, reset_mortal_id x)).
    all: by rewrite !fmap_alter_same.
Qed.

(** Outside the lobby no command but start_game brings a new identity
    into the room or drops a score entry. *)
Lemma ids_and_entries_step cfg sid cmd r r' evs :
  (∀ shuffled, cmd ≠ Start_game shuffled) →
  Room.phase r ≠ lobby →
  handle cfg sid cmd r = Done r' evs →
  (∀ k, k ∈ Player.id <$> Room.players r' →
        k ∈ Player.id <$> Room.players r)
  ∧ (∀ k, is_Some (Room.scores r !! k) → is_Some (Room.scores r' !! k)).
Proof.
  intros Hns Hph. destruct cmd; cbn [handle]; intros Hh.
  - unfold join_room in Hh. rewrite (bool_decide_eq_true_2 _ Hph) in Hh.
    case_bool_decide; by simplify_eq.
  - unfold toggle_ready in Hh. repeat case_match; simplify_eq; [|done].
    cbn. by rewrite fmap_alter_same.
  - unfold set_round_config in Hh. repeat case_match; by simplify_eq.
  - by destruct (Hns shuffled).
  - unfold select_position in Hh. repeat case_match; simplify_eq; try done.
    all: cbn; by rewrite fmap_alter_same.
  - unfold submit_claim in Hh. repeat case_match; by simplify_eq.
  - unfold submit_claim_blockchain in Hh. repeat case_match; by simplify_eq.
  - destruct (verify_claim_players _ _ _ _ _ _ _ Hh) as [-> _].
    split; [done|]. unfold verify_claim in Hh.
    repeat case_match; simplify_eq; try done.
    all: intros k Hk; by apply settle_verification_is_Some.
  - apply attack_cell_frame in Hh as [-> ?]. done.
  - unfold god_choice in Hh. repeat case_match; simplify_eq; try done.
    all: apply startNextRound_frame in Hh as [-> ->]; done.
  - unfold disconnect in Hh.
    destruct (find_player sid (Room.players r)) as [[i p]|];
      [|by simplify_eq].
    destruct (delete i (Room.players r)) as [|p0 ps] eqn:E; [done|].
    assert (∀ k, k ∈ Player.id <$> p0 :: ps →
                 k ∈ Player.id <$> Room.players r) as Hsub.
    { intros k Hk. rewrite <-E in Hk.
      eapply elem_of_sublist; [done|].
      apply fmap_sublist, sublist_delete. }
    case_bool_decide; simplify_eq; cbn; done.
  - unfold auto_start in Hh. case_bool_decide; [|by simplify_eq].
    apply startNextRound_frame in Hh as [-> ->]. done.
  - unfold registration_settled in Hh. repeat case_match; by simplify_eq.
Qed.

(** In every room reached by the book, once the game has started every
    player has a score entry. *)
Lemma by_the_book_covered cfg r :
  by_the_book cfg r → Room.phase r ≠ lobby → scores_cover_players r.
Proof.
  induction 1 as [code hostId hostName|r sid cmd r' evs _ IH Hstart Hh];
    [done|].
  intros Hph.
  destruct (decide (Room.phase r = lobby)) as [Hl|Hl].
  - destruct (lobby_left_only_by_start_game _ _ _ _ _ _ Hl Hh Hph)
      as [[shuffled ->] _].
    cbn [handle] in Hh. unfold start_game in Hh.
    repeat case_match; simplify_eq; try done.
    intros q Hq. cbn in Hq |- *.
    match goal with H : init_scores ?ps = _ |- _ =>
      pose proof (init_scores_covers ps q Hq) as Hc; by rewrite H in Hc end.
  - destruct (ids_and_entries_step cfg sid cmd r r' evs) as [Hids Hsc];
      [|done..|].
    { intros shuffled ->. by specialize (Hstart _ eq_refl). }
    eapply covers_transfer; [done..|]. by apply IH.
Qed.




(** ** Choosing positions *)

(** C10.  Past the phase and role checks (setup; the caller is a mortal),
    select_position tests one thing only: whether some player of the
    room, of whatever role and dead or alive, holds the requested value
    as position.  If so the command is rejected with "Position already
    taken" and changes nothing.  If not it is accepted and the value
    becomes the caller's position, whatever the value (nothing confines it
    to 1..9) and whatever position the caller held before, so a mortal who
    has chosen may choose again while the room is in setup. *)
Theorem C10_select_position_checks_only_taken :
  (∀ sid position r i p,
     Room.phase r = setup →
     find_player sid (Room.players r) = Some (i, p) →
     Player.role p = Some mortal →
     Exists (λ q, Player.position q = position) (Room.players r) →
     select_position sid position r
     = Done r [error "Position already taken"])
  ∧ (∀ sid position r i p,
       Room.phase r = setup →
       find_player sid (Room.players r) = Some (i, p) →
       Player.role p = Some mortal →
       ¬ Exists (λ q, Player.position q = position) (Room.players r) →
       ∃ r' evs,
         select_position sid position r = Done r' evs
         ∧ Room.players r'
           = alter (Player.set_position position) i (Room.players r)
         ∧ Room.players r' !! i = Some (Player.set_position position p)
         ∧ room_updated ∈ evs
         ∧ (Room.phase r' = setup ∨ Room.phase r' = claiming)).
Proof.
  split.
  - intros sid pos r i p Hph Hp Hr Ht. unfold select_position.
    rewrite Hph, Hp, Hr. decide_closed.
    by rewrite (bool_decide_eq_true_2 _ Ht).
  - intros sid pos r i p Hph Hp Hr Ht. unfold select_position.
    rewrite Hph, Hp, Hr. decide_closed.
    rewrite (bool_decide_eq_false_2 _ Ht). cbn.
    apply list_find_Some in Hp as (Hi & _).
    case_bool_decide.
    + eexists _, _. split; [reflexivity|]. cbn. split_and!; try done.
      * by rewrite list_lookup_alter_eq, Hi.
      * by left.
      * by right.
    + eexists _, _. split; [reflexivity|]. cbn. split_and!; try done.
      * by rewrite list_lookup_alter_eq, Hi.
      * by apply list_elem_of_singleton.
      * by left.
Qed.

(** In setup, [a], who stands on cell 1, asks for 42 instead: the value
    is free, so it is stored. *)
Lemma C10_witness :
  ∃ r' evs,
    select_position "a" (JNum 42) half_placed_room = Done r' evs
    ∧ (Player.position <$> Room.players half_placed_room)
      = [JNull; JNum 1; JNull; JNull]
    ∧ Room.players r'
      = alter (Player.set_position (JNum 42)) 1%nat
          (Room.players half_placed_room).
Proof.
  destruct (proj2 C10_select_position_checks_only_taken "a" (JNum 42)
              half_placed_room 1%nat
              (Player.mk "a" "Ann" (Some mortal) (JNum 1) false false))
    as (r' & evs & Hs & Hps & _).
  - by vm_compute.
  - by vm_compute.
  - reflexivity.
  - apply (bool_decide_unpack _). by vm_compute.
  - exists r', evs. split; [exact Hs|]. split; [by vm_compute|exact Hps].
Defined.

(** * Further properties *)

(** ** Byte encodings of the relayer module *)

Lemma fill_bytes_spec k bytes num :
  (k ≤ length bytes)%nat →
  fill_bytes k bytes num = (reverse (low_bytes k num) ++ drop k bytes)%list.
Proof.
  revert bytes num. induction k as [|k IH]; intros bytes num Hk; [done|].
  cbn [fill_bytes low_bytes].
  rewrite IH by (rewrite length_insert; lia).
  rewrite reverse_cons, <-(assoc_L (++)). f_equal.
  destruct (lookup_lt_is_Some_2 bytes k) as [y Hy]; [lia|].
  rewrite drop_insert_ge by lia. rewrite Nat.sub_diag.
  by rewrite (drop_S _ _ _ Hy).
Qed.

Lemma low_bytes_length n num : length (low_bytes n num) = n.
Proof. revert num. induction n; intros; cbn; [done|]. by rewrite IHn. Qed.

Lemma low_byte_range num : 0 ≤ Z.land num 255 < 256.
Proof.
  change 255 with (Z.ones 8). rewrite Z.land_ones by lia.
  apply Z.mod_pos_bound. lia.
Qed.

Lemma low_bytes_range n num : Forall (λ b, 0 ≤ b < 256) (low_bytes n num).
Proof.
  revert num. induction n; intros; cbn; constructor; [|done].
  apply low_byte_range.
Qed.

Lemma decimalToBytes32_low_bytes num :
  decimalToBytes32 num = reverse (low_bytes 32 num).
Proof.
  unfold decimalToBytes32. rewrite fill_bytes_spec by done.
  change (drop 32 (replicate 32 0)) with (@nil Z). by rewrite app_nil_r.
Qed.

Lemma be_value_snoc l b : be_value (l ++ [b]) = be_value l * 256 + b.
Proof. unfold be_value. by rewrite foldl_app. Qed.

Lemma be_value_low_bytes n num :
  be_value (reverse (low_bytes n num)) = num mod 256 ^ Z.of_nat n.
Proof.
  revert num. induction n as [|n IH]; intros num.
  - cbn. by rewrite Z.mod_1_r.
  - cbn [low_bytes]. rewrite reverse_cons, be_value_snoc, IH.
    change 255 with (Z.ones 8). rewrite Z.land_ones by lia.
    rewrite Z.shiftr_div_pow2 by lia.
    rewrite Nat2Z.inj_succ, Z.pow_succ_r by lia.
    change (2 ^ 8) with 256.
    rewrite Z.rem_mul_r by lia. lia.
Qed.

Lemma decimalToBytes32_length num : length (decimalToBytes32 num) = 32%nat.
Proof.
  by rewrite decimalToBytes32_low_bytes, length_reverse, low_bytes_length.
Qed.

Lemma decimalToBytes32_value num :
  be_value (decimalToBytes32 num) = num mod 2 ^ 256.
Proof. by rewrite decimalToBytes32_low_bytes, be_value_low_bytes. Qed.

(** X1.  [decimalToBytes32] yields 32 bytes, each between 0 and 255, that
    spell the number modulo 2^256 with the most significant byte first. *)
Theorem decimalToBytes32_big_endian num :
  length (decimalToBytes32 num) = 32%nat
  ∧ Forall (λ b, 0 ≤ b < 256) (decimalToBytes32 num)
  ∧ be_value (decimalToBytes32 num) = num mod 2 ^ 256.
Proof.
  split_and!.
  - apply decimalToBytes32_length.
  - rewrite decimalToBytes32_low_bytes. apply Forall_reverse, low_bytes_range.
  - apply decimalToBytes32_value.
Qed.

Lemma set_at_spec src offset bytes :
  (offset + length src ≤ length bytes)%nat →
  set_at src offset bytes
  = (take offset bytes ++ src ++ drop (offset + length src) bytes)%list.
Proof.
  revert offset bytes.
  induction src as [|b src IH]; intros offset bytes Hlen; cbn [set_at].
  - cbn. rewrite Nat.add_0_r. by rewrite take_drop.
  - cbn [length] in *.
    replace (offset + S (length src))%nat with (S offset + length src)%nat
      by lia.
    rewrite IH by (rewrite length_insert; lia).
    rewrite (take_S_r _ _ b)
      by (apply list_lookup_insert_eq; lia).
    rewrite take_insert_ge by lia.
    rewrite drop_insert_lt by lia.
    by rewrite <-(assoc_L (++)).
Qed.

Lemma set_at_zeros src l n m :
  length src = n →
  set_at src (length l) (l ++ replicate (n + m) 0)
  = (l ++ src ++ replicate m 0)%list.
Proof.
  intros Hn. rewrite set_at_spec
    by (rewrite length_app, length_replicate; lia).
  rewrite take_app_length, drop_app_add, Hn, drop_replicate.
  do 3 f_equal. lia.
Qed.

Lemma g1PointToBytes_app p :
  g1PointToBytes p = (decimalToBytes32 p.1 ++ decimalToBytes32 p.2)%list.
Proof.
  unfold g1PointToBytes. cbn zeta.
  pose proof (decimalToBytes32_length p.1) as H1.
  pose proof (decimalToBytes32_length p.2) as H2.
  pose proof (set_at_zeros (decimalToBytes32 p.1) [] 32 32 H1) as E1.
  cbn [length app] in E1. change (32 + 32)%nat with 64%nat in E1.
  rewrite E1.
  pose proof (set_at_zeros (decimalToBytes32 p.2) (decimalToBytes32 p.1)
                32 0 H2) as E2.
  rewrite H1 in E2. change (32 + 0)%nat with 32%nat in E2.
  rewrite E2. cbn [replicate]. by rewrite app_nil_r.
Qed.

Lemma g2PointToBytes_app p :
  g2PointToBytes p
  = (decimalToBytes32 p.1.2 ++ decimalToBytes32 p.1.1
     ++ decimalToBytes32 p.2.2 ++ decimalToBytes32 p.2.1)%list.
Proof.
  unfold g2PointToBytes. cbn zeta.
  pose proof (decimalToBytes32_length p.1.1) as H1.
  pose proof (decimalToBytes32_length p.1.2) as H2.
  pose proof (decimalToBytes32_length p.2.1) as H3.
  pose proof (decimalToBytes32_length p.2.2) as H4.
  pose proof (set_at_zeros (decimalToBytes32 p.1.2) [] 32 96 H2) as E1.
  cbn [length app] in E1. change (32 + 96)%nat with 128%nat in E1.
  rewrite E1.
  pose proof (set_at_zeros (decimalToBytes32 p.1.1) (decimalToBytes32 p.1.2)
                32 64 H1) as E2.
  rewrite H2 in E2. change (32 + 64)%nat with 96%nat in E2.
  rewrite E2.
  pose proof (set_at_zeros (decimalToBytes32 p.2.2)
                (decimalToBytes32 p.1.2 ++ decimalToBytes32 p.1.1)
                32 32 H4) as E3.
  rewrite length_app, H1, H2 in E3.
  change (32 + 32)%nat with 64%nat in E3.
  rewrite <-!(assoc_L (++)) in E3. rewrite E3.
  pose proof (set_at_zeros (decimalToBytes32 p.2.1)
                ((decimalToBytes32 p.1.2 ++ decimalToBytes32 p.1.1)
                 ++ decimalToBytes32 p.2.2)
                32 0 H3) as E4.
  rewrite !length_app, H1, H2, H4 in E4.
  change (32 + 32 + 32)%nat with 96%nat in E4.
  change (32 + 0)%nat with 32%nat in E4.
  rewrite <-!(assoc_L (++)) in E4. rewrite E4.
  cbn [replicate]. by rewrite app_nil_r.
Qed.

Lemma be_value_fits z : fits z → be_value (decimalToBytes32 z) = z.
Proof. intros Hz. rewrite decimalToBytes32_value. by apply Z.mod_small. Qed.

Lemma g1_round_trip p : g1_fits p → g1_decode (g1PointToBytes p) = p.
Proof.
  intros [Hx Hy]. destruct p as [x y]. rewrite g1PointToBytes_app.
  unfold g1_decode. cbn [fst snd] in *.
  rewrite (take_app_length' _ _ 32), (drop_app_length' _ _ 32)
    by (by rewrite decimalToBytes32_length).
  rewrite take_ge by (rewrite decimalToBytes32_length; lia).
  by rewrite !be_value_fits.
Qed.

Lemma g2_round_trip p : g2_fits p → g2_decode (g2PointToBytes p) = p.
Proof.
  intros [[Hxr Hxi] [Hyr Hyi]]. destruct p as [[xr xi] [yr yi]].
  rewrite g2PointToBytes_app. unfold g2_decode. cbn [fst snd] in *.
  pose proof (decimalToBytes32_length xr) as H1.
  pose proof (decimalToBytes32_length xi) as H2.
  pose proof (decimalToBytes32_length yr) as H3.
  pose proof (decimalToBytes32_length yi) as H4.
  rewrite (take_app_length' _ _ 32) by done.
  rewrite (drop_app_length' _ _ 32) by done.
  rewrite (take_app_length' _ _ 32) by done.
  rewrite (assoc_L (++) (decimalToBytes32 xi)).
  rewrite (drop_app_length' _ _ 64) by (rewrite length_app, H1, H2; done).
  rewrite (take_app_length' _ _ 32) by done.
  rewrite (assoc_L (++) _ (decimalToBytes32 yi)).
  rewrite (drop_app_length' _ _ 96) by (rewrite !length_app, H1, H2, H4; done).
  rewrite take_ge by lia.
  by rewrite !be_value_fits.
Qed.

(** X2.  [convertSnarkjsProofToContract] turns a proof into 64, 128 and 64
    bytes, and loses nothing of a proof whose coordinates are below
    2^256: reading a G1 point as x then y, and a G2 point as the
    imaginary part before the real part of x and then of y, each a
    32-byte big-endian number, gives the proof back. *)
Theorem convertSnarkjsProofToContract_round_trip proof :
  g1_fits (SnarkProof.pi_a proof) →
  g2_fits (SnarkProof.pi_b proof) →
  g1_fits (SnarkProof.pi_c proof) →
  let p := convertSnarkjsProofToContract proof in
  length (ContractProof.a p) = 64%nat
  ∧ length (ContractProof.b p) = 128%nat
  ∧ length (ContractProof.c p) = 64%nat
  ∧ proof_decode p = proof.
Proof.
  intros Ha Hb Hc. destruct proof as [pa pb pc].
  unfold convertSnarkjsProofToContract, proof_decode.
  cbn [ContractProof.a ContractProof.b ContractProof.c
       SnarkProof.pi_a SnarkProof.pi_b SnarkProof.pi_c] in *.
  split_and!.
  - by rewrite g1PointToBytes_app, length_app, !decimalToBytes32_length.
  - by rewrite g2PointToBytes_app, !length_app, !decimalToBytes32_length.
  - by rewrite g1PointToBytes_app, length_app, !decimalToBytes32_length.
  - by rewrite !g1_round_trip, g2_round_trip.
Qed.

Lemma convertSnarkjsProofToContract_round_trip_witness :
  g1_fits (SnarkProof.pi_a sample_proof)
  ∧ g2_fits (SnarkProof.pi_b sample_proof)
  ∧ g1_fits (SnarkProof.pi_c sample_proof)
  ∧ proof_decode (convertSnarkjsProofToContract sample_proof) = sample_proof.
Proof.
  assert (g1_fits (SnarkProof.pi_a sample_proof)) as Ha
    by (repeat split; cbn; lia).
  assert (g2_fits (SnarkProof.pi_b sample_proof)) as Hb
    by (repeat split; cbn; lia).
  assert (g1_fits (SnarkProof.pi_c sample_proof)) as Hc
    by (repeat split; cbn; lia).
  split_and!; [done..|].
  apply (convertSnarkjsProofToContract_round_trip sample_proof Ha Hb Hc).
Defined.

(** ** Room codes and session ids *)

Lemma to_int32_shift z : ∃ k, to_int32 z = z + k * 2 ^ 32.
Proof.
  exists (- ((z + 2 ^ 31) / 2 ^ 32)). unfold to_int32.
  rewrite Z.mod_eq by lia. lia.
Qed.

Lemma to_uint32_shift z : ∃ k, to_uint32 z = z + k * 2 ^ 32.
Proof.
  exists (- (z / 2 ^ 32)). unfold to_uint32.
  rewrite Z.mod_eq by lia. lia.
Qed.

Lemma to_int32_range z : - 2 ^ 31 ≤ to_int32 z < 2 ^ 31.
Proof.
  unfold to_int32. pose proof (Z.mod_pos_bound (z + 2 ^ 31) (2 ^ 32)). lia.
Qed.

Lemma to_uint32_range z : 0 ≤ to_uint32 z < 2 ^ 32.
Proof. unfold to_uint32. apply Z.mod_pos_bound. lia. Qed.

Lemma hash_chars_poly31 s h p :
  (∃ k, h = p + k * 2 ^ 32) → - 2 ^ 31 ≤ h < 2 ^ 31 →
  hash_chars h s = to_int32 (poly31 p s).
Proof.
  revert h p. induction s as [|c s IH]; intros h p [k Hk] Hr.
  - cbn. destruct (to_int32_shift p) as [k' Hk'].
    pose proof (to_int32_range p). lia.
  - cbn [hash_chars poly31]. apply IH; [|apply to_int32_range].
    destruct (to_int32_shift (h * 32)) as [k1 H1].
    destruct (to_int32_shift
                (to_int32 (h * 32) - h + Z.of_N (Ascii.N_of_ascii c)))
      as [k2 H2].
    exists (31 * k + k1 + k2). lia.
Qed.

Lemma hash_chars_unsigned_poly31 s h p :
  (∃ k, h = p + k * 2 ^ 32) → 0 ≤ h < 2 ^ 32 →
  hash_chars_unsigned h s = poly31 p s mod 2 ^ 32.
Proof.
  revert h p. induction s as [|c s IH]; intros h p [k Hk] Hr.
  - cbn. destruct (to_uint32_shift p) as [k' Hk'].
    pose proof (to_uint32_range p). unfold to_uint32 in *. lia.
  - cbn [hash_chars_unsigned poly31]. apply IH; [|apply to_uint32_range].
    destruct (to_int32_shift h) as [k0 H0].
    destruct (to_int32_shift (to_int32 h * 32)) as [k1 H1].
    destruct (to_uint32_shift
                (to_int32 (to_int32 h * 32) - h
                 + Z.of_N (Ascii.N_of_ascii c)))
      as [k2 H2].
    exists (31 * k + 32 * k0 + k1 + k2). lia.
Qed.

Lemma roomCodeToSessionId_poly31 s :
  roomCodeToSessionId s = Z.abs (to_int32 (poly31 0 s)).
Proof.
  unfold roomCodeToSessionId. f_equal.
  apply hash_chars_poly31; [by exists 0|lia].
Qed.

Lemma hashRoomCodeToSessionId_poly31 s :
  hashRoomCodeToSessionId s = poly31 0 s mod 2 ^ 32.
Proof. apply hash_chars_unsigned_poly31; [by exists 0|lia]. Qed.

(** X3.  Both session-id hashes are the base-31 polynomial of the
    character codes cut to 32 bits: [hashRoomCodeToSessionId] is its
    residue modulo 2^32, [roomCodeToSessionId] the absolute value of its
    signed residue.  The first lies in [0, 2^32), the second in
    [0, 2^31], and the second is the first or its complement to 2^32. *)
Theorem session_id_hashes roomCode :
  hashRoomCodeToSessionId roomCode = poly31 0 roomCode mod 2 ^ 32
  ∧ roomCodeToSessionId roomCode = Z.abs (to_int32 (poly31 0 roomCode))
  ∧ 0 ≤ hashRoomCodeToSessionId roomCode < 2 ^ 32
  ∧ 0 ≤ roomCodeToSessionId roomCode ≤ 2 ^ 31
  ∧ roomCodeToSessionId roomCode
    = (if bool_decide (hashRoomCodeToSessionId roomCode < 2 ^ 31)
       then hashRoomCodeToSessionId roomCode
       else 2 ^ 32 - hashRoomCodeToSessionId roomCode).
Proof.
  rewrite hashRoomCodeToSessionId_poly31, roomCodeToSessionId_poly31.
  pose proof (to_int32_range (poly31 0 roomCode)) as Hr.
  pose proof (Z.mod_pos_bound (poly31 0 roomCode) (2 ^ 32)) as Hu.
  split_and!; try done; try lia.
  unfold to_int32 in *.
  pose proof (Z.mod_eq (poly31 0 roomCode) (2 ^ 32)) as E1.
  pose proof (Z.mod_eq (poly31 0 roomCode + 2 ^ 31) (2 ^ 32)) as E2.
  pose proof (Z.mod_pos_bound (poly31 0 roomCode + 2 ^ 31) (2 ^ 32)) as Hs.
  case_bool_decide; lia.
Qed.

Lemma charAt_CODE_CHARS k :
  (k < 32)%nat →
  ∃ c, charAt CODE_CHARS k = String c ""
       ∧ code_char c
       ∧ upper_ascii c = c
       ∧ 50 ≤ Z.of_N (Ascii.N_of_ascii c) ≤ 90.
Proof.
  intros Hk.
  do 32 (destruct k as [|k];
         [eexists; split; [reflexivity|];
          split; [unfold code_char; apply (bool_decide_unpack _);
                  by vm_compute|];
          split; [reflexivity|by vm_compute]|]).
  lia.
Qed.

Lemma generateRoomCode_chars random :
  ∃ c0 c1 c2 c3 c4 c5,
    generateRoomCode random
    = String c0 (String c1 (String c2 (String c3 (String c4
        (String c5 "")))))
    ∧ Forall (λ c, code_char c ∧ upper_ascii c = c
                   ∧ 50 ≤ Z.of_N (Ascii.N_of_ascii c) ≤ 90)
        [c0; c1; c2; c3; c4; c5].
Proof.
  assert (∀ i, (random i mod String.length CODE_CHARS < 32)%nat) as Hlt
    by (intros i; apply Nat.mod_upper_bound; by vm_compute).
  destruct (charAt_CODE_CHARS _ (Hlt 0%nat)) as (c0 & E0 & H0).
  destruct (charAt_CODE_CHARS _ (Hlt 1%nat)) as (c1 & E1 & H1).
  destruct (charAt_CODE_CHARS _ (Hlt 2%nat)) as (c2 & E2 & H2).
  destruct (charAt_CODE_CHARS _ (Hlt 3%nat)) as (c3 & E3 & H3).
  destruct (charAt_CODE_CHARS _ (Hlt 4%nat)) as (c4 & E4 & H4).
  destruct (charAt_CODE_CHARS _ (Hlt 5%nat)) as (c5 & E5 & H5).
  exists c0, c1, c2, c3, c4, c5.
  split; [|repeat (constructor; [done|]); constructor].
  unfold generateRoomCode. cbn [code_loop].
  by rewrite E0, E1, E2, E3, E4, E5.
Qed.

Lemma generateRoomCode_upper random :
  toUpperCase (generateRoomCode random) = generateRoomCode random.
Proof.
  destruct (generateRoomCode_chars random)
    as (c0 & c1 & c2 & c3 & c4 & c5 & -> & Hc).
  cbn [toUpperCase].
  repeat match goal with
         | H : Forall _ (_ :: _) |- _ =>
             apply Forall_cons in H as [(_ & -> & _) H]
         end.
  done.
Qed.

(** X4.  Whatever the random draws, [generateRoomCode] yields a code of
    six characters of its alphabet, and [toUpperCase] leaves the code
    as it is. *)
Theorem generateRoomCode_shape random :
  String.length (generateRoomCode random) = 6%nat
  ∧ Forall code_char (String.list_ascii_of_string (generateRoomCode random))
  ∧ toUpperCase (generateRoomCode random) = generateRoomCode random.
Proof.
  destruct (generateRoomCode_chars random)
    as (c0 & c1 & c2 & c3 & c4 & c5 & -> & Hc).
  split_and!; [done| |].
  - cbn [String.list_ascii_of_string].
    eapply Forall_impl; [exact Hc|]. by intros c (? & _).
  - cbn [toUpperCase].
    repeat match goal with
           | H : Forall _ (_ :: _) |- _ =>
               apply Forall_cons in H as [(_ & -> & _) H]
           end.
    done.
Qed.

(** X5.  The session id that [start_game] computes for a generated room
    code is never zero, so the test [!sessionId] of the blockchain
    branches does not mistake a registered game for an unregistered one;
    and for such a code [hashRoomCodeToSessionId] is the polynomial
    itself, without wrap-around. *)
Theorem generated_code_session_id random :
  0 < roomCodeToSessionId (generateRoomCode random)
  ∧ hashRoomCodeToSessionId (generateRoomCode random)
    = poly31 0 (generateRoomCode random).
Proof.
  rewrite roomCodeToSessionId_poly31, hashRoomCodeToSessionId_poly31.
  destruct (generateRoomCode_chars random)
    as (c0 & c1 & c2 & c3 & c4 & c5 & -> & Hc).
  repeat match goal with
         | H : Forall _ (_ :: _) |- _ =>
             apply Forall_cons in H as [(_ & _ & ?) H]
         end.
  cbn [poly31].
  set (p := 31 * _ + _).
  assert (1479172800 ≤ p ≤ 2662511040) as Hp by (subst p; lia).
  clearbody p. split.
  - destruct (to_int32_shift p) as [k Hk]. lia.
  - apply Z.mod_small. lia.
Qed.

(** ** Claim values and the grid *)

Lemma ceil_div3_grid_row tp :
  safe_integer tp → ceil_div3 tp - 1 = grid_row tp.
Proof.
  intros Hs. pose proof (ceil_div3_spec tp Hs). unfold grid_row.
  pose proof (Z.div_mod (tp - 1) 3 ltac:(lia)).
  pose proof (Z.mod_pos_bound (tp - 1) 3 ltac:(lia)).
  lia.
Qed.

(** X6.  A row or column claim that the local check accepts about a
    target on cell [tp], a safe integer from 1 on, is passed to the
    relayer as the zero-based row or column of that cell; the value of an
    adjacency claim is passed as it is. *)
Theorem true_claims_are_sent_zero_based cp tp v :
  1 ≤ tp →
  safe_integer tp →
  (verifyClaim cp (JNum tp) CLAIM_TYPES.ROW v = true →
   claimValueForCircuit CLAIM_TYPES.ROW v = Some (JNum (grid_row tp)))
  ∧ (verifyClaim cp (JNum tp) CLAIM_TYPES.COLUMN v = true →
     claimValueForCircuit CLAIM_TYPES.COLUMN v = Some (JNum (grid_col tp)))
  ∧ claimValueForCircuit CLAIM_TYPES.ADJACENT v = Some v.
Proof.
  intros Htp Hs. split_and!.
  - intros ->%verifyClaim_row.
    unfold claimValueForCircuit, CLAIM_TYPES.ROW. decide_closed. cbn.
    pose proof (ceil_div3_spec tp Hs) as Hc.
    rewrite minus_one_safe, ceil_div3_grid_row; [done..|].
    unfold safe_integer in *. lia.
  - intros ->%verifyClaim_column.
    unfold claimValueForCircuit, CLAIM_TYPES.COLUMN. decide_closed. cbn.
    rewrite (minus_one_safe tp), rem_is_mod by done.
    pose proof (Z.mod_pos_bound (tp - 1) 3 ltac:(lia)) as Hm.
    rewrite minus_one_safe.
    + unfold grid_col. do 2 f_equal. lia.
    + unfold safe_integer, MAX_SAFE_INTEGER. lia.
  - unfold claimValueForCircuit, CLAIM_TYPES.ADJACENT. by decide_closed.
Qed.

Lemma true_claims_are_sent_zero_based_witness :
  1 ≤ 8
  ∧ safe_integer 8
  ∧ verifyClaim JNull (JNum 8) CLAIM_TYPES.ROW (JNum 3) = true
  ∧ claimValueForCircuit CLAIM_TYPES.ROW (JNum 3) = Some (JNum (grid_row 8)).
Proof.
  assert (1 ≤ 8) as H8 by lia.
  assert (safe_integer 8) as Hs by (by vm_compute).
  assert (verifyClaim JNull (JNum 8) CLAIM_TYPES.ROW (JNum 3) = true) as Hv
    by (by vm_compute).
  split_and!; [done..|].
  exact (proj1 (true_claims_are_sent_zero_based JNull 8 (JNum 3) H8 Hs) Hv).
Defined.

Lemma neighbours_in_cells c l t :
  table_get ADJACENCY_MAP c = Some l → t ∈ l → c ∈ cells ∧ t ∈ cells.
Proof.
  intros E Hin.
  assert (c ∈ cells) as Hc by (apply ADJACENCY_MAP_keys; by eexists).
  split; [done|]. revert Hc E Hin.
  unfold cells. rewrite !elem_of_cons, elem_of_nil. intros Hc.
  destruct_or!; subst; try done.
  all: intros [= <-]; rewrite !elem_of_cons, elem_of_nil; tauto.
Qed.

Lemma orthogonal_sym c t : orthogonal c t → orthogonal t c.
Proof. unfold orthogonal. lia. Qed.

Lemma adjacent_sym a b v v' :
  verifyClaim (JNum a) (JNum b) CLAIM_TYPES.ADJACENT v = true →
  verifyClaim (JNum b) (JNum a) CLAIM_TYPES.ADJACENT v' = true.
Proof.
  rewrite !verifyClaim_adjacent.
  intros [_ (c & t & l & [= <-] & [= <-] & E & Hin)].
  destruct (neighbours_in_cells _ _ _ E Hin) as [Ha Hb].
  split; [done|].
  destruct (proj2 (ADJACENCY_MAP_orthogonal b a Hb Ha)) as (l' & E' & Hin').
  { apply orthogonal_sym, ADJACENCY_MAP_orthogonal; [done..|by exists l]. }
  by exists b, a, l'.
Qed.

(** X7.  Adjacency as [verifyClaim] computes it is symmetric in the
    claimer's and the target's cell, whatever the claimed values, and no
    cell is adjacent to itself. *)
Theorem adjacency_is_symmetric a b v v' :
  verifyClaim (JNum a) (JNum b) CLAIM_TYPES.ADJACENT v
  = verifyClaim (JNum b) (JNum a) CLAIM_TYPES.ADJACENT v'
  ∧ verifyClaim (JNum a) (JNum a) CLAIM_TYPES.ADJACENT v = false.
Proof.
  split.
  - destruct (verifyClaim (JNum a) (JNum b) _ v) eqn:E1,
      (verifyClaim (JNum b) (JNum a) _ v') eqn:E2; try done.
    + apply (adjacent_sym _ _ _ v') in E1. congruence.
    + apply (adjacent_sym _ _ _ v) in E2. congruence.
  - destruct (verifyClaim (JNum a) (JNum a) _ v) eqn:E; [|done].
    apply verifyClaim_adjacent
      in E as [_ (c & t & l & [= <-] & [= <-] & E & Hin)].
    destruct (neighbours_in_cells _ _ _ E Hin) as [Ha _].
    assert (orthogonal a a) as Ho
      by (apply ADJACENCY_MAP_orthogonal; [done..|by exists l]).
    unfold orthogonal in Ho. lia.
Qed.

(** X8.  A true row claim and a true column claim about the same target
    pin down its cell, for a cell that is a safe integer from 1 on: with
    row [row] and column [col], both counted from 1, the target stands
    on cell [3 * (row - 1) + col]. *)
Theorem row_and_column_pin_the_cell cp cp' tp row col :
  1 ≤ tp →
  safe_integer tp →
  verifyClaim cp (JNum tp) CLAIM_TYPES.ROW (JNum row) = true →
  verifyClaim cp' (JNum tp) CLAIM_TYPES.COLUMN (JNum col) = true →
  tp = 3 * (row - 1) + col.
Proof.
  intros Htp Hs [= ->]%verifyClaim_row [= ->]%verifyClaim_column.
  rewrite minus_one_safe, rem_is_mod by done.
  pose proof (ceil_div3_grid_row tp Hs) as Hr. unfold grid_row in Hr.
  pose proof (Z.div_mod (tp - 1) 3 ltac:(lia)). lia.
Qed.

Lemma row_and_column_pin_the_cell_witness :
  1 ≤ 8 ∧ safe_integer 8 ∧ 8 = 3 * (3 - 1) + 2.
Proof.
  assert (1 ≤ 8) as H8 by lia.
  assert (safe_integer 8) as Hs by (by vm_compute).
  split_and!; [done..|].
  apply (row_and_column_pin_the_cell JNull JNull 8 3 2 H8 Hs);
    by vm_compute.
Defined.

(** ** Rooms reached by commands *)

Lemma run_reachable cfg cmds r r' evs :
  reachable cfg r → run cfg cmds r = Done r' evs → reachable cfg r'.
Proof.
  revert r evs. induction cmds as [|[sid cmd] cmds IH]; intros r evs Hr.
  - by intros [= <- _].
  - cbn. destruct (handle cfg sid cmd r) as [r1 evs1| |] eqn:Hh; try done.
    intros (evs0 & Hrun & _)%after_emitting_Done.
    eapply IH; [|done]. by eapply reach_step.
Qed.

Lemma played_reachable cmds :
  runs_through cmds = true → reachable local_only (played cmds).
Proof.
  unfold runs_through, played.
  destruct (run local_only cmds (createRoom "ABC123" "h" "Hal"))
    as [r evs| |] eqn:Hrun; try done.
  intros _. eapply run_reachable; [|done]. constructor.
Qed.

Lemma run_by_the_book cfg cmds r :
  by_the_book cfg r → runs_by_the_book cfg cmds r = true →
  ∃ r' evs, run cfg cmds r = Done r' evs ∧ by_the_book cfg r'.
Proof.
  revert r. induction cmds as [|[sid cmd] cmds IH]; intros r Hr; cbn.
  - intros _. by eexists _, _.
  - intros [Hs Hrest]%andb_true_iff.
    destruct (handle cfg sid cmd r) as [r1 evs1| |] eqn:Hh; try done.
    destruct (IH r1) as (r' & evs & -> & Hb); [|done|].
    + eapply book_step; [done| |done].
      intros shuffled ->. by apply bool_decide_eq_true in Hs.
    + by eexists _, _.
Qed.

Lemma played_by_the_book cmds :
  runs_by_the_book local_only cmds (createRoom "ABC123" "h" "Hal") = true →
  by_the_book local_only (played cmds).
Proof.
  intros H. unfold played.
  destruct (run_by_the_book local_only cmds (createRoom "ABC123" "h" "Hal"))
    as (r' & evs & -> & Hb); [constructor|done|done].
Qed.

Lemma by_the_book_reachable cfg r : by_the_book cfg r → reachable cfg r.
Proof.
  induction 1; [constructor|]. by eapply reach_step.
Qed.

(** What an attack that is carried out leaves of the room. *)
Lemma attack_cell_inv sid cell r r' evs :
  attack_cell sid cell r = Done r' evs →
  (r' = r ∧ evs = [])
  ∨ ∃ i p gi g gh evs0,
      Room.phase r = deduction
      ∧ find_player sid (Room.players r) = Some (i, p)
      ∧ Player.role p = Some god
      ∧ find_god (Room.players r) = Some (gi, g)
      ∧ Room.godHistory r = Some gh
      ∧ check_end_of_round
          (survival_points
             (god_points (Player.id g)
                (bool_decide
                   (is_Some (list_find (λ q, Player.position q = cell)
                               (Room.players r))))
                gh
                (strike cell
                   (list_find (λ q, Player.position q = cell)
                      (Room.players r)) r)))
        = Done r' evs0.
Proof.
  unfold attack_cell.
  destruct (decide (Room.phase r = deduction)) as [Hph|Hph]; cycle 1.
  { rewrite bool_decide_eq_true_2 by done. intros [= <- <-]. by left. }
  rewrite (bool_decide_eq_false_2 (Room.phase r ≠ deduction)) by tauto.
  destruct (find_player sid (Room.players r)) as [[i p]|] eqn:Hp;
    [|intros [= <- <-]; by left].
  destruct (decide (Player.role p = Some god)) as [Hr|Hr]; cycle 1.
  { rewrite bool_decide_eq_true_2 by done. intros [= <- <-]. by left. }
  rewrite (bool_decide_eq_false_2 (Player.role p ≠ Some god)) by tauto.
  destruct (find_god (Room.players r)) as [[gi g]|] eqn:Hg; [|done].
  rewrite (proj1 (proj2 (strike_rest cell _ r))).
  destruct (Room.godHistory r) as [gh|] eqn:Hgh; [|done].
  intros (evs0 & Hc & _)%after_emitting_Done.
  right. by exists i, p, gi, g, gh, evs0.
Qed.

Lemma check_end_of_round_keeps r r' evs :
  check_end_of_round r = Done r' evs →
  Room.code r' = Room.code r
  ∧ Room.players r' = Room.players r
  ∧ Room.totalRounds r' = Room.totalRounds r
  ∧ Room.claims r' = Room.claims r
  ∧ Room.attacks r' = Room.attacks r
  ∧ Room.scores r' = Room.scores r
  ∧ Room.scoreKeys r' = Room.scoreKeys r.
Proof.
  unfold check_end_of_round, handleEndOfRound.
  repeat case_match; intros; by simplify_eq.
Qed.

Lemma scoring_keeps godId hit gh r :
  let rs := survival_points (god_points godId hit gh r) in
  Room.code rs = Room.code r
  ∧ Room.players rs = Room.players r
  ∧ Room.totalRounds rs = Room.totalRounds r
  ∧ Room.claims rs = Room.claims r
  ∧ Room.attacks rs = Room.attacks r
  ∧ Room.scoreKeys rs = Room.scoreKeys r.
Proof.
  cbn zeta.
  destruct (survival_points_shape (god_points godId hit gh r)) as [m ->].
  destruct (god_points_shape godId hit gh r) as [m' ->]. by cbn.
Qed.

Lemma strike_keeps cell hp r :
  Room.code (strike cell hp r) = Room.code r
  ∧ Room.totalRounds (strike cell hp r) = Room.totalRounds r
  ∧ Room.claims (strike cell hp r) = Room.claims r
  ∧ Room.scoreKeys (strike cell hp r) = Room.scoreKeys r.
Proof. unfold strike. by destruct hp as [[??]|]. Qed.

(** Whatever [attack_cell] does, the players are those after the strike
    on the player found on the cell, or the room is as before. *)
Lemma attack_cell_keeps sid cell r r' evs :
  attack_cell sid cell r = Done r' evs →
  Room.code r' = Room.code r
  ∧ Room.totalRounds r' = Room.totalRounds r
  ∧ Room.claims r' = Room.claims r
  ∧ (Room.players r' = Room.players r
     ∨ ∃ j, Room.players r'
            = alter (Player.set_position JNull) j (Room.players r)).
Proof.
  intros [[-> _]|(i & p & gi & g & gh & evs0 & _ & _ & _ & _ & _ & Hc)]
    %attack_cell_inv; [by split_and!; [..|left]|].
  apply check_end_of_round_keeps in Hc as (-> & -> & -> & -> & _).
  destruct (scoring_keeps (Player.id g)
              (bool_decide
                 (is_Some (list_find (λ q, Player.position q = cell)
                             (Room.players r))))
              gh
              (strike cell
                 (list_find (λ q, Player.position q = cell)
                    (Room.players r)) r))
    as (-> & -> & -> & -> & _).
  destruct (strike_keeps cell
              (list_find (λ q, Player.position q = cell) (Room.players r)) r)
    as (-> & -> & -> & _).
  split_and!; [done..|]. rewrite strike_players.
  destruct (list_find _ _) as [[j x]|]; [right; by exists j|by left].
Qed.

(** What a new round leaves of the room. *)
Lemma startNextRound_keeps r keepGodId pick r' evs :
  startNextRound r keepGodId pick = Done r' evs →
  Room.code r' = Room.code r
  ∧ Room.totalRounds r' = Room.totalRounds r
  ∧ Room.scores r' = Room.scores r
  ∧ Room.scoreKeys r' = Room.scoreKeys r
  ∧ (Room.players r' = reset_mortal <$> Room.players r
     ∨ ∃ gi ni,
         Room.players r'
         = reset_mortal
             <$> alter (λ p, Player.set_position JNull
                               (Player.set_role (Some god) p)) ni
                   (alter (λ p, Player.set_position JNull
                                  (Player.set_role (Some mortal) p)) gi
                      (Room.players r))).
Proof.
  unfold startNextRound. destruct (keeps_god keepGodId).
  - intros [= <- <-]. split_and!; [done..|by left].
  - cbn. repeat case_match; try done.
    all: intros [= <- <-]; split_and!; [done..|right].
    all: by eexists _, _.
Qed.

Lemma roster_of_players r r' :
  Room.players r' = Room.players r → roster r' = roster r.
Proof. unfold roster. by intros ->. Qed.

Lemma roster_alter (f : Player.t → Player.t) i r r' :
  Room.players r' = alter f i (Room.players r) →
  (∀ p, Player.id (f p) = Player.id p) →
  (∀ p, Player.name (f p) = Player.name p) →
  (∀ p, Player.isHost (f p) = Player.isHost p) →
  roster r' = roster r.
Proof.
  unfold roster. intros -> Hi Hn Hh. apply fmap_alter_same.
  intros p. by rewrite Hi, Hn, Hh.
Qed.

Lemma roster_reset (ps : list Player.t) :
  (λ p, (Player.id p, Player.name p, Player.isHost p))
    <$> (reset_mortal <$> ps)
  = (λ p, (Player.id p, Player.name p, Player.isHost p)) <$> ps.
Proof.
  rewrite <-list_fmap_compose. apply list_fmap_ext.
  intros _ p _. cbn. unfold reset_mortal. by case_bool_decide.
Qed.

(** Only join_room and disconnect change who is in the room, under which
    name, and who is host. *)
Lemma roster_step cfg sid cmd r r' evs :
  handle cfg sid cmd r = Done r' evs →
  (∀ playerName, cmd ≠ Join_room playerName) → cmd ≠ Disconnect →
  roster r' = roster r.
Proof.
  intros Hh Hj Hd. destruct cmd; cbn [handle] in Hh.
  - by destruct (Hj playerName).
  - unfold toggle_ready in Hh. repeat case_match; simplify_eq; [|done].
    by eapply roster_alter.
  - unfold set_round_config in Hh. repeat case_match; by simplify_eq.
  - unfold start_game in Hh. repeat case_match; simplify_eq; try done.
    unfold roster. cbn. by rewrite !fmap_alter_same.
  - unfold select_position in Hh. repeat case_match; simplify_eq; try done.
    all: by eapply roster_alter.
  - unfold submit_claim in Hh. repeat case_match; by simplify_eq.
  - unfold submit_claim_blockchain in Hh. repeat case_match; by simplify_eq.
  - apply verify_claim_players in Hh as [Hps _]. by apply roster_of_players.
  - apply attack_cell_keeps in Hh as (_ & _ & _ & [Hps|[j Hps]]).
    + by apply roster_of_players.
    + by eapply roster_alter.
  - unfold god_choice in Hh. repeat case_match; simplify_eq; try done.
    all: apply startNextRound_keeps in Hh as (_ & _ & _ & _ & [Hps|Hps]).
    all: unfold roster; try destruct Hps as (gi & ni & Hps); rewrite Hps.
    all: rewrite roster_reset; cbn; by rewrite ?fmap_alter_same.
  - done.
  - unfold auto_start in Hh. case_bool_decide; [|by simplify_eq].
    apply startNextRound_keeps in Hh as (_ & _ & _ & _ & [Hps|Hps]).
    all: unfold roster; try destruct Hps as (gi & ni & Hps); rewrite Hps.
    all: rewrite roster_reset; cbn; by rewrite ?fmap_alter_same.
  - unfold registration_settled in Hh. repeat case_match; by simplify_eq.
Qed.

Lemma disconnect_inv sid r r' evs :
  disconnect sid r = Done r' evs →
  (r' = r ∧ evs = [])
  ∨ ∃ i p p0 ps,
      find_player sid (Room.players r) = Some (i, p)
      ∧ delete i (Room.players r) = p0 :: ps
      ∧ evs = [player_left]
      ∧ r' = Room.set_players
               (if bool_decide (Exists (λ q, Player.isHost q = true)
                                  (p0 :: ps))
                then p0 :: ps else Player.set_isHost true p0 :: ps) r.
Proof.
  unfold disconnect.
  destruct (find_player sid (Room.players r)) as [[i p]|] eqn:Hp;
    [|intros [= <- <-]; by left].
  destruct (delete i (Room.players r)) as [|p0 ps] eqn:E; [done|].
  intros [= <- <-]. right. by exists i, p, p0, ps.
Qed.

Lemma hosts_length_of_flags (ps ps' : list Player.t) :
  Player.isHost <$> ps = Player.isHost <$> ps' →
  length (hosts ps) = length (hosts ps').
Proof.
  revert ps'. induction ps as [|p ps IH]; intros [|p' ps']; try done.
  intros [= Hp Hps]. unfold hosts in *. rewrite !filter_cons.
  rewrite Hp. destruct (decide (Player.isHost p' = true)); cbn; auto.
Qed.

Lemma roster_flags r r' :
  roster r' = roster r →
  Player.isHost <$> Room.players r' = Player.isHost <$> Room.players r.
Proof.
  unfold roster. intros H. apply (f_equal (fmap snd)) in H.
  by rewrite <-!list_fmap_compose in H.
Qed.

Lemma roster_length r r' :
  roster r' = roster r →
  length (Room.players r') = length (Room.players r).
Proof.
  unfold roster. intros H. apply (f_equal length) in H.
  by rewrite !length_fmap in H.
Qed.

Lemma players_bound_step cfg sid cmd r r' evs :
  (1 ≤ length (Room.players r) ≤ 4)%nat →
  handle cfg sid cmd r = Done r' evs →
  (1 ≤ length (Room.players r') ≤ 4)%nat.
Proof.
  intros Hb Hh.
  assert ((∀ playerName, cmd ≠ Join_room playerName) → cmd ≠ Disconnect →
          (1 ≤ length (Room.players r') ≤ 4)%nat) as Hrest.
  { intros Hj Hd. rewrite (roster_length r r'); [done|].
    by eapply roster_step. }
  destruct cmd; try (by apply Hrest); clear Hrest; cbn in Hh.
  - unfold join_room in Hh.
    repeat case_bool_decide; simplify_eq; try done.
    cbn. rewrite length_app. cbn. lia.
  - apply disconnect_inv in Hh
      as [[-> _]|(i & p & p0 & ps & _ & E & _ & ->)]; [done|].
    pose proof (sublist_length _ _ (sublist_delete (Room.players r) i)) as Hl.
    rewrite E in Hl. case_bool_decide; cbn in *; lia.
Qed.

Lemma players_bound_kept cfg r :
  reachable cfg r → (1 ≤ length (Room.players r) ≤ 4)%nat.
Proof.
  induction 1 as [code hostId hostName|r sid cmd r' evs _ IH Hh].
  - cbn. lia.
  - by eapply players_bound_step.
Qed.

(** X9.  Every room reached by commands has at least one and at most four
    players. *)
Theorem reachable_players_bound cfg r :
  reachable cfg r → (1 ≤ length (Room.players r) ≤ 4)%nat.
Proof.
  induction 1 as [code hostId hostName|r sid cmd r' evs _ IH Hh].
  - cbn. lia.
  - by eapply players_bound_step.
Qed.

Lemma reachable_players_bound_witness :
  (1 ≤ length (Room.players deduction_room) ≤ 4)%nat.
Proof.
  apply (reachable_players_bound local_only deduction_room).
  apply played_reachable. vm_compute. reflexivity.
Defined.

Lemma hosts_sublist (ps ps' : list Player.t) :
  ps' `sublist_of` ps → (length (hosts ps') ≤ length (hosts ps))%nat.
Proof.
  induction 1 as [|p l1 l2 _ IH|p l1 l2 _ IH]; [done|..].
  all: unfold hosts in *; rewrite ?filter_cons.
  all: destruct (decide (Player.isHost p = true)); cbn; lia.
Qed.

Lemma hosts_Exists (ps : list Player.t) :
  Exists (λ q, Player.isHost q = true) ps ↔ (1 ≤ length (hosts ps))%nat.
Proof.
  unfold hosts. induction ps as [|p ps IH].
  - cbn. split; [by intros ?%Exists_nil|lia].
  - rewrite Exists_cons, filter_cons, IH.
    destruct (decide (Player.isHost p = true)); cbn; [|tauto].
    split; [lia|by left].
Qed.

Lemma single_host_step cfg sid cmd r r' evs :
  length (hosts (Room.players r)) = 1%nat →
  handle cfg sid cmd r = Done r' evs →
  length (hosts (Room.players r')) = 1%nat.
Proof.
  intros Hb Hh.
  assert ((∀ playerName, cmd ≠ Join_room playerName) → cmd ≠ Disconnect →
          length (hosts (Room.players r')) = 1%nat) as Hrest.
  { intros Hj Hd. rewrite <-Hb. apply hosts_length_of_flags, roster_flags.
    by eapply roster_step. }
  destruct cmd; try (by apply Hrest); clear Hrest; cbn in Hh.
  - unfold join_room in Hh.
    repeat case_bool_decide; simplify_eq; try done.
    cbn. unfold hosts in *. rewrite filter_app, length_app, Hb. done.
  - apply disconnect_inv in Hh
      as [[-> _]|(i & p & p0 & ps & _ & E & _ & ->)]; [done|].
    pose proof (hosts_sublist _ _ (sublist_delete (Room.players r) i)) as Hl.
    rewrite E, Hb in Hl. cbn [Room.players Room.set_players].
    case_bool_decide as Hex.
    + apply hosts_Exists in Hex. lia.
    + rewrite hosts_Exists in Hex.
      unfold hosts in *. rewrite filter_cons_True by done.
      rewrite filter_cons in Hex.
      destruct (decide (Player.isHost p0 = true)); cbn in *; lia.
Qed.

(** X10.  Every room reached by commands has exactly one host: joining
    adds a player who is not host, and when the host leaves, the first of
    the remaining players becomes host. *)
Theorem reachable_single_host cfg r :
  reachable cfg r → length (hosts (Room.players r)) = 1%nat.
Proof.
  induction 1 as [code hostId hostName|r sid cmd r' evs _ IH Hh].
  - done.
  - by eapply single_host_step.
Qed.

Lemma reachable_single_host_witness :
  length (hosts (Room.players deserted_room)) = 1%nat.
Proof.
  apply (reachable_single_host local_only deserted_room).
  apply played_reachable. vm_compute. reflexivity.
Defined.

(** ** Cells are held by one player at most *)

Lemma dimmed_refl l : dimmed l l.
Proof. apply Forall2_same_length_lookup_2; [done|]. intros; simplify_eq. by left. Qed.

Lemma dimmed_trans l1 l2 l3 : dimmed l1 l2 → dimmed l2 l3 → dimmed l1 l3.
Proof.
  unfold dimmed. intros H12. revert l3.
  induction H12 as [|a b l1 l2 Hab _ IH]; intros l3 H23.
  - by apply Forall2_nil_inv_l in H23 as ->.
  - apply Forall2_cons_inv_l in H23 as (c & l3' & Hbc & H23 & ->).
    constructor; [|by apply IH].
    destruct Hab as [-> | ->], Hbc as [-> | ->]; auto.
Qed.

Lemma dimmed_held l l' :
  dimmed l l' →
  filter (λ v, v ≠ JNull) l' `sublist_of` filter (λ v, v ≠ JNull) l.
Proof.
  induction 1 as [|a b l l' Hab _ IH]; [done|].
  rewrite !filter_cons.
  destruct Hab as [-> | ->].
  - destruct (decide (a ≠ JNull)); [by constructor|done].
  - destruct (decide (JNull ≠ JNull)); [done|].
    destruct (decide (a ≠ JNull)); [by constructor|done].
Qed.

Lemma dimmed_NoDup ps ps' :
  dimmed (Player.position <$> ps) (Player.position <$> ps') →
  NoDup (held_cells ps) → NoDup (held_cells ps').
Proof.
  intros Hd Hn. unfold held_cells in *.
  eapply sublist_NoDup; [done|]. by apply dimmed_held.
Qed.

Lemma dimmed_alter (f : Player.t → Player.t) j (ps : list Player.t) :
  (∀ p, Player.position (f p) = JNull) →
  dimmed (Player.position <$> ps) (Player.position <$> alter f j ps).
Proof.
  intros Hf. revert j. induction ps as [|p ps IH]; intros [|j]; cbn.
  - constructor.
  - constructor.
  - constructor; [by right|apply dimmed_refl].
  - constructor; [by left|apply IH].
Qed.

Lemma dimmed_reset (ps : list Player.t) :
  dimmed (Player.position <$> ps) (Player.position <$> (reset_mortal <$> ps)).
Proof.
  induction ps as [|p ps IH]; cbn; constructor; [|done].
  unfold reset_mortal. case_bool_decide; auto.
Qed.

Lemma dimmed_same (ps ps' : list Player.t) :
  Player.position <$> ps' = Player.position <$> ps →
  dimmed (Player.position <$> ps) (Player.position <$> ps').
Proof. intros ->. apply dimmed_refl. Qed.

Lemma held_alter_elem (ps : list Player.t) i v x :
  x ∈ held_cells (alter (Player.set_position v) i ps) →
  x ∈ held_cells ps ∨ x = v.
Proof.
  unfold held_cells. revert i.
  induction ps as [|p ps IH]; intros [|i]; cbn [alter list_alter];
    rewrite ?fmap_cons; try by left.
  - rewrite !filter_cons. cbn [Player.position Player.set_position].
    destruct (decide (v ≠ JNull)), (decide (Player.position p ≠ JNull));
      rewrite ?elem_of_cons; tauto.
  - rewrite !filter_cons.
    destruct (decide (Player.position p ≠ JNull));
      rewrite ?elem_of_cons; intros H; [destruct H as [->|H]|].
    + by left; left.
    + destruct (IH _ H); [left; by right|by right].
    + apply (IH _ H).
Qed.

Lemma held_elem (ps : list Player.t) x :
  x ∈ held_cells ps → Exists (λ p, Player.position p = x) ps.
Proof.
  unfold held_cells.
  intros [_ (p & -> & Hp)%list_elem_of_fmap]%list_elem_of_filter.
  apply Exists_exists. by exists p.
Qed.

Lemma held_alter_NoDup (ps : list Player.t) i v :
  NoDup (held_cells ps) →
  ¬ Exists (λ p, Player.position p = v) ps →
  NoDup (held_cells (alter (Player.set_position v) i ps)).
Proof.
  revert i.
  induction ps as [|p ps IH]; intros [|i] Hn Hv; cbn [alter list_alter];
    try done.
  - unfold held_cells in *. rewrite fmap_cons, filter_cons in Hn |- *.
    cbn [Player.position Player.set_position].
    assert (NoDup (filter (λ v, v ≠ JNull) (Player.position <$> ps))) as Hn'.
    { destruct (decide (Player.position p ≠ JNull)); [|done].
      by apply NoDup_cons in Hn as [_ ?]. }
    destruct (decide (v ≠ JNull)); [|done].
    apply NoDup_cons. split; [|done].
    intros Hin%held_elem. apply Hv. by right.
  - assert (NoDup (held_cells ps)
            ∧ (Player.position p ≠ JNull →
               Player.position p ∉ held_cells ps)) as [Hn' Hp].
    { unfold held_cells in *. rewrite fmap_cons, filter_cons in Hn.
      destruct (decide (Player.position p ≠ JNull)); [|done].
      by apply NoDup_cons in Hn as [? ?]. }
    assert (NoDup (held_cells (alter (Player.set_position v) i ps))) as Hi.
    { apply IH; [done|]. intros He. apply Hv. by right. }
    unfold held_cells in *. rewrite fmap_cons, filter_cons.
    destruct (decide (Player.position p ≠ JNull)); [|done].
    apply NoDup_cons. split; [|done].
    intros [Hin|Heq]%held_alter_elem; [by apply Hp|].
    apply Hv. by left.
Qed.

Lemma sublist_filter_mono {A} (P : A → Prop) `{∀ x, Decision (P x)}
    (l1 l2 : list A) :
  l1 `sublist_of` l2 → filter P l1 `sublist_of` filter P l2.
Proof.
  induction 1 as [|x l1 l2 _ IH|x l1 l2 _ IH]; [done|..].
  all: rewrite ?filter_cons; destruct (decide (P x)); try done.
  all: by constructor.
Qed.

Lemma held_cells_step cfg sid cmd r r' evs :
  NoDup (held_cells (Room.players r)) →
  handle cfg sid cmd r = Done r' evs →
  NoDup (held_cells (Room.players r')).
Proof.
  intros Hn. destruct cmd; cbn [handle]; intros Hh.
  - unfold join_room in Hh. repeat case_bool_decide; simplify_eq; try done.
    cbn [Room.players Room.set_players].
    unfold held_cells in *. rewrite fmap_app, filter_app.
    change (Player.position <$> [new_player sid playerName false])
      with [JNull].
    rewrite filter_cons, filter_nil.
    destruct (decide (JNull ≠ JNull)); [done|]. by rewrite app_nil_r.
  - unfold toggle_ready in Hh. repeat case_match; simplify_eq; [|done].
    cbn. unfold held_cells in *. by rewrite fmap_alter_same.
  - unfold set_round_config in Hh. repeat case_match; by simplify_eq.
  - unfold start_game in Hh. repeat case_match; simplify_eq; try done.
    cbn. unfold held_cells in *. by rewrite !fmap_alter_same.
  - unfold select_position in Hh.
    case_bool_decide; [by simplify_eq|].
    destruct (find_player sid (Room.players r)) as [[i p]|];
      [|by simplify_eq].
    case_bool_decide; [by simplify_eq|].
    case_bool_decide as Hex; [by simplify_eq|].
    cbn in Hh. case_bool_decide; simplify_eq; cbn.
    all: by apply held_alter_NoDup.
  - unfold submit_claim in Hh. repeat case_match; by simplify_eq.
  - unfold submit_claim_blockchain in Hh. repeat case_match; by simplify_eq.
  - apply verify_claim_players in Hh as [-> _]. done.
  - apply attack_cell_keeps in Hh as (_ & _ & _ & [->|[j ->]]); [done|].
    eapply dimmed_NoDup; [|done]. by apply dimmed_alter.
  - unfold god_choice in Hh. repeat case_match; simplify_eq; try done.
    all: apply startNextRound_keeps in Hh as (_ & _ & _ & _ & Hps).
    all: eapply dimmed_NoDup; [|exact Hn].
    all: destruct Hps as [->|(gi & ni & ->)]; cbn.
    all: try apply dimmed_reset.
    all: eapply dimmed_trans; [|apply dimmed_reset].
    all: eapply dimmed_trans; by apply dimmed_alter.
  - apply disconnect_inv in Hh
      as [[-> _]|(i & p & p0 & ps & _ & E & _ & ->)]; [done|].
    assert (NoDup (held_cells (p0 :: ps))) as Hn'.
    { rewrite <-E. unfold held_cells in *.
      eapply sublist_NoDup; [done|].
      apply sublist_filter_mono, fmap_sublist, sublist_delete. }
    cbn. by case_bool_decide.
  - unfold auto_start in Hh. case_bool_decide; [|by simplify_eq].
    apply startNextRound_keeps in Hh as (_ & _ & _ & _ & Hps).
    eapply dimmed_NoDup; [|exact Hn].
    destruct Hps as [->|(gi & ni & ->)]; cbn.
    + apply dimmed_reset.
    + eapply dimmed_trans; [|apply dimmed_reset].
      eapply dimmed_trans; by apply dimmed_alter.
  - unfold registration_settled in Hh. repeat case_match; by simplify_eq.
Qed.

(** X11.  In every room reached by commands no two players stand on the
    same cell: the positions other than [null] are pairwise different. *)
Theorem reachable_cells_held_once cfg r :
  reachable cfg r → NoDup (held_cells (Room.players r)).
Proof.
  induction 1 as [code hostId hostName|r sid cmd r' evs _ IH Hh].
  - unfold held_cells.
    change (Player.position <$> Room.players (createRoom code hostId hostName))
      with [JNull].
    rewrite filter_cons, filter_nil.
    destruct (decide (JNull ≠ JNull)); [done|]. constructor.
  - by eapply held_cells_step.
Qed.

Lemma reachable_cells_held_once_witness :
  NoDup (held_cells (Room.players bereft_room)).
Proof.
  apply (reachable_cells_held_once local_only bereft_room).
  apply played_reachable. vm_compute. reflexivity.
Defined.

(** ** Phases, counters and the verification budget *)

Lemma settle_verification_keeps r i c :
  let r' := settle_verification r i c in
  Room.code r' = Room.code r
  ∧ Room.players r' = Room.players r
  ∧ Room.phase r' = Room.phase r
  ∧ Room.turn r' = Room.turn r
  ∧ Room.currentRound r' = Room.currentRound r
  ∧ Room.totalRounds r' = Room.totalRounds r
  ∧ Room.attacks r' = Room.attacks r
  ∧ Room.scoreKeys r' = Room.scoreKeys r.
Proof.
  cbn zeta. unfold settle_verification. cbn.
  destruct (truthy (Claim.isTrue c) && Claim.isSelfClaim c); [|done].
  match goal with |- context [addScore ?r' ?pid ?a ?p ?rd ?t] =>
    destruct (addScore_shape r' pid a p rd t) as [m ->] end.
  done.
Qed.

(** A verification that is carried out settles one unverified claim of a
    room in deduction with budget left; any other call leaves the room as
    it is. *)
Lemma verify_claim_inv cfg sid claimId relay r r' evs :
  verify_claim cfg sid claimId relay r = Done r' evs →
  r' = r
  ∨ ∃ j c v on err,
      Room.phase r = deduction
      ∧ Room.verificationsRemaining r > 0
      ∧ list_find (λ c, Claim.id c = claimId) (Room.claims r) = Some (j, c)
      ∧ Claim.verified c = false
      ∧ r' = settle_verification r j (Claim.set_verdict v on err c)
      ∧ ∃ on' err',
          evs = [claim_verified (Claim.set_verdict v on err c)
                   (Room.verificationsRemaining r') on' err'].
Proof.
  intros Hv.
  destruct (decide (Room.phase r = deduction)) as [Hd|Hd]; cycle 1.
  { unfold verify_claim in Hv. rewrite bool_decide_eq_true_2 in Hv by done.
    left. by simplify_eq. }
  destruct (find_player sid (Room.players r)) as [[i p]|] eqn:Hp; cycle 1.
  { unfold verify_claim in Hv. rewrite Hp in Hv. case_bool_decide.
    all: left; by simplify_eq. }
  destruct (decide (Player.role p = Some god)) as [Hr|Hr]; cycle 1.
  { unfold verify_claim in Hv. rewrite Hp in Hv.
    rewrite (bool_decide_eq_true_2 (Player.role p ≠ Some god)) in Hv by done.
    case_bool_decide; left; by simplify_eq. }
  destruct (decide (Room.verificationsRemaining r > 0)) as [Hvr|Hvr]; cycle 1.
  { unfold verify_claim in Hv. rewrite Hp in Hv.
    rewrite (bool_decide_eq_true_2 (_ <= 0)) in Hv by lia.
    repeat case_bool_decide; left; by simplify_eq. }
  destruct (list_find (λ c, Claim.id c = claimId) (Room.claims r))
    as [[j c]|] eqn:Hc; cycle 1.
  { unfold verify_claim in Hv. rewrite Hp, Hc in Hv.
    repeat case_bool_decide; left; by simplify_eq. }
  destruct (Claim.verified c) eqn:Hver.
  { unfold verify_claim in Hv. rewrite Hp, Hc, Hver in Hv.
    repeat case_bool_decide; left; by simplify_eq. }
  right. exists j, c.
  unfold verify_claim in Hv. rewrite Hp, Hc, Hver in Hv.
  rewrite (bool_decide_eq_false_2 (Room.phase r ≠ deduction)) in Hv by tauto.
  rewrite (bool_decide_eq_false_2 (Player.role p ≠ Some god)) in Hv by tauto.
  rewrite (bool_decide_eq_false_2 (_ <= 0)) in Hv by lia.
  repeat case_match; simplify_eq.
  all: eexists _, _, _; split_and!; try done; by eexists _, _.
Qed.

Ltac quiet := left; split_and!; try done; by left.

(** How one command moves the phase, the turn, the round counters and
    the verification budget. *)
Lemma clock_step cfg sid cmd r r' evs :
  handle cfg sid cmd r = Done r' evs →
  (Room.totalRounds r' = Room.totalRounds r
   ∧ Room.currentRound r' = Room.currentRound r
   ∧ Room.turn r' = Room.turn r
   ∧ Room.verificationsRemaining r' = Room.verificationsRemaining r
   ∧ (Room.phase r' = Room.phase r
      ∨ (Room.phase r = setup ∧ Room.phase r' = claiming)
      ∨ (Room.phase r = claiming ∧ Room.phase r' = deduction)
      ∨ (Room.phase r = deduction ∧ Room.phase r' = ended
         ∧ Room.currentRound r >= Room.totalRounds r)
      ∨ (Room.phase r = deduction ∧ Room.phase r' = round_transition
         ∧ Room.currentRound r < Room.totalRounds r)))
  ∨ (Room.phase r = lobby ∧ Room.phase r' = lobby
     ∧ Room.totalRounds r' ∈ ROUND_OPTIONS
     ∧ Room.currentRound r' = Room.currentRound r
     ∧ Room.turn r' = Room.turn r
     ∧ Room.verificationsRemaining r' = Room.verificationsRemaining r)
  ∨ ((∃ shuffled, cmd = Start_game shuffled)
     ∧ Room.phase r' = setup
     ∧ Room.totalRounds r' = Room.totalRounds r
     ∧ Room.currentRound r' = 1
     ∧ Room.turn r' = 1
     ∧ Room.verificationsRemaining r' = Room.verificationsRemaining r)
  ∨ (Room.phase r = deduction ∧ Room.phase r' = deduction
     ∧ Room.totalRounds r' = Room.totalRounds r
     ∧ Room.currentRound r' = Room.currentRound r
     ∧ Room.turn r' = Room.turn r
     ∧ Room.verificationsRemaining r > 0
     ∧ Room.verificationsRemaining r' = Room.verificationsRemaining r - 1)
  ∨ (Room.phase r = deduction ∧ Room.phase r' = claiming
     ∧ Room.totalRounds r' = Room.totalRounds r
     ∧ Room.currentRound r' = Room.currentRound r
     ∧ Room.turn r < TURNS_PER_ROUND
     ∧ Room.turn r' = Room.turn r + 1
     ∧ Room.verificationsRemaining r' = Room.verificationsRemaining r + 2)
  ∨ (Room.phase r = round_transition ∧ Room.phase r' = setup
     ∧ Room.totalRounds r' = Room.totalRounds r
     ∧ Room.currentRound r' = Room.currentRound r + 1
     ∧ Room.turn r' = 1
     ∧ Room.verificationsRemaining r' = 2).
Proof.
  assert (∀ keepGodId pick r0 evs0,
            Room.phase r = round_transition →
            Room.totalRounds r0 = Room.totalRounds r →
            Room.currentRound r0 = Room.currentRound r →
            startNextRound r0 keepGodId pick = Done r' evs0 →
            Room.phase r = round_transition ∧ Room.phase r' = setup
            ∧ Room.totalRounds r' = Room.totalRounds r
            ∧ Room.currentRound r' = Room.currentRound r + 1
            ∧ Room.turn r' = 1
            ∧ Room.verificationsRemaining r' = 2) as Hnext.
  { intros keepGodId pick r0 evs0 Hph Htr Hcr Hs.
    pose proof (startNextRound_fields _ _ _ _ _ Hs) as (? & ? & ? & ? & _).
    pose proof (startNextRound_keeps _ _ _ _ _ Hs) as (_ & ? & _).
    split_and!; congruence. }
  destruct cmd; cbn [handle]; intros Hh.
  - unfold join_room in Hh. repeat case_bool_decide; simplify_eq; quiet.
  - unfold toggle_ready in Hh. repeat case_match; simplify_eq; quiet.
  - unfold set_round_config in Hh.
    case_bool_decide as Hph; [simplify_eq; quiet|].
    assert (Room.phase r = lobby) as Hl
      by (destruct (decide (Room.phase r = lobby)); [done|tauto]).
    repeat case_match; simplify_eq; try quiet.
    right; left. cbn. split_and!; try done.
    by apply bool_decide_eq_true in H1.
  - unfold start_game in Hh.
    repeat case_match; simplify_eq; try quiet.
    right; right; left. cbn. split_and!; try done. by eexists.
  - left. unfold select_position in Hh.
    case_bool_decide as Hph; [simplify_eq; split_and!; try done; by left|].
    assert (Room.phase r = setup) as Hl
      by (destruct (decide (Room.phase r = setup)); [done|tauto]).
    repeat case_match; simplify_eq.
    all: cbn; split_and!; try done; auto.
  - left. unfold submit_claim in Hh.
    case_bool_decide as Hph; [simplify_eq; split_and!; try done; by left|].
    assert (Room.phase r = claiming) as Hl
      by (destruct (decide (Room.phase r = claiming)); [done|tauto]).
    repeat case_match; simplify_eq.
    all: cbn; split_and!; try done; auto.
  - unfold submit_claim_blockchain in Hh.
    repeat case_match; simplify_eq; quiet.
  - apply verify_claim_inv in Hh
      as [->|(j & c & v & on & err & Hph & Hvr & _ & _ & -> & _)]; [quiet|].
    do 3 right; left.
    destruct (settle_verification_keeps r j (Claim.set_verdict v on err c))
      as (_ & _ & -> & -> & -> & -> & _).
    rewrite settle_verification_budget. done.
  - pose proof (attack_cell_keeps _ _ _ _ _ Hh) as (_ & Htr & _).
    apply attack_cell_cases in Hh
      as [[-> _]|(Hph & Hcr & [(Ht & Hp & Ht' & Hv)|(Ht & Hv & Hp)])].
    + quiet.
    + do 4 right; left. done.
    + left. split_and!; try done. case_bool_decide.
      * right; right; right; left. done.
      * right; right; right; right. split_and!; [done..|lia].
  - unfold god_choice in Hh.
    case_bool_decide as Hph; [simplify_eq; quiet|].
    assert (Room.phase r = round_transition) as Hl
      by (destruct (decide (Room.phase r = round_transition));
          [done|tauto]).
    repeat case_match; simplify_eq; try quiet.
    all: do 5 right; eapply Hnext; [..|exact Hh]; done.
  - apply disconnect_inv in Hh
      as [[-> _]|(i & p & p0 & ps & _ & _ & _ & ->)]; quiet.
  - unfold auto_start in Hh.
    case_bool_decide as Hph; [|simplify_eq; quiet].
    do 5 right. eapply Hnext; [..|exact Hh]; done.
  - unfold registration_settled in Hh.
    repeat case_match; simplify_eq; quiet.
Qed.

Lemma phase_step cfg sid cmd r r' evs :
  handle cfg sid cmd r = Done r' evs →
  phase_move cmd (Room.phase r) (Room.phase r').
Proof.
  destruct cmd; cbn [handle]; intros Hh.
  - unfold join_room in Hh.
    repeat case_bool_decide; simplify_eq; constructor.
  - unfold toggle_ready in Hh. repeat case_match; simplify_eq; constructor.
  - unfold set_round_config in Hh.
    repeat case_match; simplify_eq; constructor.
  - unfold start_game in Hh. repeat case_match; simplify_eq; constructor.
  - unfold select_position in Hh.
    case_bool_decide as Hph; [simplify_eq; constructor|].
    assert (Room.phase r = setup) as Hl
      by (destruct (decide (Room.phase r = setup)); [done|tauto]).
    repeat case_match; simplify_eq; cbn; rewrite ?Hl; constructor.
  - unfold submit_claim in Hh.
    case_bool_decide as Hph; [simplify_eq; constructor|].
    assert (Room.phase r = claiming) as Hl
      by (destruct (decide (Room.phase r = claiming)); [done|tauto]).
    repeat case_match; simplify_eq; cbn; rewrite ?Hl; constructor.
  - unfold submit_claim_blockchain in Hh.
    repeat case_match; simplify_eq; constructor.
  - apply verify_claim_players in Hh as [_ ->]. constructor.
  - apply attack_cell_cases in Hh
      as [[-> _]|(-> & _ & [(_ & -> & _)|(_ & _ & Hp)])];
      [constructor..|].
    case_bool_decide; rewrite Hp; constructor.
  - unfold god_choice in Hh.
    case_bool_decide as Hph; [simplify_eq; constructor|].
    assert (Room.phase r = round_transition) as Hl
      by (destruct (decide (Room.phase r = round_transition));
          [done|tauto]).
    repeat case_match; simplify_eq; try constructor.
    all: apply startNextRound_phase in Hh as ->; rewrite Hl; constructor.
  - apply disconnect_inv in Hh
      as [[-> _]|(i & p & p0 & ps & _ & _ & _ & ->)]; constructor.
  - unfold auto_start in Hh.
    case_bool_decide as Hph; [|simplify_eq; constructor].
    apply startNextRound_phase in Hh as ->. rewrite Hph. constructor.
  - unfold registration_settled in Hh.
    repeat case_match; simplify_eq; constructor.
Qed.

(** X12.  A command moves the phase along the edges of the phase machine
    only: setup to claiming by select_position, claiming to deduction by
    submit_claim, deduction to claiming, round_transition or ended by
    attack_cell, round_transition to setup by god_choice or the timer,
    and any phase to setup by start_game.  So no command leads back to
    the lobby, and only start_game leaves the ended phase. *)
Theorem phase_machine cfg sid cmd r r' evs :
  handle cfg sid cmd r = Done r' evs →
  phase_move cmd (Room.phase r) (Room.phase r')
  ∧ (Room.phase r' = lobby → Room.phase r = lobby)
  ∧ (Room.phase r = ended → Room.phase r' ≠ ended →
     ∃ shuffled, cmd = Start_game shuffled).
Proof.
  intros Hm%phase_step. split; [done|].
  split.
  - intros Hl. rewrite Hl in Hm. by inversion Hm.
  - intros He Hne. rewrite He in Hm.
    inversion Hm; subst; try done; try congruence. by eexists.
Qed.

Lemma phase_machine_witness :
  ∃ r' evs,
    handle local_only "h" (Attack_cell (JNum 2)) deduction_room
    = Done r' evs
    ∧ phase_move (Attack_cell (JNum 2)) (Room.phase deduction_room)
        (Room.phase r').
Proof.
  destruct (handle local_only "h" (Attack_cell (JNum 2)) deduction_room)
    as [r' evs|r' evs|] eqn:E.
  - exists r', evs. split; [done|].
    exact (proj1 (phase_machine _ _ _ _ _ _ E)).
  - exfalso. vm_compute in E. discriminate.
  - exfalso. vm_compute in E. discriminate.
Defined.

Lemma ROUND_OPTIONS_range n : n ∈ ROUND_OPTIONS → 3 ≤ n ≤ 5.
Proof.
  unfold ROUND_OPTIONS. rewrite !elem_of_cons, elem_of_nil. lia.
Qed.

Lemma counters_step cfg sid cmd r r' evs :
  counters_in_range r →
  handle cfg sid cmd r = Done r' evs →
  counters_in_range r'.
Proof.
  unfold counters_in_range, TURNS_PER_ROUND.
  intros (Htr & Hcr & Ht & Hl & Hnl & Hrt) Hh.
  pose proof (ROUND_OPTIONS_range _ Htr) as Hb.
  apply clock_step in Hh
    as [(-> & -> & -> & _ & Hp)
       |[(Hp & Hp' & Htr' & -> & -> & _)
        |[(_ & Hp' & -> & -> & -> & _)
         |[(Hp & Hp' & -> & -> & -> & _)
          |[(Hp & Hp' & -> & -> & Ht3 & -> & _)
           |(Hp & Hp' & -> & -> & -> & _)]]]]].
  - refine (conj _ (conj _ (conj _ (conj _ (conj _ _))))); [done..| | |].
    + intros Hl'. apply Hl. destruct_or!; destruct_and?; congruence.
    + intros Hnl'. apply Hnl. destruct_or!; destruct_and?; congruence.
    + intros Hrt'. destruct_or!; destruct_and?; try congruence.
      apply Hrt. congruence.
  - pose proof (ROUND_OPTIONS_range _ Htr'). destruct (Hl Hp) as [-> ->].
    refine (conj _ (conj _ (conj _ (conj _ (conj _ _))))); try done; try lia.
    all: intros; congruence.
  - rewrite Hp'.
    refine (conj _ (conj _ (conj _ (conj _ (conj _ _))))); try done; lia.
  - rewrite Hp'. rewrite Hp in *.
    refine (conj _ (conj _ (conj _ (conj _ (conj _ _))))); try done.
    all: intros; by apply Hnl.
  - rewrite Hp'. rewrite Hp in *. unfold TURNS_PER_ROUND in *.
    assert (1 ≤ Room.turn r) by (by apply Hnl).
    refine (conj _ (conj _ (conj _ (conj _ (conj _ _))))); try done; lia.
  - rewrite Hp'. specialize (Hrt Hp).
    refine (conj _ (conj _ (conj _ (conj _ (conj _ _))))); try done; lia.
Qed.

Lemma counters_kept cfg r : reachable cfg r → counters_in_range r.
Proof.
  induction 1 as [code hostId hostName|r sid cmd r' evs _ IH Hh].
  - unfold counters_in_range, ROUND_OPTIONS, TURNS_PER_ROUND. cbn.
    refine (conj _ (conj _ (conj _ (conj _ (conj _ _))))); try done; try lia.
    rewrite !elem_of_cons. by left.
  - by eapply counters_step.
Qed.

(** X13.  In every room reached by commands the counters are in range:
    the number of rounds is 3, 4 or 5, the current round lies between 1
    and that number and is below it during a round transition, and the
    turn lies between 0 and 3, being 0 in the lobby only. *)
Theorem reachable_counters_in_range cfg r :
  reachable cfg r → counters_in_range r.
Proof.
  induction 1 as [code hostId hostName|r sid cmd r' evs _ IH Hh].
  - unfold counters_in_range, ROUND_OPTIONS, TURNS_PER_ROUND. cbn.
    refine (conj _ (conj _ (conj _ (conj _ (conj _ _))))); try done; try lia.
    rewrite !elem_of_cons. by left.
  - by eapply counters_step.
Qed.

Lemma reachable_counters_in_range_witness :
  counters_in_range ended_room.
Proof.
  apply (reachable_counters_in_range local_only ended_room).
  apply played_reachable. vm_compute. reflexivity.
Defined.

(** X14.  On a server that does not delegate verification
    ([USE_BLOCKCHAIN] or [RELAYER_CONFIGURED] off), where verify_claim
    runs from its checks to its decrement without awaiting the relayer,
    the number of verifications remaining is not negative in any room
    reached by commands. *)
Theorem reachable_budget_not_negative cfg r :
  USE_BLOCKCHAIN cfg && RELAYER_CONFIGURED cfg = false →
  reachable cfg r → 0 ≤ Room.verificationsRemaining r.
Proof.
  intros _.
  induction 1 as [code hostId hostName|r sid cmd r' evs _ IH Hh]; [done|].
  apply clock_step in Hh
    as [(_ & _ & _ & -> & _)
       |[(_ & _ & _ & _ & _ & ->)
        |[(_ & _ & _ & _ & _ & ->)
         |[(_ & _ & _ & _ & _ & ? & ->)
          |[(_ & _ & _ & _ & _ & _ & ->)
           |(_ & _ & _ & _ & _ & ->)]]]]]; lia.
Qed.

Lemma reachable_budget_not_negative_witness :
  USE_BLOCKCHAIN local_only && RELAYER_CONFIGURED local_only = false
  ∧ 0 ≤ Room.verificationsRemaining second_turn_room.
Proof.
  split; [reflexivity|].
  apply (reachable_budget_not_negative local_only second_turn_room);
    [reflexivity|].
  apply played_reachable. vm_compute. reflexivity.
Defined.

(** X15.  As long as start_game is issued in the lobby only, the budget
    is 2 in the lobby and afterwards at most twice the number of the
    turn, hence never above 6: what the god leaves unused is carried
    over to the next turn of the round and no further. *)
Theorem budget_carried_within_the_round cfg r :
  by_the_book cfg r →
  (Room.phase r = lobby → Room.verificationsRemaining r = 2)
  ∧ (Room.phase r ≠ lobby →
     Room.verificationsRemaining r ≤ 2 * Room.turn r)
  ∧ Room.verificationsRemaining r ≤ 6.
Proof.
  intros Hb.
  pose proof (counters_kept cfg r (by_the_book_reachable _ _ Hb))
    as (_ & _ & Ht & _).
  unfold TURNS_PER_ROUND in Ht.
  cut ((Room.phase r = lobby → Room.verificationsRemaining r = 2)
       ∧ (Room.phase r ≠ lobby →
          Room.verificationsRemaining r ≤ 2 * Room.turn r)).
  { intros [Hl Hnl]. split_and!; [done..|].
    destruct (decide (Room.phase r = lobby)) as [H|H];
      [rewrite Hl by done; lia|specialize (Hnl H); lia]. }
  clear Ht.
  induction Hb as [code hostId hostName|r sid cmd r' evs _ IH Hstart Hh];
    [done|].
  destruct IH as [Hl Hnl].
  apply clock_step in Hh
    as [(_ & _ & -> & -> & Hp)
       |[(Hp & Hp' & _ & _ & -> & ->)
        |[([shuffled ->] & Hp' & _ & _ & -> & ->)
         |[(Hp & Hp' & _ & _ & -> & ? & ->)
          |[(Hp & Hp' & _ & _ & _ & -> & ->)
           |(Hp & Hp' & _ & _ & -> & ->)]]]]].
  - split.
    + intros Hl'. apply Hl. destruct_or!; destruct_and?; congruence.
    + intros Hnl'. apply Hnl. destruct_or!; destruct_and?; congruence.
  - split; [by intros; apply Hl|congruence].
  - rewrite Hp'. split; [done|]. intros _.
    rewrite Hl by (by eapply Hstart). lia.
  - rewrite Hp'. split; [done|]. intros _.
    assert (Room.phase r ≠ lobby) as H' by congruence.
    specialize (Hnl H'). lia.
  - rewrite Hp'. split; [done|]. intros _.
    assert (Room.phase r ≠ lobby) as H' by congruence.
    specialize (Hnl H'). lia.
  - rewrite Hp'. split; [done|]. intros _. lia.
Qed.

Lemma budget_carried_within_the_round_witness :
  Room.verificationsRemaining second_turn_room ≤ 6.
Proof.
  apply (budget_carried_within_the_round local_only second_turn_room).
  apply played_by_the_book. vm_compute. reflexivity.
Defined.

(** ** Scores *)

Lemma sum_points_snoc l e :
  sum_points (l ++ [e]) = sum_points l + ScoreEntry.points e.
Proof.
  unfold sum_points. induction l as [|x l IH]; cbn; [lia|].
  rewrite IH. lia.
Qed.

Lemma scores_balanced_same r r' :
  Room.scores r' = Room.scores r → scores_balanced r → scores_balanced r'.
Proof. unfold scores_balanced. by intros ->. Qed.

Lemma addScore_balanced r pid a pts rd t :
  scores_balanced r → scores_balanced (addScore r pid a pts rd t).
Proof.
  intros Hb. unfold addScore.
  destruct (Room.scores r !! pid) as [s0|] eqn:E; [|done].
  destruct (Hb _ _ E) as [Hid Htot].
  intros k s. cbn. rewrite lookup_insert_Some.
  intros [[<- <-]|[_ Hk]]; [|by apply Hb].
  cbn. split; [done|]. rewrite sum_points_snoc. cbn. lia.
Qed.

Lemma survive_loop_balanced l r :
  scores_balanced r → scores_balanced (survive_loop l r).
Proof.
  revert r. induction l as [|x l IH]; intros r Hb; [done|].
  rewrite survive_loop_cons. by apply IH, addScore_balanced.
Qed.

Lemma god_points_balanced godId hit gh r :
  scores_balanced r → scores_balanced (god_points godId hit gh r).
Proof.
  intros Hb. unfold god_points.
  destruct hit; [by apply addScore_balanced|].
  destruct (GodHistory.hasPenalty gh); [|done].
  by apply addScore_balanced.
Qed.

Lemma settle_verification_balanced r i c :
  scores_balanced r → scores_balanced (settle_verification r i c).
Proof.
  intros Hb. unfold settle_verification.
  destruct (truthy (Claim.isTrue c) && Claim.isSelfClaim c); [|done].
  apply (scores_balanced_same
           (addScore (Room.set_claims (<[i:=c]> (Room.claims r)) r)
              (Claim.playerId c) "true_self_claim" POINTS.TRUE_SELF_CLAIM
              (Room.currentRound r) (Room.turn r))); [done|].
  by apply addScore_balanced.
Qed.

Lemma init_scores_balanced ps k s :
  (init_scores ps).1 !! k = Some s →
  PlayerScore.playerId s = k
  ∧ PlayerScore.total s = sum_points (PlayerScore.breakdown s).
Proof.
  unfold init_scores.
  set (f := λ (acc : gmap string PlayerScore.t * list string) p, _).
  assert (∀ acc,
            (∀ k s, acc.1 !! k = Some s →
               PlayerScore.playerId s = k
               ∧ PlayerScore.total s = sum_points (PlayerScore.breakdown s)) →
            ∀ k s, (foldl f acc ps).1 !! k = Some s →
               PlayerScore.playerId s = k
               ∧ PlayerScore.total s = sum_points (PlayerScore.breakdown s))
    as Hgen.
  { induction ps as [|p ps IH]; intros acc Hacc; [done|].
    cbn [foldl]. apply IH. destruct acc as [m ks]. subst f. cbn.
    intros k' s'. rewrite lookup_insert_Some.
    intros [[<- <-]|[_ Hk]]; [done|by apply (Hacc k' s')]. }
  apply Hgen. intros k' s'. cbn. by rewrite lookup_empty.
Qed.

Lemma scores_balanced_step cfg sid cmd r r' evs :
  scores_balanced r →
  handle cfg sid cmd r = Done r' evs →
  scores_balanced r'.
Proof.
  intros Hb. destruct cmd; cbn [handle]; intros Hh.
  - unfold join_room in Hh. repeat case_bool_decide; by simplify_eq.
  - unfold toggle_ready in Hh. repeat case_match; by simplify_eq.
  - unfold set_round_config in Hh. repeat case_match; by simplify_eq.
  - unfold start_game in Hh.
    repeat case_match; simplify_eq; try done.
    intros k s. cbn. intros Hk.
    match goal with
    | H : init_scores ?ps = _ |- _ =>
        apply (init_scores_balanced ps); by rewrite H
    end.
  - unfold select_position in Hh. repeat case_match; by simplify_eq.
  - unfold submit_claim in Hh. repeat case_match; by simplify_eq.
  - unfold submit_claim_blockchain in Hh. repeat case_match; by simplify_eq.
  - apply verify_claim_inv in Hh
      as [->|(j & c & v & on & err & _ & _ & _ & _ & -> & _)]; [done|].
    by apply settle_verification_balanced.
  - apply attack_cell_inv in Hh
      as [[-> _]|(i & p & gi & g & gh & evs0 & _ & _ & _ & _ & _ & Hc)];
      [done|].
    apply check_end_of_round_keeps in Hc as (_ & _ & _ & _ & _ & Hs & _).
    eapply scores_balanced_same; [exact Hs|].
    apply survive_loop_balanced, god_points_balanced.
    eapply scores_balanced_same; [|exact Hb].
    apply strike_rest.
  - unfold god_choice in Hh. repeat case_match; simplify_eq; try done.
    all: apply startNextRound_keeps in Hh as (_ & _ & Hs & _).
    all: by eapply scores_balanced_same.
  - apply disconnect_inv in Hh
      as [[-> _]|(i & p & p0 & ps & _ & _ & _ & ->)]; done.
  - unfold auto_start in Hh. case_bool_decide; [|by simplify_eq].
    apply startNextRound_keeps in Hh as (_ & _ & Hs & _).
    by eapply scores_balanced_same.
  - unfold registration_settled in Hh. repeat case_match; by simplify_eq.
Qed.

(** X16.  In every room reached by commands each score entry is filed
    under the id of its player, and its total is the sum of the points of
    its breakdown. *)
Theorem reachable_scores_balanced cfg r :
  reachable cfg r → scores_balanced r.
Proof.
  induction 1 as [code hostId hostName|r sid cmd r' evs _ IH Hh].
  - intros k s. cbn. by rewrite lookup_empty.
  - by eapply scores_balanced_step.
Qed.

Lemma reachable_scores_balanced_witness : scores_balanced ended_room.
Proof.
  apply (reachable_scores_balanced local_only ended_room).
  apply played_reachable. vm_compute. reflexivity.
Defined.

(** ** Claims *)

(** A command leaves the claims as they are, appends a claim whose
    triple and slot are new, rewrites the flags of one claim, or clears
    the list. *)
Lemma claims_step cfg sid cmd r r' evs :
  handle cfg sid cmd r = Done r' evs →
  Room.claims r' = Room.claims r
  ∨ (∃ c, Room.claims r' = (Room.claims r ++ [c])%list
          ∧ ¬ Exists (λ c', claim_triple c' = claim_triple c) (Room.claims r)
          ∧ ¬ Exists (λ c', claim_slot c' = claim_slot c) (Room.claims r))
  ∨ (∃ i c c', Room.claims r !! i = Some c
               ∧ Room.claims r' = <[i:=c']> (Room.claims r)
               ∧ claim_triple c' = claim_triple c
               ∧ claim_slot c' = claim_slot c)
  ∨ Room.claims r' = [].
Proof.
  destruct cmd; cbn [handle]; intros Hh.
  - left. unfold join_room in Hh. repeat case_bool_decide; by simplify_eq.
  - left. unfold toggle_ready in Hh. repeat case_match; by simplify_eq.
  - left. unfold set_round_config in Hh. repeat case_match; by simplify_eq.
  - left. unfold start_game in Hh. repeat case_match; by simplify_eq.
  - left. unfold select_position in Hh. repeat case_match; by simplify_eq.
  - unfold submit_claim, claimExists in Hh.
    repeat case_match; simplify_eq; try (by left).
    all: right; left; eexists; split; [reflexivity|].
    all: repeat match goal with
           | H : bool_decide (Exists _ _) = false |- _ =>
               apply bool_decide_eq_false in H
           end.
    all: split; intros Hex.
    all: match goal with
         | H : ¬ Exists _ _ |- _ =>
             apply H; eapply Exists_impl; [exact Hex|];
             cbn; intros c'; unfold claim_triple, claim_slot; cbn;
             intros [=]; done
         end.
  - unfold submit_claim_blockchain in Hh.
    repeat case_match; simplify_eq; try (by left).
    right; right; left.
    match goal with
    | H : list_find _ _ = Some _ |- _ => apply list_find_Some in H as [H _]
    end.
    by eexists _, _, _.
  - apply verify_claim_inv in Hh
      as [->|(j & c & v & on & err & _ & _ & [Hj _]%list_find_Some & _ & ->
           & _)];
      [by left|].
    right; right; left. rewrite settle_verification_claims.
    by eexists _, _, _.
  - left. by apply attack_cell_keeps in Hh as (_ & _ & -> & _).
  - unfold god_choice in Hh. repeat case_match; simplify_eq; try (by left).
    all: do 3 right; by apply startNextRound_fields in Hh as (_&_&_&_&->&_).
  - left. apply disconnect_inv in Hh
      as [[-> _]|(i & p & p0 & ps & _ & _ & _ & ->)]; done.
  - unfold auto_start in Hh. case_bool_decide; [|left; by simplify_eq].
    do 3 right. by apply startNextRound_fields in Hh as (_&_&_&_&->&_).
  - left. unfold registration_settled in Hh.
    repeat case_match; by simplify_eq.
Qed.

Lemma key_NoDup_step {K} (f : Claim.t → K) (l l' : list Claim.t) :
  NoDup (f <$> l) →
  l' = l
  ∨ (∃ c, l' = (l ++ [c])%list ∧ ¬ Exists (λ c', f c' = f c) l)
  ∨ (∃ i c c', l !! i = Some c ∧ l' = <[i:=c']> l ∧ f c' = f c)
  ∨ l' = [] →
  NoDup (f <$> l').
Proof.
  intros Hn [->|[(c & -> & Hc)|[(i & c & c' & Hi & -> & Hf)| ->]]].
  - done.
  - rewrite fmap_app. apply NoDup_app. split_and!; [done| |].
    + intros k (c' & -> & Hin)%list_elem_of_fmap
        [Heq|[]%elem_of_nil]%elem_of_cons.
      apply Hc, Exists_exists. by exists c'.
    + cbn. apply NoDup_singleton.
  - rewrite list_fmap_insert, Hf, list_insert_id; [done|].
    by rewrite list_lookup_fmap, Hi.
  - cbn. constructor.
Qed.

(** X17.  In every room reached by commands no two claims have the same
    target, type and value. *)
Theorem reachable_claim_triples_differ cfg r :
  reachable cfg r → NoDup (claim_triple <$> Room.claims r).
Proof.
  induction 1 as [code hostId hostName|r sid cmd r' evs _ IH Hh].
  - cbn. constructor.
  - eapply key_NoDup_step; [exact IH|].
    apply claims_step in Hh
      as [?|[(c & ? & ? & _)|[(i & c & c' & ? & ? & ? & _)|?]]]; eauto 10.
Qed.

Lemma reachable_claim_triples_differ_witness :
  NoDup (claim_triple <$> Room.claims second_turn_room).
Proof.
  apply (reachable_claim_triples_differ local_only second_turn_room).
  apply played_reachable. vm_compute. reflexivity.
Defined.

(** X18.  In every room reached by commands no player has two claims of
    the same turn among the claims of the room. *)
Theorem reachable_one_claim_per_turn cfg r :
  reachable cfg r → NoDup (claim_slot <$> Room.claims r).
Proof.
  induction 1 as [code hostId hostName|r sid cmd r' evs _ IH Hh].
  - cbn. constructor.
  - eapply key_NoDup_step; [exact IH|].
    apply claims_step in Hh
      as [?|[(c & ? & _ & ?)|[(i & c & c' & ? & ? & _ & ?)|?]]]; eauto 10.
Qed.

Lemma reachable_one_claim_per_turn_witness :
  NoDup (claim_slot <$> Room.claims deduction_room).
Proof.
  apply (reachable_one_claim_per_turn local_only deduction_room).
  apply played_reachable. vm_compute. reflexivity.
Defined.

(** ** The final ranking *)

Lemma insert_desc_perm x l : insert_desc x l ≡ₚ x :: l.
Proof.
  induction l as [|y l IH]; cbn; [done|].
  case_bool_decide; [|done]. rewrite IH. apply Permutation_swap.
Qed.

Lemma insert_desc_sorted x l :
  StronglySorted outranks l → StronglySorted outranks (insert_desc x l).
Proof.
  induction l as [|y l IH]; cbn; intros Hs.
  - by repeat constructor.
  - apply StronglySorted_inv in Hs as [Hl Hy].
    case_bool_decide as Hlt.
    + constructor; [by apply IH|].
      rewrite insert_desc_perm. constructor; [unfold outranks; lia|done].
    + constructor; [by constructor|].
      constructor; [unfold outranks; lia|].
      eapply Forall_impl; [exact Hy|]. unfold outranks. intros; lia.
Qed.

Lemma insert_desc_stable t x l :
  filter (λ s, PlayerScore.total s = t) (insert_desc x l)
  = filter (λ s, PlayerScore.total s = t) (x :: l).
Proof.
  induction l as [|y l IH]; cbn [insert_desc]; [done|].
  case_bool_decide as Hlt; [|done].
  rewrite (filter_cons _ y), IH, !filter_cons.
  destruct (decide (PlayerScore.total y = t)),
    (decide (PlayerScore.total x = t)); try done. lia.
Qed.

Lemma sort_desc_perm l : foldr insert_desc [] l ≡ₚ l.
Proof.
  induction l as [|x l IH]; cbn [foldr]; [done|].
  by rewrite insert_desc_perm, IH.
Qed.

Lemma sort_desc_sorted l : StronglySorted outranks (foldr insert_desc [] l).
Proof.
  induction l as [|x l IH]; cbn [foldr]; [constructor|].
  by apply insert_desc_sorted.
Qed.

Lemma sort_desc_stable t l :
  filter (λ s, PlayerScore.total s = t) (foldr insert_desc [] l)
  = filter (λ s, PlayerScore.total s = t) l.
Proof.
  induction l as [|x l IH]; cbn [foldr]; [done|].
  by rewrite insert_desc_stable, !filter_cons, IH.
Qed.

(** X23.  The ranking that ends the game lists the score entries, each
    once, in descending order of their totals; entries with the same
    total keep the order in which they were entered.  So the announced
    winner, the head of the ranking, has a total no entry exceeds. *)
Theorem ranking_sorted_and_stable r :
  ranking_of r ≡ₚ score_entries r
  ∧ StronglySorted outranks (ranking_of r)
  ∧ (∀ t, filter (λ s, PlayerScore.total s = t) (ranking_of r)
          = filter (λ s, PlayerScore.total s = t) (score_entries r))
  ∧ (∀ w s, head (ranking_of r) = Some w → s ∈ score_entries r →
       PlayerScore.total s ≤ PlayerScore.total w).
Proof.
  unfold ranking_of. fold (score_entries r).
  pose proof (sort_desc_perm (score_entries r)) as Hp.
  pose proof (sort_desc_sorted (score_entries r)) as Hs.
  split_and!; [done|done|by intros; apply sort_desc_stable|].
  intros w s Hw Hin. rewrite <-Hp in Hin.
  destruct (foldr insert_desc [] (score_entries r)) as [|w' l]; [done|].
  injection Hw as ->.
  apply StronglySorted_inv in Hs as [_ Hall].
  apply elem_of_cons in Hin as [->|Hin]; [done|].
  rewrite Forall_forall in Hall. by apply Hall.
Qed.

Lemma ranking_sorted_and_stable_witness :
  ∃ w, head (ranking_of ended_room) = Some w
       ∧ PlayerScore.playerId w = "h"
       ∧ ∀ s, s ∈ score_entries ended_room →
              PlayerScore.total s ≤ PlayerScore.total w.
Proof.
  destruct (head (ranking_of ended_room)) as [w|] eqn:E;
    [|exfalso; vm_compute in E; discriminate].
  exists w. split; [done|]. split.
  - vm_compute in E. by injection E as <-.
  - intros s Hs.
    exact (proj2 (proj2 (proj2 (ranking_sorted_and_stable ended_room)))
             w s E Hs).
Defined.

(** ** Operations *)

Lemma find_player_alter (f : Player.t → Player.t) sid ps i p :
  find_player sid ps = Some (i, p) →
  (∀ q, Player.id (f q) = Player.id q) →
  find_player sid (alter f i ps) = Some (i, f p).
Proof.
  unfold find_player. intros (Hi & Hp & Hlt)%list_find_Some Hf.
  apply list_find_Some. split_and!.
  - rewrite list_lookup_alter. destruct (decide (i = i)); [|done].
    by rewrite Hi.
  - by rewrite Hf.
  - intros j y Hj Hji. rewrite list_lookup_alter_ne in Hj by lia.
    by eapply Hlt.
Qed.

(** X21.  Toggling the ready flag twice gives back the room exactly, for
    a socket that is in the room as for one that is not. *)
Theorem toggle_ready_twice sid r :
  ∃ r1 evs, toggle_ready sid r = Done r1 evs
            ∧ toggle_ready sid r1 = Done r evs.
Proof.
  unfold toggle_ready at 1.
  destruct (find_player sid (Room.players r)) as [[i p]|] eqn:Hp; cycle 1.
  { exists r, []. split; [done|]. unfold toggle_ready. by rewrite Hp. }
  eexists _, _. split; [reflexivity|].
  unfold toggle_ready. cbn [Room.players Room.set_players].
  rewrite (find_player_alter _ _ _ _ _ Hp) by done.
  f_equal. cbn [Player.isReady Player.set_isReady].
  rewrite list_alter_alter. destruct (decide (i = i)); [|done].
  apply list_find_Some in Hp as (Hi & _).
  assert (alter (Player.set_isReady (negb (negb (Player.isReady p)))
                 ∘ Player.set_isReady (negb (Player.isReady p))) i
            (Room.players r) = Room.players r) as ->.
  { apply list_eq. intros j. rewrite list_lookup_alter.
    destruct (decide (i = j)) as [<-|]; [|done].
    rewrite Hi. cbn. f_equal. destruct p as [? ? ? ? ? []]; done. }
  by destruct r.
Qed.

Lemma addScore_total_any r pid a pts rd t k :
  total_of (addScore r pid a pts rd t) k
  = total_of r k
    + (if bool_decide (pid = k) && bool_decide (is_Some (Room.scores r !! k))
       then pts else 0).
Proof.
  destruct (Room.scores r !! pid) as [s|] eqn:E.
  - rewrite addScore_total by (by eexists).
    case_bool_decide as Hk; [|done]. subst k.
    rewrite bool_decide_eq_true_2 by (by eexists). done.
  - unfold addScore. rewrite E.
    case_bool_decide as Hk; [|cbn; lia]. subst k.
    rewrite bool_decide_eq_false_2; [cbn; lia|].
    rewrite E. by intros [? ?].
Qed.

(** X22.  A call of [verify_claim] either leaves the room as it is or
    settles one claim: it reports that claim, now verified, and adds 20
    points to the claimant's total exactly when the verdict is truthy and
    the claim is about the claimant; no other total, no player and no
    position changes, and the phase and the turn stay. *)
Theorem verify_claim_award cfg sid claimId relay r r' evs :
  verify_claim cfg sid claimId relay r = Done r' evs →
  r' = r
  ∨ ∃ c' on err,
      evs = [claim_verified c' (Room.verificationsRemaining r') on err]
      ∧ Claim.verified c' = true
      ∧ Room.players r' = Room.players r
      ∧ Room.phase r' = Room.phase r
      ∧ Room.turn r' = Room.turn r
      ∧ ∀ k, total_of r' k = total_of r k + verification_award r c' k.
Proof.
  intros [->|(j & c & v & on & err & _ & _ & _ & _ & -> & on' & err' & ->)]
    %verify_claim_inv; [by left|].
  right. eexists _, _, _. split; [reflexivity|].
  destruct (settle_verification_keeps r j (Claim.set_verdict v on err c))
    as (_ & -> & -> & -> & _).
  split_and!; [done..|].
  intros k. unfold settle_verification, verification_award.
  cbn [Claim.isTrue Claim.isSelfClaim Claim.playerId Claim.set_verdict].
  destruct (truthy v && Claim.isSelfClaim c); cbn [andb].
  - rewrite (total_of_scores _
               (addScore (Room.set_claims
                            (<[j:=Claim.set_verdict v on err c]>
                               (Room.claims r)) r)
                  (Claim.playerId c) "true_self_claim"
                  POINTS.TRUE_SELF_CLAIM (Room.currentRound r)
                  (Room.turn r))) by done.
    by rewrite addScore_total_any.
  - rewrite (total_of_scores _ r) by done. lia.
Qed.

Lemma verify_claim_award_witness :
  ∃ r', (∃ evs, verify_claim local_only "h" "ABC123-1-a" (Rejected "")
                  deduction_room = Done r' evs)
        ∧ total_of r' "a" = total_of deduction_room "a" + 20
        ∧ total_of r' "b" = total_of deduction_room "b".
Proof.
  destruct (verify_claim local_only "h" "ABC123-1-a" (Rejected "")
              deduction_room) as [r' evs|r' evs|] eqn:E;
    [|exfalso; vm_compute in E; discriminate..].
  exists r'. split; [by exists evs|].
  destruct (verify_claim_award _ _ _ _ _ _ _ E)
    as [->|(c' & on & err & -> & _ & _ & _ & _ & Ht)].
  { exfalso. vm_compute in E. discriminate. }
  rewrite !Ht. vm_compute in E. injection E as <- <-. by vm_compute.
Defined.

(** X19.  As long as start_game is issued in the lobby only, only mortals
    stand on the grid, and in the lobby nobody does. *)
Theorem by_the_book_only_mortals_placed cfg r :
  by_the_book cfg r →
  only_mortals_placed (Room.players r)
  ∧ (Room.phase r = lobby →
     Forall (λ q, Player.position q = JNull) (Room.players r)).
Proof.
  induction 1 as [code hostId hostName|r sid cmd r' evs _ IH Hstart Hh].
  - apply createRoom_sound.
  - by eapply placement_sound_step.
Qed.

Lemma by_the_book_only_mortals_placed_witness :
  only_mortals_placed (Room.players bereft_room).
Proof.
  apply (by_the_book_only_mortals_placed local_only bereft_room).
  apply played_by_the_book. vm_compute. reflexivity.
Defined.

(** X20.  As long as start_game is issued in the lobby only, every player
    of a started game has a score entry, so that no award of [addScore]
    is dropped. *)
Theorem by_the_book_scores_cover_players cfg r :
  by_the_book cfg r → Room.phase r ≠ lobby → scores_cover_players r.
Proof.
  induction 1 as [code hostId hostName|r sid cmd r' evs _ IH Hstart Hh];
    [done|].
  intros Hph.
  destruct (decide (Room.phase r = lobby)) as [Hl|Hl].
  - destruct (lobby_left_only_by_start_game _ _ _ _ _ _ Hl Hh Hph)
      as [[shuffled ->] _].
    cbn [handle] in Hh. unfold start_game in Hh.
    repeat case_match; simplify_eq; try done.
    intros q Hq. cbn in Hq |- *.
    match goal with H : init_scores ?ps = _ |- _ =>
      pose proof (init_scores_covers ps q Hq) as Hc; by rewrite H in Hc end.
  - destruct (ids_and_entries_step cfg sid cmd r r' evs) as [Hids Hsc];
      [|done..|].
    { intros shuffled ->. by specialize (Hstart _ eq_refl). }
    eapply covers_transfer; [done..|]. by apply IH.
Qed.

Lemma by_the_book_scores_cover_players_witness :
  scores_cover_players transition_room.
Proof.
  apply (by_the_book_scores_cover_players local_only transition_room).
  - apply played_by_the_book. vm_compute. reflexivity.
  - by vm_compute.
Defined.

(** ** A new round *)

Lemma reset_mortal_clears (ps : list Player.t) :
  Forall (λ p, Player.role p = Some mortal → Player.position p = JNull)
    (reset_mortal <$> ps).
Proof.
  apply Forall_fmap, Forall_forall. intros p _. cbn.
  unfold reset_mortal. case_bool_decide; [done|]. by intros.
Qed.

Lemma reset_mortal_clears_all (ps : list Player.t) :
  Forall (λ q, Player.position q ≠ JNull → Player.role q = Some mortal) ps →
  Forall (λ p, Player.position p = JNull) (reset_mortal <$> ps).
Proof.
  intros H. apply Forall_fmap. eapply Forall_impl; [exact H|].
  intros p Hp. cbn. unfold reset_mortal. case_bool_decide as Hr; [done|].
  destruct (decide (Player.position p = JNull)); [done|]. by destruct Hr, Hp.
Qed.

Lemma startNextRound_roundWinner r keepGodId pick r' evs :
  startNextRound r keepGodId pick = Done r' evs →
  Room.roundWinner r' = None.
Proof.
  unfold startNextRound. destruct (keeps_god keepGodId).
  - by intros [= <- <-].
  - cbn. repeat case_match; try done. all: by intros [= <- <-].
Qed.

(** X24.  A round that [startNextRound] opens starts from a clean slate:
    no claims, no attacks, no round winner, and every mortal off the
    grid (everybody, if only mortals stood on it); the players, their
    names, the host and the scores are as before. *)
Theorem new_round_clean_slate r keepGodId pick r' evs :
  startNextRound r keepGodId pick = Done r' evs →
  Room.claims r' = [] ∧ Room.attacks r' = []
  ∧ Room.roundWinner r' = None
  ∧ Room.scores r' = Room.scores r
  ∧ roster r' = roster r
  ∧ Forall (λ p, Player.role p = Some mortal → Player.position p = JNull)
      (Room.players r')
  ∧ (only_mortals_placed (Room.players r) →
     Forall (λ p, Player.position p = JNull) (Room.players r')).
Proof.
  intros Hs.
  pose proof (startNextRound_fields _ _ _ _ _ Hs) as (_ & _ & _ & _ & -> & ->).
  pose proof (startNextRound_roundWinner _ _ _ _ _ Hs) as ->.
  pose proof (startNextRound_keeps _ _ _ _ _ Hs) as (_ & _ & -> & _ & Hps).
  split_and!; try done.
  - unfold roster.
    destruct Hps as [->|(gi & ni & ->)]; rewrite roster_reset; [done|].
    by rewrite !fmap_alter_same.
  - destruct Hps as [->|(gi & ni & ->)]; apply reset_mortal_clears.
  - intros Hm%only_mortals_placed_Forall.
    destruct Hps as [->|(gi & ni & ->)]; apply reset_mortal_clears_all;
      [done|].
    apply Forall_alter; [|by intros].
    apply Forall_alter; [done|by intros].
Qed.

Lemma new_round_clean_slate_witness :
  Room.claims second_round_room = []
  ∧ Forall (λ p, Player.position p = JNull) (Room.players second_round_room).
Proof.
  assert (startNextRound
            (Room.set_godHistory (Some (GodHistory.mk "h" 2 true 0))
               transition_room) (Some "h") 0
          = Done second_round_room [round_started 2]) as Hs
    by (by vm_compute).
  destruct (new_round_clean_slate _ _ _ _ _ Hs)
    as (Hc & _ & _ & _ & _ & _ & Hall).
  split; [exact Hc|]. apply Hall.
  apply only_mortals_placed_Forall, (bool_decide_unpack _). by vm_compute.
Defined.

Lemma entries_from_elem {A} (P : A → bool) k (l : list A) i x :
  (i, x) ∈ entries_from P k l →
  ∃ j, i = (k + j)%nat ∧ l !! j = Some x ∧ P x = true.
Proof.
  revert k. induction l as [|y l IH]; intros k; cbn.
  - by intros ?%elem_of_nil.
  - destruct (P y) eqn:Hy.
    + intros [[= -> ->]|Hin]%elem_of_cons.
      * exists 0%nat. split_and!; [lia|done..].
      * destruct (IH _ Hin) as (j & -> & ? & ?).
        exists (S j). split_and!; [lia|done..].
    + intros Hin. destruct (IH _ Hin) as (j & -> & ? & ?).
      exists (S j). split_and!; [lia|done..].
Qed.

Lemma fmap_alter_const {A B} (g : A → B) (f : A → A) c i (l : list A) :
  (∀ x, g (f x) = c) → g <$> alter f i l = <[i:=c]> (g <$> l).
Proof.
  intros Hc. revert i. induction l as [|x l IH]; intros [|i]; cbn; try done.
  - by rewrite Hc.
  - by rewrite <-IH.
Qed.

(** X25.  When the god role is handed on ([startNextRound] without a god
    to keep, as after 'cede' and after the timer), the new god is another
    player than the old one: the roles are those of before with the old
    god turned mortal and the new god, whose reign starts afresh, turned
    god. *)
Theorem cede_changes_the_god r pick r' evs :
  startNextRound r None pick = Done r' evs →
  ∃ gi g ni n,
    find_god (Room.players r) = Some (gi, g)
    ∧ Room.players r !! ni = Some n
    ∧ ni ≠ gi
    ∧ Player.role <$> Room.players r'
      = <[ni:=Some god]> (<[gi:=Some mortal]> (Player.role <$> Room.players r))
    ∧ Room.godHistory r' = Some (GodHistory.mk (Player.id n) 1 false 0).
Proof.
  unfold startNextRound, find_god. cbn [keeps_god]. cbn.
  destruct (list_find (λ p, Player.role p = Some god) (Room.players r))
    as [[gi g]|] eqn:Hg; [|done].
  set (cands := match entries_from _ 0 (Room.players r) with
                | [] => _ | alive => alive end).
  destruct (cands !! (pick mod length cands)%nat) as [[ni n]|] eqn:Hl;
    [|done].
  intros [= <- <-]. exists gi, g, ni, n. cbn.
  apply list_elem_of_lookup_2 in Hl.
  apply list_find_Some in Hg as (Hgi & Hgr & _).
  assert (Room.players r !! ni = Some n ∧ ni ≠ gi) as [Hni Hne].
  { subst cands.
    destruct (entries_from (λ p, bool_decide (alive_mortal p)) 0
                (Room.players r)) as [|e l] eqn:E.
    - apply entries_from_elem in Hl as (j & Hij & Hj & Hp).
      cbn in Hij. subst j. split; [done|]. intros ->.
      apply bool_decide_eq_true in Hp. congruence.
    - rewrite <-E in Hl.
      apply entries_from_elem in Hl as (j & Hij & Hj & Hp).
      cbn in Hij. subst j. split; [done|]. intros ->.
      apply bool_decide_eq_true in Hp as [Hp _]. congruence. }
  split_and!; [done..| |done].
  rewrite <-list_fmap_compose.
  rewrite (list_fmap_ext (Player.role ∘ reset_mortal) Player.role
             _ (λ _ x _, reset_mortal_role x)).
  rewrite (fmap_alter_const Player.role _ (Some god)) by done.
  by rewrite (fmap_alter_const Player.role _ (Some mortal)) by done.
Qed.

Lemma cede_changes_the_god_witness :
  ∃ r' gi ni,
    (∃ evs, startNextRound stalemate_room None 0 = Done r' evs)
    ∧ ni ≠ gi
    ∧ Player.role <$> Room.players r'
      = <[ni:=Some god]>
          (<[gi:=Some mortal]> (Player.role <$> Room.players stalemate_room)).
Proof.
  destruct (startNextRound stalemate_room None 0) as [r' evs|r' evs|] eqn:E;
    [|exfalso; vm_compute in E; discriminate..].
  destruct (cede_changes_the_god _ _ _ _ E)
    as (gi & g & ni & n & _ & _ & Hne & Hr & _).
  exists r', gi, ni. split; [by exists evs|]. by split.
Defined.

(** ** The registry *)

Lemma code_step cfg sid cmd r r' evs :
  handle cfg sid cmd r = Done r' evs → Room.code r' = Room.code r.
Proof.
  destruct cmd; cbn [handle]; intros Hh.
  - unfold join_room in Hh. repeat case_bool_decide; by simplify_eq.
  - unfold toggle_ready in Hh. repeat case_match; by simplify_eq.
  - unfold set_round_config in Hh. repeat case_match; by simplify_eq.
  - unfold start_game in Hh. repeat case_match; by simplify_eq.
  - unfold select_position in Hh. repeat case_match; by simplify_eq.
  - unfold submit_claim in Hh. repeat case_match; by simplify_eq.
  - unfold submit_claim_blockchain in Hh. repeat case_match; by simplify_eq.
  - apply verify_claim_inv in Hh
      as [->|(j & c & v & on & err & _ & _ & _ & _ & -> & _)]; [done|].
    apply settle_verification_keeps.
  - by apply attack_cell_keeps in Hh as (? & _).
  - unfold god_choice in Hh. repeat case_match; simplify_eq; try done.
    all: by apply startNextRound_keeps in Hh as (? & _).
  - apply disconnect_inv in Hh
      as [[-> _]|(i & p & p0 & ps & _ & _ & _ & ->)]; done.
  - unfold auto_start in Hh. case_bool_decide; [|by simplify_eq].
    by apply startNextRound_keeps in Hh as (? & _).
  - unfold registration_settled in Hh. repeat case_match; by simplify_eq.
Qed.

Lemma map_get_Some k v m : map_get k m = Some v → (k, v) ∈ m.
Proof.
  induction m as [|[k' v'] m IH]; cbn; [done|].
  case_bool_decide; [intros [= ->]; subst; by left|].
  intros ?%IH. by right.
Qed.

Lemma map_get_None k m : map_get k m = None → k ∉ fst <$> m.
Proof.
  induction m as [|[k' v'] m IH]; cbn; [by intros _ ?%elem_of_nil|].
  case_bool_decide; [done|].
  intros ?%IH [->|?]%elem_of_cons; done.
Qed.

Lemma map_set_elem k v m k' v' :
  (k', v') ∈ map_set k v m → (k' = k ∧ v' = v) ∨ (k', v') ∈ m.
Proof.
  induction m as [|[k0 v0] m IH]; cbn.
  - intros [[= -> ->]|[]%elem_of_nil]%elem_of_cons. by left.
  - case_bool_decide as Hk.
    + intros [[= -> ->]|Hin]%elem_of_cons; [by left|]. right. by right.
    + intros [[= -> ->]|Hin]%elem_of_cons; [right; by left|].
      destruct (IH Hin); [by left|right; by right].
Qed.

Lemma map_set_NoDup_keys k v m :
  NoDup (fst <$> m) → NoDup (fst <$> map_set k v m).
Proof.
  induction m as [|[k0 v0] m IH]; cbn.
  - intros _. apply NoDup_singleton.
  - intros [Hk0 Hm]%NoDup_cons. case_bool_decide as Hk; cbn.
    + subst k0. by apply NoDup_cons.
    + apply NoDup_cons. split; [|by apply IH].
      intros ([k1 v1] & -> & Hin)%list_elem_of_fmap.
      apply map_set_elem in Hin as [[-> _]|Hin]; [done|].
      apply Hk0, list_elem_of_fmap. by exists (k1, v1).
Qed.

Lemma map_set_NoDup_values k v m :
  v ∉ snd <$> m → NoDup (snd <$> m) → NoDup (snd <$> map_set k v m).
Proof.
  induction m as [|[k0 v0] m IH]; cbn.
  - intros _ _. apply NoDup_singleton.
  - intros Hv [Hv0 Hm]%NoDup_cons.
    apply not_elem_of_cons in Hv as [Hne Hv].
    case_bool_decide as Hk; cbn.
    + by apply NoDup_cons.
    + apply NoDup_cons. split; [|by apply IH].
      intros ([k1 v1] & -> & Hin)%list_elem_of_fmap.
      apply map_set_elem in Hin as [[_ ->]|Hin]; [done|].
      apply Hv0, list_elem_of_fmap. by exists (k1, v1).
Qed.

Lemma map_delete_sublist k m : map_delete k m `sublist_of` m.
Proof.
  induction m as [|[k0 v0] m IH]; cbn; [done|].
  case_bool_decide; [by apply sublist_cons|by apply sublist_skip].
Qed.

Lemma map_delete_keeps k m k' v' :
  (k', v') ∈ m → k' ≠ k → (k', v') ∈ map_delete k m.
Proof.
  induction m as [|[k0 v0] m IH]; cbn; [done|].
  intros [[= -> ->]|Hin]%elem_of_cons Hne.
  - rewrite bool_decide_eq_false_2 by done. by left.
  - case_bool_decide; [done|]. right. by apply IH.
Qed.

Lemma map_delete_gone k v m :
  NoDup (fst <$> m) → (k, v) ∉ map_delete k m.
Proof.
  induction m as [|[k0 v0] m IH]; cbn; [by intros _ ?%elem_of_nil|].
  intros [Hk0 Hk]%NoDup_cons. case_bool_decide as Hkk.
  - subst k0. intros Hin. apply Hk0, list_elem_of_fmap. by exists (k, v).
  - intros [[= -> ->]|Hin]%elem_of_cons; [done|]. by apply IH.
Qed.

Lemma NoDup_snd_inj (m : list (string * nat)) k k' v :
  NoDup (snd <$> m) → (k, v) ∈ m → (k', v) ∈ m → k = k'.
Proof.
  intros Hn H1 H2.
  by pose proof (NoDup_fmap_inj_on snd m (k, v) (k', v) Hn H1 H2 eq_refl)
    as [= ->].
Qed.

(** A handler that ran on a room object keeps the registry sound. *)
Lemma store_sound cfg sid cmd s id r r' evs :
  registry_sound cfg s →
  Server.objects s !! id = Some r →
  handle cfg sid cmd r = Done r' evs →
  registry_sound cfg (store id r' s).
Proof.
  intros (Hk & Hv & He) Hid Hh. split_and!; [done..|].
  intros code id' Hin. destruct (He _ _ Hin) as (Hup & r0 & Hr0 & Hc & Hre).
  split; [done|]. cbn.
  destruct (decide (id' = id)) as [->|Hne].
  - exists r'. rewrite list_lookup_insert_eq
      by (by eapply lookup_lt_Some).
    split_and!; [done| |by eapply reach_step; [|done]; congruence].
    rewrite (code_step _ _ _ _ _ _ Hh). congruence.
  - exists r0. by rewrite list_lookup_insert_ne.
Qed.

Lemma disconnect_all_sound cfg sid entries s :
  registry_sound cfg s →
  (∀ e, e ∈ entries → e ∈ Server.rooms s) →
  NoDup (fst <$> entries) →
  registry_sound cfg (disconnect_all sid entries s).1.
Proof.
  revert s. induction entries as [|[code id] entries IH]; intros s Hs Hin Hn;
    [done|].
  cbn [disconnect_all].
  apply NoDup_cons in Hn as [Hcode Hn].
  assert (∀ e, e ∈ entries → e ∈ Server.rooms s) as Hin'
    by (intros e He; apply Hin; by right).
  destruct (Server.objects s !! id) as [r|] eqn:Hid; [|by apply IH].
  destruct (disconnect sid r) as [r' evs|r' evs|] eqn:Hd.
  - destruct (disconnect_all sid entries (store id r' s)) as [s' ns] eqn:E.
    change s' with (s', ns).1. rewrite <-E.
    apply IH; [|done..].
    by eapply (store_sound cfg sid Disconnect).
  - exfalso. unfold disconnect in Hd. repeat case_match; simplify_eq.
  - apply IH; [| |done].
    + destruct Hs as (Hk & Hv & He). split_and!; cbn.
      * eapply sublist_NoDup; [exact Hk|].
        apply fmap_sublist, map_delete_sublist.
      * eapply sublist_NoDup; [exact Hv|].
        apply fmap_sublist, map_delete_sublist.
      * intros code' id' Hin2.
        assert ((code', id') ∈ Server.rooms s) as Hin3
          by (eapply elem_of_sublist; [exact Hin2|];
              apply map_delete_sublist).
        destruct (He _ _ Hin3) as (Hup & r0 & Hr0 & Hc & Hre).
        split; [done|]. exists r0. split_and!; [|done..].
        rewrite list_lookup_insert_ne; [done|].
        intros <-.
        assert (code = code') as <-.
        { eapply NoDup_snd_inj; [exact Hv| |exact Hin3].
          apply Hin. by left. }
        by apply (map_delete_gone code id (Server.rooms s) Hk).
    + intros [code' id'] He. cbn. apply map_delete_keeps; [by apply Hin'|].
      intros ->. apply Hcode, list_elem_of_fmap. by exists (code, id').
Qed.

Lemma deliver_sound cfg sid msg s s' ns :
  registry_sound cfg s →
  deliver cfg sid msg s = Delivered s' ns →
  registry_sound cfg s'.
Proof.
  intros Hs. destruct msg as [playerName random|roomCode ev| |id pick|id ok];
    cbn [deliver].
  - intros [= <- <-]. destruct Hs as (Hk & Hv & He).
    assert (∀ code id, (code, id) ∈ Server.rooms s →
                       (id < length (Server.objects s))%nat) as Hlt.
    { intros code id Hin. destruct (He _ _ Hin) as (_ & r0 & Hr0 & _).
      by eapply lookup_lt_Some. }
    split_and!; cbn.
    + by apply map_set_NoDup_keys.
    + apply map_set_NoDup_values; [|done].
      intros ([k1 v1] & Heq & Hin)%list_elem_of_fmap. cbn in Heq.
      specialize (Hlt _ _ Hin). lia.
    + intros code id [[-> ->]|Hin]%map_set_elem.
      * split; [apply generateRoomCode_upper|].
        exists (createRoom (generateRoomCode random) sid playerName).
        split_and!; [|done|constructor].
        by rewrite lookup_app_r, Nat.sub_diag.
      * destruct (He _ _ Hin) as (Hup & r0 & Hr0 & Hc & Hre).
        split; [done|]. exists r0. split_and!; [|done..].
        by rewrite lookup_app_l by (by eapply lookup_lt_Some).
  - destruct (map_get (lookup_key roomCode ev) (Server.rooms s))
      as [id|] eqn:Hg; cbn; [|by intros [= <- <-]].
    destruct (Server.objects s !! id) as [r|] eqn:Hid; cbn;
      [|by intros [= <- <-]].
    destruct (handle cfg sid (command_of ev) r) as [r' evs|r' evs|] eqn:Hh;
      cbn; intros [= <- <-]; [|done].
    by eapply store_sound.
  - destruct (disconnect_all sid (Server.rooms s) s) as [s1 ns1] eqn:E.
    intros [= <- <-]. change s1 with (s1, ns1).1. rewrite <-E.
    apply disconnect_all_sound; [done..|]. apply Hs.
  - destruct (Server.objects s !! id) as [r|] eqn:Hid;
      [|by intros [= <- <-]].
    destruct (auto_start pick r) as [r' evs|r' evs|] eqn:Hh;
      cbn; intros [= <- <-]; [|done].
    by eapply (store_sound cfg sid (Auto_start pick)).
  - destruct (Server.objects s !! id) as [r|] eqn:Hid;
      [|by intros [= <- <-]].
    destruct (registration_settled cfg ok r) as [r' evs|r' evs|] eqn:Hh;
      cbn; intros [= <- <-]; [|done].
    by eapply (store_sound cfg sid (Registration_settled ok)).
Qed.

Lemma serving_sound cfg s : serving cfg s → registry_sound cfg s.
Proof.
  induction 1 as [|s sid msg s' ns _ IH Hd].
  - split_and!; cbn; [constructor..|]. by intros code id ?%elem_of_nil.
  - by eapply deliver_sound.
Qed.

Lemma room_of_Some s code r :
  room_of s code = Some r →
  ∃ id, (code, id) ∈ Server.rooms s ∧ Server.objects s !! id = Some r.
Proof.
  unfold room_of.
  destruct (map_get code (Server.rooms s)) as [id|] eqn:Hg; [|done].
  cbn. intros Hid. exists id. split; [by apply map_get_Some|done].
Qed.

(** X26.  Whatever messages the server has handled, every room of the
    registry is filed under its own code, is a room reached by commands
    from [createRoom] and so has at least one player: a room that its
    last player leaves is taken out of the registry.  No two entries
    share a code or a room object. *)
Theorem registry_holds_live_rooms cfg s code r :
  serving cfg s →
  room_of s code = Some r →
  Room.code r = code
  ∧ toUpperCase code = code
  ∧ reachable cfg r
  ∧ Room.players r ≠ []
  ∧ NoDup (fst <$> Server.rooms s)
  ∧ NoDup (snd <$> Server.rooms s).
Proof.
  intros (Hk & Hv & He)%serving_sound (id & Hin & Hid)%room_of_Some.
  destruct (He _ _ Hin) as (Hup & r0 & Hr0 & Hc & Hre).
  assert (r0 = r) as -> by congruence.
  split_and!; try done.
  pose proof (players_bound_kept cfg r Hre) as Hb.
  destruct (Room.players r); [cbn in Hb; lia|done].
Qed.

Lemma serve_serving cfg msgs s s' ns :
  serving cfg s → serve cfg msgs s = Delivered s' ns → serving cfg s'.
Proof.
  revert s ns. induction msgs as [|[sid msg] msgs IH]; intros s ns Hs; cbn.
  - by intros [= <- _].
  - destruct (deliver cfg sid msg s) as [s1 ns1|s1 ns1] eqn:Hd; [|done].
    destruct (serve cfg msgs s1) as [s2 ns2|s2 ns2] eqn:Hr; [|done].
    intros [= <- _]. eapply IH; [|done]. by eapply serving_step.
Qed.

Lemma served_serving msgs :
  serves_through msgs = true → serving local_only (served msgs).
Proof.
  unfold serves_through, served.
  destruct (serve local_only msgs (Server.mk [] [])) as [s ns|s ns] eqn:Hr;
    [|done].
  intros _. eapply serve_serving; [|done]. constructor.
Qed.

Lemma registry_holds_live_rooms_witness :
  ∃ r, room_of lobby_server "AAAAAA" = Some r
       ∧ Room.code r = "AAAAAA"
       ∧ Room.players r ≠ [].
Proof.
  destruct (room_of lobby_server "AAAAAA") as [r|] eqn:E;
    [|exfalso; vm_compute in E; discriminate].
  exists r. split; [done|].
  destruct (registry_holds_live_rooms local_only lobby_server "AAAAAA" r)
    as (Hc & _ & _ & Hp & _); [|done|by split].
  apply served_serving. vm_compute. reflexivity.
Defined.

(** X27.  Only [join_room] ignores the case of the room code.  Under a
    spelling that differs from the registered code but has it as upper
    case, [join_room] reaches the room, while every other event finds no
    room: the server stays as it is and answers what it answers for an
    unknown code (nothing, or the failure of submit_claim_blockchain). *)
Theorem only_join_room_ignores_case cfg sid s code r roomCode :
  serving cfg s →
  room_of s code = Some r →
  toUpperCase roomCode = code →
  roomCode ≠ code →
  (∀ playerName, ∃ id,
     Server.objects s !! id = Some r
     ∧ deliver cfg sid (To_room roomCode (On_join_room playerName)) s
       = settled id (join_room sid playerName r) s)
  ∧ (∀ ev, (∀ playerName, ev ≠ On_join_room playerName) →
       deliver cfg sid (To_room roomCode ev) s
       = Delivered s (in_room <$> room_missing cfg ev)).
Proof.
  intros (Hk & Hv & He)%serving_sound Hr Hup Hne. split.
  - intros playerName. unfold room_of in Hr.
    destruct (map_get code (Server.rooms s)) as [id|] eqn:Hg; [|done].
    cbn in Hr. exists id. split; [done|].
    cbn [deliver lookup_key command_of handle]. by rewrite Hup, Hg; cbn; rewrite Hr.
  - intros ev Hev.
    assert (map_get roomCode (Server.rooms s) = None) as Hg.
    { destruct (map_get roomCode (Server.rooms s)) as [id|] eqn:Hg; [|done].
      apply map_get_Some in Hg. destruct (He _ _ Hg) as [Hup' _].
      congruence. }
    destruct ev; cbn [deliver lookup_key]; try (by rewrite Hg).
    by destruct (Hev playerName).
Qed.

Lemma only_join_room_ignores_case_witness :
  deliver local_only "b" (To_room "aaaaaa" On_toggle_ready) lobby_server
  = Delivered lobby_server [].
Proof.
  destruct (room_of lobby_server "AAAAAA") as [r|] eqn:E;
    [|exfalso; vm_compute in E; discriminate].
  refine (proj2 (only_join_room_ignores_case local_only "b" lobby_server
                   "AAAAAA" r "aaaaaa" _ E _ _) On_toggle_ready _).
  - apply served_serving. vm_compute. reflexivity.
  - reflexivity.
  - discriminate.
  - discriminate.
Defined.

Lemma map_get_elem k v m :
  NoDup (fst <$> m) → (k, v) ∈ m → map_get k m = Some v.
Proof.
  induction m as [|[k0 v0] m IH]; cbn; [by intros _ ?%elem_of_nil|].
  intros [Hk0 Hk]%NoDup_cons [[= -> ->]|Hin]%elem_of_cons.
  - by rewrite bool_decide_eq_true_2.
  - case_bool_decide as Hkk; [|by apply IH].
    subst k0. destruct Hk0. apply list_elem_of_fmap. by exists (k, v).
Qed.

Lemma map_get_delete k k' m :
  NoDup (fst <$> m) →
  map_get k' (map_delete k m)
  = if bool_decide (k' = k) then None else map_get k' m.
Proof.
  induction m as [|[k0 v0] m IH]; cbn; [by case_bool_decide|].
  intros [Hk0 Hk]%NoDup_cons.
  destruct (decide (k0 = k)) as [->|Hne].
  - rewrite (bool_decide_eq_true_2 (k = k)) by done.
    case_bool_decide as Hkk.
    + subst k'. destruct (map_get k m) as [v|] eqn:Hg; [|done].
      destruct Hk0. apply list_elem_of_fmap. exists (k, v).
      split; [done|]. by apply map_get_Some.
    + by rewrite bool_decide_eq_false_2 by done.
  - rewrite (bool_decide_eq_false_2 (k0 = k)) by done. cbn.
    rewrite IH by done.
    destruct (decide (k0 = k')) as [->|Hne'].
    + rewrite (bool_decide_eq_true_2 (k' = k')) by done.
      by rewrite bool_decide_eq_false_2 by done.
    + by rewrite (bool_decide_eq_false_2 (k0 = k')) by done.
Qed.

Lemma room_of_store cfg s c0 id0 r' code :
  registry_sound cfg s →
  (c0, id0) ∈ Server.rooms s →
  room_of (store id0 r' s) code
  = if bool_decide (code = c0) then Some r' else room_of s code.
Proof.
  intros (Hk & Hv & He) Hin. unfold room_of. cbn.
  destruct (He _ _ Hin) as (_ & r0 & Hr0 & _).
  case_bool_decide as Hc.
  - subst code. rewrite (map_get_elem _ _ _ Hk Hin). cbn.
    apply list_lookup_insert_eq. by eapply lookup_lt_Some.
  - destruct (map_get code (Server.rooms s)) as [id|] eqn:Hg; [|done].
    cbn. apply list_lookup_insert_ne. intros <-.
    apply map_get_Some in Hg. apply Hc.
    by eapply NoDup_snd_inj.
Qed.

Lemma room_of_delete cfg s c0 id0 x code :
  registry_sound cfg s →
  (c0, id0) ∈ Server.rooms s →
  room_of (Server.mk (<[id0:=x]> (Server.objects s))
             (map_delete c0 (Server.rooms s))) code
  = if bool_decide (code = c0) then None else room_of s code.
Proof.
  intros (Hk & Hv & He) Hin. unfold room_of. cbn.
  rewrite map_get_delete by done.
  case_bool_decide as Hc; [done|].
  destruct (map_get code (Server.rooms s)) as [id|] eqn:Hg; [|done].
  cbn. apply list_lookup_insert_ne. intros <-.
  apply map_get_Some in Hg. apply Hc.
  by eapply NoDup_snd_inj.
Qed.

Lemma disconnect_all_room_of cfg sid entries s code :
  registry_sound cfg s →
  (∀ e, e ∈ entries → e ∈ Server.rooms s) →
  NoDup (fst <$> entries) →
  room_of (disconnect_all sid entries s).1 code
  = if bool_decide (code ∈ fst <$> entries)
    then room_of s code ≫= without sid
    else room_of s code.
Proof.
  revert s. induction entries as [|[c0 id0] entries IH]; intros s Hs Hin Hn.
  { cbn. by rewrite bool_decide_eq_false_2 by apply not_elem_of_nil. }
  cbn [disconnect_all].
  apply NoDup_cons in Hn as [Hc0 Hn].
  assert ((c0, id0) ∈ Server.rooms s) as Hin0 by (apply Hin; by left).
  assert (∀ e, e ∈ entries → e ∈ Server.rooms s) as Hin'
    by (intros e He; apply Hin; by right).
  pose proof Hs as (Hk & Hv & He).
  destruct (He _ _ Hin0) as (_ & r0 & Hr0 & _).
  assert (room_of s c0 = Some r0) as Hroom.
  { unfold room_of. by rewrite (map_get_elem _ _ _ Hk Hin0). }
  rewrite Hr0.
  assert (bool_decide (code ∈ fst <$> (c0, id0) :: entries)
          = if bool_decide (code = c0) then true
            else bool_decide (code ∈ fst <$> entries)) as ->.
  { destruct (decide (code = c0)) as [->|Hc].
    - rewrite (bool_decide_eq_true_2 (c0 = c0)) by done.
      apply bool_decide_eq_true_2. cbn. by left.
    - rewrite (bool_decide_eq_false_2 (code = c0)) by done.
      apply bool_decide_ext. cbn. rewrite elem_of_cons. tauto. }
  destruct (disconnect sid r0) as [r' evs|r' evs|] eqn:Hd.
  - destruct (disconnect_all sid entries (store id0 r' s)) as [s' ns] eqn:E.
    cbn [fst].
    replace s' with (disconnect_all sid entries (store id0 r' s)).1
      by (by rewrite E).
    rewrite IH; [|by eapply (store_sound cfg sid Disconnect)|done..].
    rewrite (room_of_store cfg s c0 id0 r' code) by done.
    destruct (decide (code = c0)) as [->|Hc].
    + rewrite !(bool_decide_eq_true_2 (c0 = c0)) by done.
      rewrite bool_decide_eq_false_2 by done.
      rewrite Hroom. cbn. unfold without. by rewrite Hd.
    + by rewrite !(bool_decide_eq_false_2 (code = c0)) by done.
  - exfalso. unfold disconnect in Hd. repeat case_match; simplify_eq.
  - assert (registry_sound cfg
              (Server.mk (<[id0:=Room.set_players [] r0]> (Server.objects s))
                 (map_delete c0 (Server.rooms s)))) as Hs'.
    { split_and!; cbn.
      - eapply sublist_NoDup; [exact Hk|].
        apply fmap_sublist, map_delete_sublist.
      - eapply sublist_NoDup; [exact Hv|].
        apply fmap_sublist, map_delete_sublist.
      - intros code' id' Hin2.
        assert ((code', id') ∈ Server.rooms s) as Hin3
          by (eapply elem_of_sublist; [exact Hin2|];
              apply map_delete_sublist).
        destruct (He _ _ Hin3) as (Hup & r1 & Hr1 & Hc & Hre).
        split; [done|]. exists r1. split_and!; [|done..].
        rewrite list_lookup_insert_ne; [done|].
        intros <-.
        assert (c0 = code') as <- by (by eapply NoDup_snd_inj).
        by apply (map_delete_gone c0 id0 (Server.rooms s) Hk). }
    rewrite IH; [|done| |done]; cycle 1.
    { intros [code' id'] He'. cbn. apply map_delete_keeps; [by apply Hin'|].
      intros ->. apply Hc0, list_elem_of_fmap. by exists (c0, id'). }
    rewrite (room_of_delete cfg s c0 id0 _ code) by done.
    destruct (decide (code = c0)) as [->|Hc].
    + rewrite !(bool_decide_eq_true_2 (c0 = c0)) by done.
      rewrite bool_decide_eq_false_2 by done.
      rewrite Hroom. cbn. unfold without. by rewrite Hd.
    + by rewrite !(bool_decide_eq_false_2 (code = c0)) by done.
Qed.

(** X28.  When a socket disconnects, every registered room is left as
    [disconnect] leaves it for that socket: a room without the socket is
    as before, a room with it loses the socket's first entry, and a room
    that would be left without players is no longer registered. *)
Theorem socket_disconnect_everywhere cfg sid s s' ns code :
  serving cfg s →
  deliver cfg sid Socket_disconnect s = Delivered s' ns →
  room_of s' code = room_of s code ≫= without sid.
Proof.
  intros Hs%serving_sound. cbn [deliver].
  destruct (disconnect_all sid (Server.rooms s) s) as [s1 ns1] eqn:E.
  intros [= <- <-]. change s1 with (s1, ns1).1. rewrite <-E.
  rewrite (disconnect_all_room_of cfg) by (done || apply Hs).
  case_bool_decide as Hc; [done|].
  unfold room_of.
  destruct (map_get code (Server.rooms s)) as [id|] eqn:Hg; [|done].
  destruct Hc. apply list_elem_of_fmap. exists (code, id).
  split; [done|]. by apply map_get_Some.
Qed.

Lemma socket_disconnect_everywhere_witness :
  room_of emptied_server "BBBBBB" = None
  ∧ room_of emptied_server "AAAAAA" = room_of lobby_server "AAAAAA".
Proof.
  assert (serving local_only
            (served [ ("h", Create_room "Hal" (λ _, 0%nat));
                      ("a", To_room "aaaaaa" (On_join_room "Ann"));
                      ("x", Create_room "Xi" (λ _, 1%nat)) ])) as Hs
    by (apply served_serving; vm_compute; reflexivity).
  assert (deliver local_only "x" Socket_disconnect
            (served [ ("h", Create_room "Hal" (λ _, 0%nat));
                      ("a", To_room "aaaaaa" (On_join_room "Ann"));
                      ("x", Create_room "Xi" (λ _, 1%nat)) ])
          = Delivered emptied_server []) as Hd by (vm_compute; reflexivity).
  split.
  - rewrite (socket_disconnect_everywhere _ _ _ _ _ "BBBBBB" Hs Hd).
    vm_compute. reflexivity.
  - rewrite (socket_disconnect_everywhere _ _ _ _ _ "AAAAAA" Hs Hd).
    vm_compute. reflexivity.
Defined.

(** ** Exceptions *)

Lemma find_god_same_roles (ps ps' : list Player.t) :
  Player.role <$> ps' = Player.role <$> ps →
  is_Some (find_god ps') → is_Some (find_god ps).
Proof. intros H. by apply find_god_roles. Qed.

Lemma find_god_sublist (ps ps' : list Player.t) :
  ps' `sublist_of` ps → is_Some (find_god ps') → is_Some (find_god ps).
Proof.
  unfold find_god. rewrite !list_find_is_Some, !Exists_exists.
  intros Hs (p & Hp & Hr). exists p. split; [|done].
  by eapply elem_of_sublist.
Qed.

Lemma god_history_same r r' :
  Player.role <$> Room.players r' = Player.role <$> Room.players r →
  Room.godHistory r' = Room.godHistory r →
  god_has_history r → god_has_history r'.
Proof.
  unfold god_has_history. intros Hr -> Hg Hs.
  by eapply Hg, find_god_same_roles.
Qed.

Lemma settle_verification_history r i c :
  Room.godHistory (settle_verification r i c) = Room.godHistory r.
Proof.
  unfold settle_verification. cbn.
  destruct (truthy (Claim.isTrue c) && Claim.isSelfClaim c); [|done].
  match goal with |- context [addScore ?r' ?pid ?a ?p ?rd ?t] =>
    destruct (addScore_shape r' pid a p rd t) as [m ->] end.
  done.
Qed.

Lemma check_end_of_round_history r r' evs :
  check_end_of_round r = Done r' evs →
  Room.godHistory r' = Room.godHistory r.
Proof.
  unfold check_end_of_round, handleEndOfRound.
  repeat case_match; intros; by simplify_eq.
Qed.

Lemma scoring_history godId hit gh r :
  is_Some (Room.godHistory r) →
  is_Some (Room.godHistory (survival_points (god_points godId hit gh r))).
Proof.
  intros Hh.
  destruct (survival_points_shape (god_points godId hit gh r)) as [m ->].
  destruct (god_points_shape godId hit gh r) as [m' ->]. cbn.
  by destruct hit.
Qed.

Lemma startNextRound_history r keepGodId pick r' evs :
  startNextRound r keepGodId pick = Done r' evs →
  is_Some (Room.godHistory r) ∨ keeps_god keepGodId = false →
  is_Some (Room.godHistory r').
Proof.
  unfold startNextRound. destruct (keeps_god keepGodId).
  - intros [= <- <-] [H|H]; [done|done].
  - cbn. repeat case_match; try done. all: by intros [= <- <-] _.
Qed.

Lemma god_has_history_step cfg sid cmd r r' evs :
  god_has_history r →
  handle cfg sid cmd r = Done r' evs →
  god_has_history r'.
Proof.
  intros Hg. destruct cmd; cbn [handle]; intros Hh.
  - unfold join_room in Hh. repeat case_bool_decide; simplify_eq; try done.
    unfold god_has_history, find_god in *. cbn.
    rewrite !list_find_is_Some in *. rewrite Exists_app.
    intros [Hx|Hx]; [by apply Hg|].
    by apply Exists_cons in Hx as [Hx|Hx%Exists_nil].
  - unfold toggle_ready in Hh. repeat case_match; simplify_eq; [|done].
    apply (god_history_same r); [|done..]. cbn. by rewrite fmap_alter_same.
  - unfold set_round_config in Hh. repeat case_match; by simplify_eq.
  - unfold start_game in Hh. repeat case_match; simplify_eq; try done.
    intros _. by cbn.
  - unfold select_position in Hh. repeat case_match; simplify_eq; try done.
    all: apply (god_history_same r); [|done..]; cbn; by rewrite fmap_alter_same.
  - unfold submit_claim in Hh. repeat case_match; by simplify_eq.
  - unfold submit_claim_blockchain in Hh. repeat case_match; by simplify_eq.
  - apply verify_claim_inv in Hh
      as [->|(j & c & v & on & err & _ & _ & _ & _ & -> & _)]; [done|].
    apply (god_history_same r); [|apply settle_verification_history|done].
    by destruct (settle_verification_keeps r j (Claim.set_verdict v on err c))
      as (_ & -> & _).
  - apply attack_cell_inv in Hh
      as [[-> _]|(i & p & gi & g & gh & evs0 & _ & _ & _ & _ & Hgh & Hc)];
      [done|].
    intros _. rewrite (check_end_of_round_history _ _ _ Hc).
    apply scoring_history.
    rewrite (proj1 (proj2 (strike_rest _ _ _))), Hgh. by eexists.
  - unfold god_choice in Hh. repeat case_match; simplify_eq; try done.
    all: intros _; eapply startNextRound_history; [exact Hh|].
    all: first [by (left; cbn; eexists)|by right].
  - apply disconnect_inv in Hh
      as [[-> _]|(i & p & p0 & ps & _ & E & _ & ->)]; [done|].
    unfold god_has_history in *. cbn. intros Hs. apply Hg.
    eapply (find_god_sublist _ (p0 :: ps));
      [rewrite <-E; apply sublist_delete|].
    case_bool_decide; [done|].
    eapply find_god_same_roles; [|exact Hs]. done.
  - unfold auto_start in Hh. case_bool_decide; [|by simplify_eq].
    intros _. eapply startNextRound_history; [exact Hh|by right].
  - unfold registration_settled in Hh. repeat case_match; by simplify_eq.
Qed.

Lemma god_history_kept cfg r : reachable cfg r → god_has_history r.
Proof.
  induction 1 as [code hostId hostName|r sid cmd r' evs _ IH Hh].
  - by intros [? [=]].
  - by eapply god_has_history_step.
Qed.

Lemma entries_from_nil {A} (P : A → bool) i (l : list A) :
  entries_from P i l = [] ↔ Forall (λ x, P x = false) l.
Proof.
  revert i. induction l as [|x l IH]; intros i; cbn.
  - split; [constructor|done].
  - rewrite Forall_cons. destruct (P x); [split; [done|by intros [? _]]|].
    rewrite IH. tauto.
Qed.

(** [startNextRound] throws exactly when it is to hand the god role on
    and nobody can take it. *)
Lemma startNextRound_throws r keepGodId pick :
  (∃ r' evs, startNextRound r keepGodId pick = Crash r' evs)
  ↔ keeps_god keepGodId = false ∧ no_successor (Room.players r).
Proof.
  unfold startNextRound, no_successor, find_god.
  destruct (keeps_god keepGodId).
  { split; [by intros (? & ? & [=])|by intros [[=] _]]. }
  cbn.
  destruct (list_find (λ p, Player.role p = Some god) (Room.players r))
    as [[gi g]|] eqn:Hg; [|split; [done|by eexists _, _]].
  assert (∀ l : list Player.t,
            Forall (λ p, ¬ alive_mortal p ∧ Player.id p = Player.id g) l
            ↔ Forall (λ p, bool_decide (alive_mortal p) = false) l
              ∧ Forall (λ p, bool_decide (Player.id p ≠ Player.id g) = false)
                  l) as Hall.
  { intros l. induction l as [|p l IH].
    - split; intros; [split|]; constructor.
    - rewrite !Forall_cons, IH, !bool_decide_eq_false.
      destruct (decide (Player.id p = Player.id g)); tauto. }
  rewrite Hall, <-!(entries_from_nil _ 0%nat).
  destruct (entries_from (λ p, bool_decide (alive_mortal p)) 0
              (Room.players r)) as [|a l] eqn:Ea.
  - destruct (entries_from
                (λ p, bool_decide (Player.id p ≠ Player.id g)) 0
                (Room.players r)) as [|o l'] eqn:Eo.
    + cbn. split; [done|by eexists _, _].
    + destruct (lookup_mod_is_Some (o :: l') pick) as [[ni n] Hl]; [done|].
      rewrite Hl. split; [by intros (? & ? & [=])|by intros [_ [_ [=]]]].
  - destruct (lookup_mod_is_Some (a :: l) pick) as [[ni n] Hl]; [done|].
    rewrite Hl. split; [by intros (? & ? & [=])|by intros [_ [[=] _]]].
Qed.

(** X29.  The callback of the round-transition timer throws exactly when
    it finds the room still in round_transition and the room has no god,
    or has no living mortal and no player whose id differs from the
    god's.  When it throws it has already advanced the round: the room
    is left in round_transition with the round number increased, turn 1,
    the budget at 2 and the claims and attacks cleared, and nothing is
    emitted.  The case arises in a room reached by commands: the god
    leaves after a round the mortals survived. *)
Theorem timer_throws_without_successor r pick :
  ((∃ r' evs, auto_start pick r = Crash r' evs)
   ↔ Room.phase r = round_transition ∧ no_successor (Room.players r))
  ∧ (∀ r' evs, auto_start pick r = Crash r' evs →
       evs = []
       ∧ Room.phase r' = round_transition
       ∧ Room.currentRound r' = Room.currentRound r + 1
       ∧ Room.turn r' = 1
       ∧ Room.verificationsRemaining r' = 2
       ∧ Room.claims r' = []
       ∧ Room.attacks r' = [])
  ∧ (reachable local_only godless_room
     ∧ Room.phase godless_room = round_transition
     ∧ no_successor (Room.players godless_room)).
Proof.
  split_and!.
  - unfold auto_start. case_bool_decide as Hph.
    + rewrite startNextRound_throws. cbn. tauto.
    + split; [by intros (? & ? & [=])|tauto].
  - intros r' evs. unfold auto_start. case_bool_decide as Hph; [|done].
    unfold startNextRound. cbn.
    repeat case_match; intros; by simplify_eq.
  - apply played_reachable. vm_compute. reflexivity.
  - by vm_compute.
  - by vm_compute.
Qed.

(** ** Starting the game *)

Lemma init_scores_entries ps k s :
  (init_scores ps).1 !! k = Some s →
  ∃ p, p ∈ ps ∧ k = Player.id p
       ∧ s = PlayerScore.mk (Player.id p) (Player.name p) 0 [].
Proof.
  unfold init_scores.
  set (f := λ (acc : gmap string PlayerScore.t * list string) p, _).
  assert (∀ (done : list Player.t) acc,
            (∀ k s, acc.1 !! k = Some s →
               ∃ p, p ∈ done ∧ k = Player.id p
                    ∧ s = PlayerScore.mk (Player.id p) (Player.name p) 0 []) →
            ∀ k s, (foldl f acc ps).1 !! k = Some s →
               ∃ p, p ∈ (done ++ ps)%list ∧ k = Player.id p
                    ∧ s = PlayerScore.mk (Player.id p) (Player.name p) 0 [])
    as Hgen.
  { induction ps as [|p ps IH]; intros seen acc Hacc k' s'.
    - cbn. rewrite app_nil_r. apply Hacc.
    - cbn [foldl]. intros Hk.
      rewrite (cons_middle p seen ps), (assoc_L (++)).
      apply (IH (seen ++ [p])%list (f acc p)); [|done].
      destruct acc as [m ks]. subst f. cbn.
      intros k0 s0. rewrite lookup_insert_Some.
      intros [[<- <-]|[_ Hk0]].
      + exists p. split; [|done]. apply elem_of_app. right. by left.
      + destruct (Hacc _ _ Hk0) as (q & Hq & ?).
        exists q. split; [|done]. apply elem_of_app. by left. }
  apply (Hgen [] (∅, [])). intros k' s'. cbn. by rewrite lookup_empty.
Qed.

(** X30.  A start_game that goes through gives every player of the room a
    score entry with total 0, deals the roles by the shuffled list (the
    first name the god, the next three mortals), and sets phase setup,
    turn 1 and round 1.  It does not touch the players' positions, the
    claims, the attacks or the verification budget. *)
Theorem start_game_deals_afresh sid shuffled r r' :
  start_game sid shuffled r = Done r' [game_started] →
  Room.phase r' = setup ∧ Room.turn r' = 1 ∧ Room.currentRound r' = 1
  ∧ scores_cover_players r'
  ∧ (∀ k, total_of r' k = 0)
  ∧ (∃ i0 i1 i2 i3 rest,
       shuffled = i0 :: i1 :: i2 :: i3 :: rest
       ∧ Player.role <$> Room.players r'
         = <[i3:=Some mortal]>
             (<[i2:=Some mortal]>
                (<[i1:=Some mortal]>
                   (<[i0:=Some god]> (Player.role <$> Room.players r)))))
  ∧ roster r' = roster r
  ∧ Player.position <$> Room.players r' = Player.position <$> Room.players r
  ∧ Room.claims r' = Room.claims r
  ∧ Room.attacks r' = Room.attacks r
  ∧ Room.verificationsRemaining r' = Room.verificationsRemaining r.
Proof.
  unfold start_game. intros Hh.
  repeat case_match; simplify_eq.
  match goal with
  | H : init_scores ?ps = (?m, ?ks) |- _ =>
      assert (m = (init_scores ps).1) as -> by (by rewrite H); clear H;
      set (ps' := ps)
  end.
  cbn -[init_scores]. split_and!; try done.
  - intros q Hq. exact (init_scores_covers ps' q Hq).
  - intros k. unfold total_of.
    match goal with
    | |- default 0 (PlayerScore.total <$> ?m !! k) = 0 =>
        destruct (m !! k) as [s|] eqn:E
    end; [|done].
    cbn -[init_scores] in E.
    by apply init_scores_entries in E as (p & _ & _ & ->).
  - eexists _, _, _, _, _. split; [done|].
    rewrite (fmap_alter_const Player.role _ (Some mortal)) by done.
    rewrite (fmap_alter_const Player.role _ (Some mortal)) by done.
    rewrite (fmap_alter_const Player.role _ (Some mortal)) by done.
    by rewrite (fmap_alter_const Player.role _ (Some god)) by done.
  - unfold roster. cbn. by rewrite !fmap_alter_same.
  - by rewrite !fmap_alter_same.
Qed.

Lemma start_game_deals_afresh_witness :
  start_game "h" [0; 1; 2; 3]%nat
    (played [ ("a", Join_room "Ann"); ("b", Join_room "Bob");
              ("c", Join_room "Cy") ])
  = Done setup_room [game_started]
  ∧ total_of setup_room "a" = 0
  ∧ Player.role <$> Room.players setup_room
    = [Some god; Some mortal; Some mortal; Some mortal].
Proof.
  assert (start_game "h" [0; 1; 2; 3]%nat
            (played [ ("a", Join_room "Ann"); ("b", Join_room "Bob");
                      ("c", Join_room "Cy") ])
          = Done setup_room [game_started]) as Hs by (by vm_compute).
  split; [exact Hs|].
  destruct (start_game_deals_afresh _ _ _ _ Hs)
    as (_ & _ & _ & _ & Ht & (i0 & i1 & i2 & i3 & rest & [= <- <- <- <- _]
                              & Hr) & _).
  split; [apply Ht|]. rewrite Hr. by vm_compute.
Defined.
